(** * Annotated hypergraphs: the incidence-list store and its samplers

    A shallow embedding of [ahyper/annotated_hypergraph.py]: the store
    ([AnnotatedHypergraph]), its sort-key tracking, the maintenance
    operations, the degeneracy-avoiding and stub-labeled Markov chains,
    stub matching and the weighted projection.

    Conventions of the embedding.
    - Node ids, edge ids and role labels are Python integers, modelled as [Z].
    - Python lists are Rocq lists; a Python [dict] is an association list in
      insertion order ([dict_get], [dict_set]).
    - An operation that mutates [self] is a function from store to store; an
      operation that can raise returns [option] or a result type.
    - Calls to the random source are replaced by an explicit list of draws. *)

From Stdlib Require Import ZArith List String Lia.
From Stdlib Require Reals Lra.
From stdpp Require Import base list gmap sorting strings.

Open Scope Z_scope.

(** ** Incidence records *)

(** Modelled from the spec: [NodeEdgeIncidence] is declared in [ahyper/utils.py],
    which is not among the sources; the spec gives its fields
    [(node_id, role, edge_id, metadata)] and the calls in this file give the
    positional order [NodeEdgeIncidence(nid, role, eid, meta)]. *)
Record NodeEdgeIncidence : Type := mkInc {
  nid : Z;
  role : Z;
  eid : Z;
  meta : option Z
}.

#[global] Instance NodeEdgeIncidence_eq_dec : EqDecision NodeEdgeIncidence.
Proof. solve_decision. Defined.

(** The three attributes a sort or a relabel may name. *)
Inductive field : Type := Fnid | Feid | Frole.

Definition field_name (f : field) : string :=
  match f with Fnid => "nid" | Feid => "eid" | Frole => "role" end.

(** [getattr(x, b)] / [x[field]] *)
Definition getattr (x : NodeEdgeIncidence) (f : field) : Z :=
  match f with Fnid => nid x | Feid => eid x | Frole => role x end.

(** [e[field] = j] *)
Definition setattr (x : NodeEdgeIncidence) (f : field) (j : Z) : NodeEdgeIncidence :=
  match f with
  | Fnid => mkInc j (role x) (eid x) (meta x)
  | Feid => mkInc (nid x) (role x) j (meta x)
  | Frole => mkInc (nid x) j (eid x) (meta x)
  end.

(** ** Python's stable sort, on keys that are lists of integers *)

(** Python compares lists lexicographically; a scalar key [k] is the
    one-element key [[k]]. *)
Fixpoint lex_le (a b : list Z) : bool :=
  match a, b with
  | [], _ => true
  | _ :: _, [] => false
  | x :: a', y :: b' => (x <? y) || ((x =? y) && lex_le a' b')
  end.

Section PySort.
Context {A : Type} (key : A → list Z).

Fixpoint sort_insert (x : A) (l : list A) : list A :=
  match l with
  | [] => [x]
  | y :: l' => if lex_le (key x) (key y) then x :: y :: l' else y :: sort_insert x l'
  end.

(** A stable ascending sort: an element is placed before the elements that
    followed it and have an equal key. *)
Fixpoint stable_sort (l : list A) : list A :=
  match l with
  | [] => []
  | x :: l' => sort_insert x (stable_sort l')
  end.

(** [list.sort(key=..., reverse=...)]: with [reverse] the list is reversed,
    sorted and reversed again, which keeps equal elements in their order. *)
Definition py_sort (reverse : bool) (l : list A) : list A :=
  if reverse then rev (stable_sort (rev l)) else stable_sort l.

(** The order of the sort, on the elements. *)
Definition key_le (x y : A) : Prop := lex_le (key x) (key y) = true.
End PySort.

(** [np.unique] on a list of integers of the [int64] range: the sorted
    distinct values. (numpy turns a list that mixes a negative integer with
    one from [2^63] on into [float64]; what is stated about state recomputed
    from arbitrary ids takes the ids from the [int64] range, see
    [int64_ids].) *)
Definition np_unique (l : list Z) : list Z :=
  remove_dups (stable_sort (λ z, [z]) l).

(** ** Python dictionaries, in insertion order *)

Definition dict (V : Type) : Type := list (Z * V).

Fixpoint dict_get {V} (d : dict V) (k : Z) : option V :=
  match d with
  | [] => None
  | (k', v) :: d' => if decide (k' = k) then Some v else dict_get d' k
  end.

(** [d[k] = v]: an existing key keeps its position, a new key goes last. *)
Fixpoint dict_set {V} (d : dict V) (k : Z) (v : V) : dict V :=
  match d with
  | [] => [(k, v)]
  | (k', v') :: d' => if decide (k' = k) then (k, v) :: d' else (k', v') :: dict_set d' k v
  end.

(** [{k: v for k, v in items}] *)
Definition dict_of_items {V} (items : list (Z * V)) : dict V :=
  foldl (λ d kv, dict_set d kv.1 kv.2) [] items.

Definition dict_keys {V} (d : dict V) : list Z := d.*1.
Definition dict_values {V} (d : dict V) : list V := d.*2.

(** [Counter(l)]: each value with its number of occurrences. *)
Definition Counter (l : list Z) : dict nat :=
  foldl (λ d x, dict_set d x (S (default 0%nat (dict_get d x)))) [] l.

(** Reading a [Counter] gives 0 for a missing key. *)
Definition counter_get (c : dict nat) (k : Z) : nat := default 0%nat (dict_get c k).

(** Modelled from the spec: [groupby] reaches this file through
    [from .utils import *] and [ahyper/utils.py] is not among the sources; it is
    [itertools.groupby], which the spec uses to "group incidences by edge_id":
    the maximal runs of consecutive elements with equal key, in order. *)
Fixpoint groupby {A} (f : A → Z) (l : list A) : list (Z * list A) :=
  match l with
  | [] => []
  | x :: l' =>
      match groupby f l' with
      | (k, g) :: gs =>
          if decide (f x = k) then (k, x :: g) :: gs else (f x, [x]) :: (k, g) :: gs
      | [] => [(f x, [x])]
      end
  end.

(** ** The store *)

(** A numpy 2-d array: its shape and its entries. *)
Record Matrix (W : Type) : Type := mkMatrix {
  shape0 : nat;
  shape1 : nat;
  entry : nat → nat → W
}.
Arguments mkMatrix {W} _ _ _.
Arguments shape0 {W} _.
Arguments shape1 {W} _.
Arguments entry {W} _ _ _.

(** The attributes of an [AnnotatedHypergraph] object. [W] is the type of the
    entries of the role-interaction matrix. *)
Record AnnotatedHypergraph (W : Type) : Type := mkAH {
  IL : list NodeEdgeIncidence;
  roles : list Z;
  node_list : list Z;
  edge_list : list Z;
  n : nat;
  m : nat;
  R : option (Matrix W);
  sort_key : option string
}.
Arguments mkAH {W} _ _ _ _ _ _ _ _.
Arguments IL {W} _.
Arguments roles {W} _.
Arguments node_list {W} _.
Arguments edge_list {W} _.
Arguments n {W} _.
Arguments m {W} _.
Arguments R {W} _.
Arguments sort_key {W} _.

Definition with_IL {W} (s : AnnotatedHypergraph W) (il : list NodeEdgeIncidence)
  : AnnotatedHypergraph W :=
  mkAH il (roles s) (node_list s) (edge_list s) (n s) (m s) (R s) (sort_key s).

Definition with_R {W} (s : AnnotatedHypergraph W) (r : option (Matrix W))
  : AnnotatedHypergraph W :=
  mkAH (IL s) (roles s) (node_list s) (edge_list s) (n s) (m s) r (sort_key s).

Definition with_sort_key {W} (s : AnnotatedHypergraph W) (k : option string)
  : AnnotatedHypergraph W :=
  mkAH (IL s) (roles s) (node_list s) (edge_list s) (n s) (m s) (R s) k.

(** [set_states]: recompute the derived state, forget [R] and the sort key. *)
Definition set_states {W} (s : AnnotatedHypergraph W) : AnnotatedHypergraph W :=
  let node_list' := np_unique (map nid (IL s)) in
  let edge_list' := np_unique (map eid (IL s)) in
  mkAH (IL s) (roles s) node_list' edge_list'
       (length node_list') (length edge_list') None None.

(** The name a sort key is tracked under: ["_".join(by)]. *)
Definition sort_key_of (by_ : list field) : string :=
  String.concat "_" (map field_name by_).

(** The test [self.sort_key == sort_key] of [sort]. *)
Definition sort_skips {W} (by_ : list field) (s : AnnotatedHypergraph W) : bool :=
  bool_decide (sort_key s = Some (sort_key_of by_)).

(** [sort(by, reverse)]; a single name [by="eid"] is the list [[Feid]]. *)
Definition sort {W} (by_ : list field) (reverse : bool) (s : AnnotatedHypergraph W)
  : AnnotatedHypergraph W :=
  if sort_skips by_ s then s
  else with_IL s (py_sort (λ x, map (getattr x) by_) reverse (IL s)).

(** [__init__(IL, roles)] *)
Definition init {W} (il : list NodeEdgeIncidence) (rs : list Z) : AnnotatedHypergraph W :=
  sort [Feid] false (set_states (mkAH il rs [] [] 0%nat 0%nat None None)).

(** [get_IL]: a copy sorted by edge id, descending. *)
Definition get_IL {W} (s : AnnotatedHypergraph W) : list NodeEdgeIncidence :=
  py_sort (λ x, [eid x]) true (IL s).

(** ** Aggregation *)

(** [edge_dimensions()], [by_role=False]: the store is first sorted by role. *)
Definition edge_dimensions {W} (s : AnnotatedHypergraph W)
  : AnnotatedHypergraph W * dict nat :=
  let s1 := sort [Frole] false s in
  (s1, Counter (map eid (IL s1))).

(** [edge_dimensions(by_role=True)]: [br[role]] raises [KeyError] ([None]) for
    a declared role that no incidence holds. *)
Definition edge_dimensions_by_role {W} (s : AnnotatedHypergraph W)
  : AnnotatedHypergraph W * option (dict (dict nat)) :=
  let s1 := sort [Frole] false s in
  let br := dict_of_items (groupby role (IL s1)) in
  (s1,
   DT_items ← mapM (λ r, g ← dict_get br r; Some (r, Counter (map eid g))) (roles s1);
   let DT := dict_of_items DT_items in
   Some (dict_of_items
           (map (λ k, (k, dict_of_items
                            (map (λ r, (r, counter_get (default [] (dict_get DT r)) k))
                                 (roles s1))))
                (edge_list s1)))).

(** ** Degeneracy *)

(** [check_degenerate(E)]: [len(set(nids)) != len(E)]. *)
Definition check_degenerate (E : list NodeEdgeIncidence) : bool :=
  bool_decide (size (list_to_set (map nid E) : gset Z) ≠ length E).

(** [count_degeneracies]: [sum] counts the [True] entries. *)
Definition count_degeneracies {W} (s : AnnotatedHypergraph W)
  : AnnotatedHypergraph W * nat :=
  let s1 := sort [Feid] false s in
  let by_edges := map snd (groupby eid (IL s1)) in
  (s1, length (filter (λ E, check_degenerate E = true) by_edges)).

(** ** Maintenance *)

(** The loop of [relabel_by_field], with its counters [j] and [old]. *)
Fixpoint relabel_loop (f : field) (D : list NodeEdgeIncidence) (j old : Z)
  : list NodeEdgeIncidence :=
  match D with
  | [] => []
  | e :: D' =>
      let old' := if decide (getattr e f ≠ old) then getattr e f else old in
      let j' := if decide (getattr e f ≠ old) then j + 1 else j in
      setattr e f j' :: relabel_loop f D' j' old'
  end.

Definition relabel_by_field (D : list NodeEdgeIncidence) (f : field)
  : list NodeEdgeIncidence :=
  relabel_loop f (py_sort (λ x, [getattr x f]) false D) 0 0.

(** [relabel] *)
Definition relabel {W} (s : AnnotatedHypergraph W) : AnnotatedHypergraph W :=
  let D := relabel_by_field (IL s) Feid in
  let D := relabel_by_field D Fnid in
  set_states (with_IL s D).

(** [list.remove(e)]: drop the first element equal to [e]. *)
Fixpoint list_remove (e : NodeEdgeIncidence) (l : list NodeEdgeIncidence)
  : list NodeEdgeIncidence :=
  match l with
  | [] => []
  | x :: l' => if decide (x = e) then l' else x :: list_remove e l'
  end.

(** [remove_singletons]; also gives the count it prints. *)
Definition remove_singletons {W} (s : AnnotatedHypergraph W)
  : AnnotatedHypergraph W * nat :=
  let '(s1, D) := edge_dimensions s in
  let to_remove := filter (λ e, counter_get D (eid e) = 1%nat) (IL s1) in
  let k_removed := length to_remove in
  let il := foldl (λ il e, list_remove e il) (IL s1) to_remove in
  (set_states (relabel (with_IL s1 il)), k_removed).

(** The inner loop of [remove_degeneracies]: keep the first incidence of each
    node id. *)
Definition dedupe_edge (E : list NodeEdgeIncidence) : list NodeEdgeIncidence :=
  foldl (λ E_ e, if decide (nid e ∈ map nid E_) then E_ else E_ ++ [e]) [] E.

(** [remove_degeneracies(precedence)]; [precedence[x.role]] raises [KeyError]
    ([None]) for a role outside the dictionary. Also gives the count it prints. *)
Definition remove_degeneracies {W} (precedence : dict Z) (s : AnnotatedHypergraph W)
  : option (AnnotatedHypergraph W * Z) :=
  keyed ← mapM (λ x, p ← dict_get precedence (role x); Some ([eid x; nid x; p], x)) (IL s);
  let il := map snd (py_sort fst false keyed) in
  let s1 := with_sort_key (with_IL s il) (Some "custom"%string) in
  let grouped := map snd (groupby eid (IL s1)) in
  let IL_ := concat (map dedupe_edge grouped) in
  let n_removed := Z.of_nat (length (IL s1)) - Z.of_nat (length IL_) in
  let s2 := with_IL s1 (py_sort (λ x, [role x]) false IL_) in
  Some (relabel s2, n_removed).

(** ** The degeneracy-avoiding sampler *)

(** What one pass through the body of the [while] loop needs from the random
    source: the raw values behind [i], [j], [k] and [l]. *)
Record draw : Type := mkDraw { raw_i : nat; raw_j : nat; raw_k : nat; raw_l : nat }.

(** [np.random.randint(0, hi)]: some integer of [[0, hi)], here the raw value
    reduced modulo [hi] (every integer of the range is the image of itself);
    [ValueError] ([None]) when the range is empty. *)
Definition randint (hi raw : nat) : option nat :=
  if decide (hi = 0%nat) then None else Some (raw mod hi)%nat.

Inductive error : Type := KeyError | ValueError | IndexError.

(** The three ways one pass through the loop body ends. *)
Inductive outcome : Type :=
  | Accepted (edges' : dict (list NodeEdgeIncidence))
  | Rejected
  | Raised (e : error).

(** The proposal for slot [k] of [E0]: the node id of [E1[l]] in the slot of
    [E0[k]]. *)
Definition proposal (E0 : list NodeEdgeIncidence) (k : nat) (a b : NodeEdgeIncidence)
  : list NodeEdgeIncidence :=
  <[k := mkInc (nid b) (role a) (eid a) (meta a)]> E0.

(** One pass through the body of the [while] loop. *)
Definition attempt (m_ : nat) (role_labels : bool) (d : draw)
    (edges : dict (list NodeEdgeIncidence)) : outcome :=
  match randint m_ (raw_i d), randint m_ (raw_j d) with
  | Some i, Some j =>
      match dict_get edges (Z.of_nat i), dict_get edges (Z.of_nat j) with
      | Some E0, Some E1 =>
          match randint (length E0) (raw_k d), randint (length E1) (raw_l d) with
          | Some k, Some l =>
              match E0 !! k, E1 !! l with
              | Some a, Some b =>
                  if role_labels && bool_decide (role a ≠ role b) then Rejected
                  else
                    let E0_prop := proposal E0 k a b in
                    let E1_prop := proposal E1 l b a in
                    if check_degenerate E0_prop || check_degenerate E1_prop
                    then Rejected
                    else Accepted (dict_set (dict_set edges (Z.of_nat i) E0_prop)
                                            (Z.of_nat j) E1_prop)
              | _, _ => Raised IndexError
              end
          | _, _ => Raised ValueError
          end
      | _, _ => Raised KeyError
      end
  | _, _ => Raised ValueError
  end.

(** How a run of the loop over a finite list of draws ends: the loop condition
    failed ([Finished]), an exception left the loop ([Failed]), or the draws
    ran out with the loop still running ([Exhausted]). Each carries the
    dictionary [edges] and the counters [N] and [k_rejected] at that point. *)
Inductive run_end : Type :=
  | Finished (edges : dict (list NodeEdgeIncidence)) (N k_rejected : Z)
  | Exhausted (edges : dict (list NodeEdgeIncidence)) (N k_rejected : Z)
  | Failed (e : error) (edges : dict (list NodeEdgeIncidence)) (N k_rejected : Z).

(** [while N < n_steps: ...] *)
Fixpoint mcmc_loop (m_ : nat) (role_labels : bool) (n_steps : Z) (draws : list draw)
    (edges : dict (list NodeEdgeIncidence)) (N k_rejected : Z) : run_end :=
  if decide (N < n_steps) then
    match draws with
    | [] => Exhausted edges N k_rejected
    | d :: draws' =>
        match attempt m_ role_labels d edges with
        | Accepted edges' =>
            mcmc_loop m_ role_labels n_steps draws' edges' (N + 1) k_rejected
        | Rejected =>
            mcmc_loop m_ role_labels n_steps draws' edges N (k_rejected + 1)
        | Raised e => Failed e edges N k_rejected
        end
    end
  else Finished edges N k_rejected.

(** The dictionary [edges] the sampler starts from. *)
Definition edges_of {W} (s : AnnotatedHypergraph W) : dict (list NodeEdgeIncidence) :=
  dict_of_items (groupby eid (IL (sort [Feid; Frole] false s))).

(** [[e for E in edges for e in edges[E]]] *)
Definition flatten (edges : dict (list NodeEdgeIncidence)) : list NodeEdgeIncidence :=
  concat (dict_values edges).

Definition run_edges (r : run_end) : dict (list NodeEdgeIncidence) :=
  match r with
  | Finished e _ _ | Exhausted e _ _ | Failed _ e _ _ => e
  end.

Definition run_N (r : run_end) : Z :=
  match r with Finished _ k _ | Exhausted _ k _ | Failed _ _ k _ => k end.

Definition run_rejected (r : run_end) : Z :=
  match r with Finished _ _ k | Exhausted _ _ k | Failed _ _ _ k => k end.

(** The run of the loop of [_degeneracy_avoiding_MCMC] on a store. *)
Definition degeneracy_avoiding_run {W} (n_steps : Z) (role_labels : bool)
    (draws : list draw) (s : AnnotatedHypergraph W) : run_end :=
  mcmc_loop (m s) role_labels n_steps draws (edges_of s) 0 0.

(** [_degeneracy_avoiding_MCMC(n_steps, role_labels)]: the store it leaves.
    [self.IL] is replaced only when the loop finishes; when the loop is left
    otherwise the store keeps the sorted incidence list. *)
Definition _degeneracy_avoiding_MCMC {W} (n_steps : Z) (role_labels : bool)
    (draws : list draw) (s : AnnotatedHypergraph W) : AnnotatedHypergraph W :=
  let s1 := sort [Feid; Frole] false s in
  match degeneracy_avoiding_run n_steps role_labels draws s with
  | Finished edges _ _ => with_IL s1 (flatten edges)
  | _ => s1
  end.

(** The node ids holding role [r], with multiplicity. *)
Definition role_nodes (r : Z) (il : list NodeEdgeIncidence) : list Z :=
  map nid (filter (λ e, role e = r) il).

(** The [(node, role)] pairs and the [(role, edge, metadata)] slots of an
    incidence list. *)
Definition stub_of (e : NodeEdgeIncidence) : Z * Z := (nid e, role e).
Definition slot_of (e : NodeEdgeIncidence) : Z * Z * option Z := (role e, eid e, meta e).

(** The number of degenerate edges of the sampler's dictionary. *)
Definition degenerate_edges (edges : dict (list NodeEdgeIncidence)) : nat :=
  length (filter (λ E, check_degenerate E = true) (dict_values edges)).

(** ** Stub matching *)

(** [foldl] for a step that can raise. *)
Fixpoint foldlM {A B} (f : B → A → option B) (b : B) (l : list A) : option B :=
  match l with
  | [] => Some b
  | x :: l' => b' ← f b x; foldlM f b' l'
  end.

(** [for i in range(k): to_add = stubs[r].pop(0); IL_.append(...)]; [KeyError]
    for a role without stubs and [IndexError] for an empty list are [None]. *)
Fixpoint pop_stubs (e r : Z) (k : nat) (acc : list NodeEdgeIncidence * dict (list (Z * Z)))
  : option (list NodeEdgeIncidence * dict (list (Z * Z))) :=
  match k with
  | O => Some acc
  | S k' =>
      l ← dict_get acc.2 r;
      match l with
      | [] => None
      | to_add :: l' =>
          pop_stubs e r k'
            (acc.1 ++ [mkInc to_add.1 to_add.2 e None], dict_set acc.2 r l')
      end
  end.

(** [for r in self.roles: for i in range(dims[e][r]): ...] *)
Definition fill_edge (dims : dict (dict nat)) (rs : list Z)
    (acc : list NodeEdgeIncidence * dict (list (Z * Z))) (e : Z)
  : option (list NodeEdgeIncidence * dict (list (Z * Z))) :=
  foldlM (λ acc r, de ← dict_get dims e; k ← dict_get de r; pop_stubs e r k acc) acc rs.

Section StubMatching.
Context {W : Type}.
(** [random.shuffle]: it rearranges the list it is given. *)
Variable shuffle : list (Z * Z) → list (Z * Z).

(** [stub_matching]: the store [self] is left in, and the new store (or
    [None] when an exception is raised). *)
Definition stub_matching (s : AnnotatedHypergraph W)
  : AnnotatedHypergraph W * option (AnnotatedHypergraph W) :=
  let '(s1, odims) := edge_dimensions_by_role s in
  (s1,
   dims ← odims;
   let stubs := map stub_of (IL s1) in
   let stubs := shuffle stubs in
   let stubs := py_sort (λ e, [e.2]) false stubs in
   let stubs := dict_of_items (groupby snd stubs) in
   filled ← foldlM (fill_edge dims (roles s1)) ([], stubs) (dict_keys dims);
   Some (set_states (with_IL s1 filled.1))).
End StubMatching.

(** ** The weighted projection *)

(** [itertools.permutations(edge, 2)]: the ordered pairs of elements at two
    different positions, in the order of the positions. *)
Definition permutations2 {A} (l : list A) : list (A * A) :=
  mjoin (imap (λ i a, mjoin (imap (λ j b, if decide (i = j) then [] else [(a, b)]) l)) l).

Section Projection.
Context {W : Type} (wzero wone : W) (wadd : W → W → W).

(** [np.ones(shape=(k, k))] *)
Definition ones (k : nat) : Matrix W := mkMatrix k k (λ _ _, wone).

(** [assign_role_interaction_matrix(R)]; a failed [assert] is [None]. *)
Definition assign_role_interaction_matrix (R0 : option (Matrix W))
    (s : AnnotatedHypergraph W) : option (AnnotatedHypergraph W) :=
  let num_roles := length (roles s) in
  match R0 with
  | Some r =>
      if decide (shape0 r = num_roles) then
        if decide (shape1 r = num_roles) then Some (with_R s (Some r)) else None
      else None
  | None => Some (with_R s (Some (ones num_roles)))
  end.

(** [if self.R is None: self.assign_role_interaction_matrix()], the first
    step of [to_weighted_projection] and of [null_expectation_matrix]. *)
Definition ensure_R (s : AnnotatedHypergraph W) : AnnotatedHypergraph W :=
  match R s with
  | Some _ => s
  | None => with_R s (Some (ones (length (roles s))))
  end.

(** The matrix an [ensure_R]'d store holds. *)
Definition matrix_of (s : AnnotatedHypergraph W) : Matrix W :=
  default (ones (length (roles s))) (R s).

(** Reading [weighted_edges[u][v]], a [defaultdict] of [defaultdict]s with
    default [0.0]. *)
Definition weight_of (we : dict (dict W)) (u v : Z) : W :=
  default wzero (dict_get (default [] (dict_get we u)) v).

(** [weighted_edges[u][v] += w] *)
Definition weighted_add (we : dict (dict W)) (u v : Z) (w : W) : dict (dict W) :=
  let inner := default [] (dict_get we u) in
  dict_set we u (dict_set inner v (wadd (default wzero (dict_get inner v)) w)).

(** [{role: ix for ix, role in enumerate(self.roles)}] *)
Definition role_map_of (rs : list Z) : dict nat :=
  dict_of_items (imap (λ ix r, (r, ix)) rs).

(** The body of the inner loop; [role_map[...]] can raise [KeyError]. *)
Definition project_pair (Rm : Matrix W) (role_map : dict nat)
    (we : dict (dict W)) (ab : NodeEdgeIncidence * NodeEdgeIncidence)
  : option (dict (dict W)) :=
  ia ← dict_get role_map (role ab.1);
  ib ← dict_get role_map (role ab.2);
  Some (weighted_add we (nid ab.1) (nid ab.2) (entry Rm ia ib)).

(** The pairs the two nested loops visit, in order. *)
Definition projection_pairs (s : AnnotatedHypergraph W)
  : list (NodeEdgeIncidence * NodeEdgeIncidence) :=
  concat (map (λ g, permutations2 g.2) (groupby eid (get_IL s))).

(** What [to_weighted_projection] returns in the formats computed here. *)
Inductive projection : Type :=
  | AsDict (weighted_edges : dict (dict W))
  | AsMatrix (M : Matrix W)
  | AsGraph (weighted_edges : dict (dict W)).

(** [to_weighted_projection(use_networkx, use_graphtool, as_matrix)]: the
    store it leaves ([R] may have been set) and what it returns, [None] for
    an exception. With an external graph library requested, the nested
    mapping is what is handed over. *)
Definition to_weighted_projection (use_networkx use_graphtool as_matrix : bool)
    (s : AnnotatedHypergraph W) : AnnotatedHypergraph W * option projection :=
  if decide (1 < length (filter (λ b, b = true) [use_networkx; use_graphtool; as_matrix]))%nat
  then (s, None)
  else
    let role_map := role_map_of (roles s) in
    let s1 := ensure_R s in
    (s1,
     we ← foldlM (project_pair (matrix_of s1) role_map) [] (projection_pairs s1);
     if as_matrix then
       Some (AsMatrix (mkMatrix (n s1) (n s1)
               (λ i j, weight_of we (default 0 (node_list s1 !! i))
                                    (default 0 (node_list s1 !! j)))))
     else if use_networkx || use_graphtool then Some (AsGraph we)
     else Some (AsDict we)).
End Projection.

(** ** The stub-labeled sampler *)

(** [bipartite_edge_swap(e0, e1)] *)
Definition bipartite_edge_swap (e0 e1 : NodeEdgeIncidence)
  : NodeEdgeIncidence * NodeEdgeIncidence :=
  let f0 := mkInc (nid e0) (role e1) (eid e1) (meta e1) in
  let f1 := mkInc (nid e1) (role e0) (eid e0) (meta e0) in
  (f1, f0).

(** [swap_step(il)] over a list of raw draws for [(i, j)]: pairs are drawn
    until the two incidences lie in different edges. [None] stands for an
    exception or for the draws running out. *)
Fixpoint swap_step (il : list NodeEdgeIncidence) (draws : list (nat * nat))
  : option (list NodeEdgeIncidence * list (nat * nat)) :=
  match draws with
  | [] => None
  | (ri, rj) :: draws' =>
      i ← randint (length il) ri;
      j ← randint (length il) rj;
      a ← il !! i;
      b ← il !! j;
      if decide (eid a = eid b) then swap_step il draws'
      else
        let fs := bipartite_edge_swap a b in
        Some (<[j := fs.2]> (<[i := fs.1]> il), draws')
  end.

(** [for k in range(c): swap_step(il)] *)
Fixpoint swap_steps (c : nat) (il : list NodeEdgeIncidence) (draws : list (nat * nat))
  : option (list NodeEdgeIncidence * list (nat * nat)) :=
  match c with
  | O => Some (il, draws)
  | S c' => r ← swap_step il draws; swap_steps c' r.1 r.2
  end.

(** [for i in range(len(self.roles)): for k in range(steps[i]): ...], with the
    partitions and the step counts walked together; a missing partition or
    step count is an [IndexError]. *)
Fixpoint swap_partitions (n_roles : nat) (by_role : list (list NodeEdgeIncidence))
    (steps : list Z) (draws : list (nat * nat))
  : option (list (list NodeEdgeIncidence)) :=
  match n_roles with
  | O => Some by_role
  | S n' =>
      match by_role, steps with
      | il :: by_role', c :: steps' =>
          r ← swap_steps (Z.to_nat c) il draws;
          rest ← swap_partitions n' by_role' steps' r.2;
          Some (r.1 :: rest)
      | _, _ => None
      end
  end.

Module StubLabeled.
Import Reals.
Local Open Scope R_scope.

(** [.astype(int)]: truncation towards zero. *)
Definition astype_int (x : R) : Z :=
  if Rle_dec 0 x then Int_part x else (- Int_part (- x))%Z.

(** [np.log(N).sum()] *)
Definition log_sum (N : list nat) : R :=
  fold_right Rplus 0 (map (λ k, ln (INR k)) N).

(** [((N * np.log(N)) / (N * np.log(N).sum()) * n_steps).astype(int)], with
    floating-point numbers read as real numbers. *)
Definition steps_of (N : list nat) (n_steps : Z) : list Z :=
  map (λ k, astype_int ((INR k * ln (INR k)) / (INR k * log_sum N) * IZR n_steps)) N.

(** The budget the specification words: the integer part of
    [n_steps * N_i log N_i / sum_j (N_j log N_j)]. *)
Definition coupon_collector_steps (N : list nat) (n_steps : Z) : list Z :=
  map (λ k, astype_int
              (IZR n_steps * (INR k * ln (INR k))
               / fold_right Rplus 0 (map (λ j, INR j * ln (INR j)) N))) N.

(** [_stub_labeled_MCMC(n_steps)] *)
Definition _stub_labeled_MCMC {W} (n_steps : Z) (draws : list (nat * nat))
    (s : AnnotatedHypergraph W) : option (AnnotatedHypergraph W) :=
  let s1 := sort [Frole] false s in
  let by_role := map snd (groupby role (IL s1)) in
  let N := map (@length _) by_role in
  let steps := steps_of N n_steps in
  by_role' ← swap_partitions (length (roles s1)) by_role steps draws;
  Some (with_IL s1 (concat by_role')).
End StubLabeled.

(** ** Node degrees and the matrix forms of the aggregates *)

(** [node_degrees()], [by_role=False]: the store is first sorted by role. *)
Definition node_degrees {W} (s : AnnotatedHypergraph W)
  : AnnotatedHypergraph W * dict nat :=
  let s1 := sort [Frole] false s in
  (s1, Counter (map nid (IL s1))).

(** [node_degrees(by_role=True)]: as [edge_dimensions(by_role=True)], over the
    node ids and [node_list]. *)
Definition node_degrees_by_role {W} (s : AnnotatedHypergraph W)
  : AnnotatedHypergraph W * option (dict (dict nat)) :=
  let s1 := sort [Frole] false s in
  let br := dict_of_items (groupby role (IL s1)) in
  (s1,
   DT_items ← mapM (λ r, g ← dict_get br r; Some (r, Counter (map nid g))) (roles s1);
   let DT := dict_of_items DT_items in
   Some (dict_of_items
           (map (λ k, (k, dict_of_items
                            (map (λ r, (r, counter_get (default [] (dict_get DT r)) k))
                                 (roles s1))))
                (node_list s1)))).

(** The [as_matrix] branch of both aggregates:
    [for i in range(rows): for j in ix_map: M[i][j] = D[keys[i]][ix_map[j]]],
    where [ix_map[j]] is the [j]-th role. Reading [keys[i]] past the end and a
    missing dictionary key raise ([None]). *)
Definition by_role_matrix (D : dict (dict nat)) (rows : nat) (keys rs : list Z)
  : option (Matrix nat) :=
  cells ← mapM (λ i, k ← keys !! i; de ← dict_get D k; mapM (λ r, dict_get de r) rs)
             (seq 0 rows);
  Some (mkMatrix rows (length rs) (λ i j, default 0%nat (cells !! i ≫= (.!! j)))).

(** [edge_dimensions(by_role=True, as_matrix=True)] *)
Definition edge_dimensions_matrix {W} (s : AnnotatedHypergraph W)
  : AnnotatedHypergraph W * option (Matrix nat) :=
  let '(s1, oD) := edge_dimensions_by_role s in
  (s1, D ← oD; by_role_matrix D (m s1) (edge_list s1) (roles s1)).

(** [node_degrees(by_role=True, as_matrix=True)] *)
Definition node_degrees_matrix {W} (s : AnnotatedHypergraph W)
  : AnnotatedHypergraph W * option (Matrix nat) :=
  let '(s1, oD) := node_degrees_by_role s in
  (s1, D ← oD; by_role_matrix D (n s1) (node_list s1) (roles s1)).

(** ** The bipartite export *)

(** The list [ebunch] of [to_bipartite_graph] and [bipartite_graph]: one
    triple [(e.nid, -e.eid - 1, e.role)] per incidence of [get_IL()]. *)
Definition ebunch {W} (s : AnnotatedHypergraph W) : list (Z * Z * Z) :=
  map (λ e, (nid e, - eid e - 1, role e)) (get_IL s).

(** [to_bipartite_graph(use_networkx)]: the triples handed to the graph
    library, or [NotImplementedError] ([None]). *)
Definition to_bipartite_graph {W} (use_networkx : bool) (s : AnnotatedHypergraph W)
  : option (list (Z * Z * Z)) :=
  if use_networkx then Some (ebunch s) else None.

(** ** The dispatcher [MCMC] *)

(** How a call of [MCMC] ends: the sampler returned, the sampler did not
    return (an exception inside it, or the draws ran out), or the sampler was
    called with a keyword it does not take ([TypeError], before its body). *)
Inductive mcmc_outcome (W : Type) : Type :=
  | Completed (s : AnnotatedHypergraph W)
  | NotCompleted
  | BadKeyword.
Arguments Completed {W} _.
Arguments NotCompleted {W}.
Arguments BadKeyword {W}.

(** [kwargs.get(name)] on the keyword arguments, a list of names and values. *)
Fixpoint kw_get (kwargs : list (string * bool)) (name : string) : option bool :=
  match kwargs with
  | [] => None
  | (k, v) :: kwargs' => if decide (k = name) then Some v else kw_get kwargs' name
  end.

(** [MCMC(n_steps, avoid_degeneracy, **kwargs)]: [alg(n_steps, **kwargs)].
    [_degeneracy_avoiding_MCMC] takes the keywords [verbose] and
    [role_labels] (default [True]); [_stub_labeled_MCMC] takes none. Each
    sampler has its own list of draws. *)
Definition MCMC {W} (n_steps : Z) (avoid_degeneracy : bool)
    (kwargs : list (string * bool)) (draws : list draw) (swap_draws : list (nat * nat))
    (s : AnnotatedHypergraph W) : mcmc_outcome W :=
  if avoid_degeneracy then
    if forallb (λ kv, bool_decide (kv.1 = "verbose" ∨ kv.1 = "role_labels")%string) kwargs
    then
      let role_labels := default true (kw_get kwargs "role_labels") in
      match degeneracy_avoiding_run n_steps role_labels draws s with
      | Finished _ _ _ => Completed (_degeneracy_avoiding_MCMC n_steps role_labels draws s)
      | _ => NotCompleted
      end
    else BadKeyword
  else
    match kwargs with
    | [] =>
        match StubLabeled._stub_labeled_MCMC n_steps swap_draws s with
        | Some s' => Completed s'
        | None => NotCompleted
        end
    | _ :: _ => BadKeyword
    end.

(** [_MCMC_no_role(avoid_degeneracy, n_steps, verbose)] *)
Definition _MCMC_no_role {W} (avoid_degeneracy : bool) (n_steps : Z) (verbose : bool)
    (draws : list draw) (swap_draws : list (nat * nat)) (s : AnnotatedHypergraph W)
  : mcmc_outcome W :=
  MCMC n_steps avoid_degeneracy [("verbose"%string, verbose); ("role_labels"%string, false)]
    draws swap_draws s.

(** * Notions used in the statements *)

(** ** Stores and incidence lists *)

(** The derived state is the one [set_states] computes from the incidence list. *)
Definition states_current {W} (s : AnnotatedHypergraph W) : Prop :=
  node_list s = np_unique (map nid (IL s)) ∧
  edge_list s = np_unique (map eid (IL s)) ∧
  n s = length (node_list s) ∧
  m s = length (edge_list s).

(** The edge ids are exactly the integers [0 .. m-1]. *)
Definition dense_edge_ids {W} (s : AnnotatedHypergraph W) : Prop :=
  ∀ e, e ∈ map eid (IL s) ↔ 0 ≤ e < Z.of_nat (m s).

(** The incidences a swap writes into the slots of [a] and [b]. *)
Definition swapped_in (a b : NodeEdgeIncidence) : NodeEdgeIncidence :=
  mkInc (nid b) (role a) (eid a) (meta a).

(** What the sampler keeps of an incidence list: the [(node, role)] pairs and
    the [(role, edge, metadata)] slots, with their multiplicities. *)
Definition same_stubs_and_slots (il il' : list NodeEdgeIncidence) : Prop :=
  map stub_of il ≡ₚ map stub_of il' ∧ map slot_of il ≡ₚ map slot_of il'.

(** The count of [count_degeneracies], read off the incidence list: the edge
    ids whose incidences repeat a node id. *)
Definition degenerate_count (il : list NodeEdgeIncidence) : nat :=
  length (filter (λ k, check_degenerate (filter (λ x, eid x = k) il) = true)
            (np_unique (map eid il))).

(** The dictionary of the sampler: keys in increasing order, each with a
    non-empty list of incidences of that edge. *)
Definition well_keyed (d : dict (list NodeEdgeIncidence)) : Prop :=
  StronglySorted Z.lt d.*1 ∧
  Forall (λ kg, kg.2 ≠ [] ∧ Forall (λ x, eid x = kg.1) kg.2) d.

(** ** Edge dimensions and the slots of stub matching *)

(** The number of incidences of edge [k] that hold role [r]. *)
Definition dim (il : list NodeEdgeIncidence) (k r : Z) : nat :=
  length (filter (λ x, eid x = k ∧ role x = r) il).

(** The nested dictionary [edge_dimensions(by_role=True)] builds from counts. *)
Definition dims_dict (rs es : list Z) (c : Z → Z → nat) : dict (dict nat) :=
  dict_of_items (map (λ k, (k, dict_of_items (map (λ r, (r, c k r)) rs))) es).

(** The stubs still waiting for role [r]. *)
Definition avail (st : dict (list (Z * Z))) (r : Z) : list (Z * Z) :=
  default [] (dict_get st r).

(** Each list of the dictionary holds stubs of its own role. *)
Definition stubs_by_role (st : dict (list (Z * Z))) : Prop :=
  ∀ r x, x ∈ avail st r → x.2 = r.

(** The [(edge, role)] slots of an incidence list, in order. *)
Definition slots (il : list NodeEdgeIncidence) : list (Z * Z) :=
  map (λ x, (eid x, role x)) il.

(** The slots the loops over the roles fill for edge [e], given the counts. *)
Definition edge_plan (c : Z → Z → nat) (rs : list Z) (e : Z) : list (Z * Z) :=
  concat (map (λ r, replicate (c e r) (e, r)) rs).

(** The number of slots of role [r] among those of edge [e]. *)
Definition edge_demand (c : Z → Z → nat) (rs : list Z) (e r : Z) : nat :=
  sum_list (map (λ r', if decide (r' = r) then c e r' else 0%nat) rs).

(** The slots the three nested loops fill, and how many of them ask for a
    stub of role [r]. *)
Definition plan (c : Z → Z → nat) (rs es : list Z) : list (Z * Z) :=
  concat (map (edge_plan c rs) es).

Definition demand (c : Z → Z → nat) (rs es : list Z) (r : Z) : nat :=
  sum_list (map (λ e, edge_demand c rs e r) es).

(** ** Weights of the projection *)

(** The index [role_map] gives a role. *)
Definition role_index (rs : list Z) (r : Z) : nat :=
  default 0%nat (dict_get (role_map_of rs) r).


Section ProjectionSpec.
Context {W : Type} (wzero : W) (wadd : W → W → W).

(** The sum of a list of weights. *)
Definition wsum (l : list W) : W := foldr wadd wzero l.

(** The weight from [u] to [v] as the specification words it: the sum, over
    the edges and over the ordered pairs [(a, b)] of different positions of
    the edge with [a.nid = u] and [b.nid = v], of [R[role(a), role(b)]]. *)
Definition projection_weight (Rm : Matrix W) (rs : list Z)
    (il : list NodeEdgeIncidence) (u v : Z) : W :=
  wsum (map (λ e,
          wsum (map (λ ab, entry Rm (role_index rs (role ab.1)) (role_index rs (role ab.2)))
                  (filter (λ ab, nid ab.1 = u ∧ nid ab.2 = v)
                     (permutations2 (filter (λ x, eid x = e) il)))))
         (np_unique (map eid il))).
End ProjectionSpec.

(** The number of incidences of node [v] that hold role [r]. *)
Definition role_degree (il : list NodeEdgeIncidence) (v r : Z) : nat :=
  length (filter (λ x, nid x = v ∧ role x = r) il).

(** The stubs still waiting, over all roles. *)
Definition pool (st : dict (list (Z * Z))) : list (Z * Z) := concat (dict_values st).

(** ** Ids that numpy holds exactly *)

(** The range of [int64], in which [np.unique] keeps integers as they are. *)
Definition in_int64 (z : Z) : Prop := - 2 ^ 63 ≤ z < 2 ^ 63.

Definition int64_ids (il : list NodeEdgeIncidence) : Prop :=
  Forall (λ x, in_int64 (nid x) ∧ in_int64 (eid x)) il.

(** ** The labels of [relabel] *)

(** How many of the distinct values of [l] satisfy [P]. *)
Definition count_distinct (P : Z → Prop) `{!∀ u, Decision (P u)} (l : list Z) : nat :=
  length (filter P (np_unique l)).

(** The label of the smallest value: the counters start at [j = 0] and
    [old = 0], so the smallest value keeps the label 0 when it is 0 and gets
    the label 1 otherwise. *)
Definition first_label (vals : list Z) : Z :=
  if decide (head (np_unique vals) = Some 0) then 0 else 1.

(** The label of the value [v] among the values [vals]: the first label, plus
    the number of distinct values below [v]. *)
Definition label_of (vals : list Z) (v : Z) : Z :=
  first_label vals + Z.of_nat (count_distinct (λ u, u < v) vals).

(** The incidence list sorted by a field, that field renamed by [label_of]. *)
Definition relabelled (f : field) (D : list NodeEdgeIncidence) : list NodeEdgeIncidence :=
  map (λ e, setattr e f (label_of (map (λ x, getattr x f) D) (getattr e f)))
      (stable_sort (λ x, [getattr x f]) D).

(** An incidence with its node id and its edge id renamed. *)
Definition rename (φn φe : Z → Z) (x : NodeEdgeIncidence) : NodeEdgeIncidence :=
  mkInc (φn (nid x)) (role x) (φe (eid x)) (meta x).

(** ** Concrete stores *)

(** Three incidences in two edges, two roles. *)
Definition two_edges : AnnotatedHypergraph Z :=
  init [mkInc 0 0 0 None; mkInc 1 0 1 None; mkInc 2 1 1 None] [0; 1].

(** Four draws: a swap between the two edges, a draw naming one slot twice, a
    role mismatch, and the swap back. *)
Definition four_draws : list draw :=
  [mkDraw 0 1 0 0; mkDraw 1 1 1 1; mkDraw 0 1 0 1; mkDraw 1 0 0 0].

(** A hypergraph whose only edge holds node 1 twice. *)
Definition one_degenerate_edge : AnnotatedHypergraph Z :=
  init [mkInc 1 0 0 None; mkInc 1 1 0 None] [0; 1].

(** Two edges, the one with the smaller id a singleton. *)
Definition singleton_first : AnnotatedHypergraph Z :=
  init [mkInc 0 0 0 None; mkInc 1 0 1 None; mkInc 2 1 1 None] [0; 1].

(** Two incidences of one edge, listed with the higher role first. *)
Definition unsorted_roles : AnnotatedHypergraph Z :=
  init [mkInc 1 1 0 None; mkInc 2 0 0 None] [0; 1].

(** One edge of two different nodes: no two slots can exchange their nodes
    without making the edge degenerate. *)
Definition one_good_edge : AnnotatedHypergraph Z :=
  init [mkInc 1 0 0 None; mkInc 2 1 0 None] [0; 1].

(** A store without incidences. *)
Definition no_edges : AnnotatedHypergraph Z := init [] [0; 1].

(** Two edges whose incidences all hold role 0, with roles 0 and 1 declared. *)
Definition one_role_used : AnnotatedHypergraph Z :=
  init [mkInc 0 0 0 None; mkInc 1 0 1 None] [0; 1].

(** Two edges of two nodes each, one node per role. *)
Definition two_roles_two_edges : AnnotatedHypergraph Z :=
  init [mkInc 0 0 0 None; mkInc 1 0 1 None; mkInc 2 1 0 None; mkInc 3 1 1 None] [0; 1].

(** * Properties *)

(** ** The sort *)

Lemma lex_le_total a b : lex_le a b = false → lex_le b a = true.
Proof.
  revert b; induction a as [|x a IH]; intros [|y b]; simpl; try done.
  intros H. apply orb_false_iff in H as [H1 H2].
  apply Z.ltb_ge in H1.
  destruct (Z.eqb_spec x y) as [->|Hne].
  - simpl in H2. rewrite Z.ltb_irrefl, Z.eqb_refl. simpl. by apply IH.
  - assert ((y <? x) = true) as -> by (apply Z.ltb_lt; lia). done.
Qed.

Lemma lex_le_trans a b c : lex_le a b = true → lex_le b c = true → lex_le a c = true.
Proof.
  revert b c; induction a as [|x a IH]; intros [|y b] [|z c]; simpl; try done.
  intros H1 H2.
  apply orb_true_iff in H1 as [H1|H1]; apply orb_true_iff in H2 as [H2|H2].
  - apply Z.ltb_lt in H1, H2. assert ((x <? z) = true) as -> by (apply Z.ltb_lt; lia). done.
  - apply andb_true_iff in H2 as [H2 _]. apply Z.eqb_eq in H2 as <-. by rewrite H1.
  - apply andb_true_iff in H1 as [H1 _]. apply Z.eqb_eq in H1 as ->. by rewrite H2.
  - apply andb_true_iff in H1 as [H1 H1']. apply andb_true_iff in H2 as [H2 H2'].
    apply Z.eqb_eq in H1 as ->. apply Z.eqb_eq in H2 as ->.
    rewrite Z.eqb_refl, (IH b c) by done. apply orb_true_r.
Qed.

Lemma lex_le_head x a y b : lex_le (x :: a) (y :: b) = true → x ≤ y.
Proof.
  simpl. intros H. apply orb_true_iff in H as [H|H].
  - apply Z.ltb_lt in H. lia.
  - apply andb_true_iff in H as [H _]. apply Z.eqb_eq in H. lia.
Qed.

Section PySortFacts.
Context {A : Type} (key : A → list Z).

Lemma sort_insert_perm x l : sort_insert key x l ≡ₚ x :: l.
Proof.
  induction l as [|y l IH]; simpl; [done|].
  destruct (lex_le (key x) (key y)); [done|].
  rewrite IH. apply Permutation_swap.
Qed.

Lemma stable_sort_perm l : stable_sort key l ≡ₚ l.
Proof.
  induction l as [|x l IH]; simpl; [done|].
  by rewrite sort_insert_perm, IH.
Qed.

Lemma py_sort_perm reverse l : py_sort key reverse l ≡ₚ l.
Proof.
  unfold py_sort. destruct reverse.
  - by rewrite <- Permutation_rev, stable_sort_perm, <- Permutation_rev.
  - apply stable_sort_perm.
Qed.

Lemma sort_insert_sorted x l :
  StronglySorted (key_le key) l → StronglySorted (key_le key) (sort_insert key x l).
Proof.
  induction 1 as [|y l Hl IH Hy]; simpl.
  - repeat constructor.
  - destruct (lex_le (key x) (key y)) eqn:Hxy.
    + constructor; [by constructor|].
      constructor; [done|].
      eapply Forall_impl; [exact Hy|].
      intros z Hz. by eapply lex_le_trans.
    + constructor; [done|].
      rewrite sort_insert_perm. constructor; [|done].
      by apply lex_le_total.
Qed.

Lemma stable_sort_sorted l : StronglySorted (key_le key) (stable_sort key l).
Proof.
  induction l as [|x l IH]; simpl; [constructor|].
  by apply sort_insert_sorted.
Qed.
End PySortFacts.

(** A sort whose key starts with the attribute [f] leaves the list ordered by [f]. *)
Lemma stable_sort_sorted_by {A} (key : A → list Z) (f : A → Z) l :
  (∀ x, ∃ rest, key x = f x :: rest) →
  StronglySorted Z.le (map f (stable_sort key l)).
Proof.
  intros Hkey.
  induction (stable_sort_sorted key l) as [|x l' Hl IH Hx]; simpl; [constructor|].
  constructor; [done|].
  apply Forall_map. eapply Forall_impl; [exact Hx|].
  intros y Hxy. unfold key_le in Hxy.
  destruct (Hkey x) as [rx Hkx], (Hkey y) as [ry Hky].
  rewrite Hkx, Hky in Hxy. by eapply lex_le_head.
Qed.

Lemma map_fmap {A B} (f : A → B) (l : list A) : map f l = f <$> l.
Proof. induction l as [|x l IH]; csimpl; [done|]. by rewrite IH. Qed.

(** ** Dictionaries *)

Section DictFacts.
Context {V : Type}.
Implicit Types (d : dict V) (k : Z) (v : V).

Lemma dict_get_is_Some d k : is_Some (dict_get d k) ↔ k ∈ d.*1.
Proof.
  induction d as [|[k' v'] d IH]; simpl.
  - split; [by intros [? ?]|by intros ?%elem_of_nil].
  - destruct (decide (k' = k)) as [->|Hne].
    + split; [intros _; by left|by eauto].
    + rewrite IH. split; [by right|].
      intros [?|?]%elem_of_cons; [congruence|done].
Qed.

Lemma dict_get_None d k : dict_get d k = None ↔ k ∉ d.*1.
Proof. rewrite <- dict_get_is_Some, eq_None_not_Some. done. Qed.

Lemma dict_get_elem_of d k v : dict_get d k = Some v → (k, v) ∈ d.
Proof.
  induction d as [|[k' v'] d IH]; simpl; [done|].
  destruct (decide (k' = k)) as [->|Hne].
  - intros [= ->]. by left.
  - intros H. right. by apply IH.
Qed.

Lemma dict_get_nodup d k v : NoDup d.*1 → (k, v) ∈ d → dict_get d k = Some v.
Proof.
  induction d as [|[k' v'] d IH]; simpl; [by intros _ ?%elem_of_nil|].
  intros [Hk' Hd]%NoDup_cons [Heq|Hin]%elem_of_cons.
  - injection Heq as -> ->. by rewrite decide_True.
  - destruct (decide (k' = k)) as [->|Hne]; [|by apply IH].
    exfalso. apply Hk'. apply list_elem_of_fmap. by exists (k, v).
Qed.

Lemma dict_get_set_eq d k v : dict_get (dict_set d k v) k = Some v.
Proof.
  induction d as [|[k' v'] d IH]; simpl.
  - by rewrite decide_True.
  - destruct (decide (k' = k)) as [->|Hne]; simpl.
    + by rewrite decide_True.
    + by rewrite decide_False.
Qed.

Lemma dict_get_set_ne d k k' v : k ≠ k' → dict_get (dict_set d k v) k' = dict_get d k'.
Proof.
  intros Hne. induction d as [|[k0 v0] d IH]; simpl.
  - by rewrite decide_False.
  - destruct (decide (k0 = k)) as [->|Hne0]; simpl.
    + by rewrite !decide_False.
    + by rewrite IH.
Qed.

Lemma dict_set_keys d k v : is_Some (dict_get d k) → (dict_set d k v).*1 = d.*1.
Proof.
  induction d as [|[k' v'] d IH]; simpl; [by intros [? ?]|].
  destruct (decide (k' = k)) as [->|Hne]; csimpl; [done|].
  intros H. by rewrite IH.
Qed.

Lemma dict_set_fresh d k v : k ∉ d.*1 → dict_set d k v = d ++ [(k, v)].
Proof.
  induction d as [|[k' v'] d IH]; simpl; [done|].
  intros [Hne Hd]%not_elem_of_cons.
  rewrite decide_False by done. by rewrite IH.
Qed.

Lemma dict_set_keys_elem d k v k' : k' ∈ (dict_set d k v).*1 ↔ k' = k ∨ k' ∈ d.*1.
Proof.
  induction d as [|[k0 v0] d IH]; simpl.
  - rewrite list_elem_of_singleton. split; [by left|]. by intros [?|?%elem_of_nil].
  - destruct (decide (k0 = k)) as [->|Hne]; simpl.
    + rewrite !elem_of_cons. tauto.
    + rewrite !elem_of_cons, IH. tauto.
Qed.

Lemma dict_of_items_app d (items : list (Z * V)) :
  NoDup (d.*1 ++ items.*1) →
  foldl (λ d kv, dict_set d kv.1 kv.2) d items = d ++ items.
Proof.
  revert d. induction items as [|[k v] items IH]; intros d Hnd; simpl.
  - by rewrite app_nil_r.
  - simpl in Hnd. rewrite dict_set_fresh.
    + rewrite IH; [by rewrite <- app_assoc|].
      rewrite fmap_app. simpl. by rewrite <- app_assoc.
    + apply NoDup_app in Hnd as (_ & Hnd & _).
      intros Hk. apply (Hnd k Hk). by left.
Qed.

Lemma dict_of_items_nodup (items : list (Z * V)) :
  NoDup items.*1 → dict_of_items items = items.
Proof. intros H. unfold dict_of_items. by rewrite dict_of_items_app. Qed.

Lemma dict_of_items_keys (items : list (Z * V)) k :
  k ∈ (dict_of_items items).*1 ↔ k ∈ items.*1.
Proof.
  unfold dict_of_items.
  assert (∀ d, k ∈ (foldl (λ d kv, dict_set d kv.1 kv.2) d items).*1
               ↔ k ∈ d.*1 ∨ k ∈ items.*1) as H.
  { induction items as [|[k0 v0] items IH]; intros d; simpl.
    - split; [by left|]. by intros [?|?%elem_of_nil].
    - rewrite IH, dict_set_keys_elem, elem_of_cons. tauto. }
  rewrite H. simpl. split; [|by right]. by intros [?%elem_of_nil|?].
Qed.
End DictFacts.

(** ** Grouping *)

Section GroupFacts.
Context {A : Type} (f : A → Z).

Lemma groupby_concat l : concat (groupby f l).*2 = l.
Proof.
  induction l as [|x l IH]; simpl; [done|].
  destruct (groupby f l) as [|[k g] gs]; simpl in *.
  - by subst.
  - destruct (decide (f x = k)); simpl; by rewrite IH.
Qed.

(** Every group is a non-empty run of elements of its key. *)
Lemma groupby_groups l :
  Forall (λ kg, kg.2 ≠ [] ∧ Forall (λ x, f x = kg.1) kg.2) (groupby f l).
Proof.
  induction l as [|x l IH]; simpl; [constructor|].
  destruct (groupby f l) as [|[k g] gs]; simpl in *.
  - repeat constructor; done.
  - apply Forall_cons in IH as [[Hg1 Hg2] Hgs].
    destruct (decide (f x = k)); simpl.
    + constructor; [|done]. split; [done|]. by constructor.
    + constructor; [by repeat constructor|]. by constructor.
Qed.

Lemma groupby_keys l k : k ∈ (groupby f l).*1 ↔ k ∈ map f l.
Proof.
  induction l as [|x l IH]; simpl; [done|].
  destruct (groupby f l) as [|[k0 g] gs] eqn:Hg; simpl in *.
  - rewrite !elem_of_cons, <- IH. done.
  - destruct (decide (f x = k0)) as [Heq|Hne]; simpl.
    + rewrite !elem_of_cons, <- IH, elem_of_cons. rewrite Heq. tauto.
    + rewrite !elem_of_cons, <- IH, elem_of_cons. tauto.
Qed.

(** On a list ordered by [f] the keys of the groups increase strictly. *)
Lemma groupby_sorted_keys l :
  StronglySorted Z.le (map f l) → StronglySorted Z.lt (groupby f l).*1.
Proof.
  induction l as [|x l IH]; simpl; [constructor|].
  intros [Hl Hx]%StronglySorted_inv. specialize (IH Hl).
  pose proof (groupby_keys l) as Hkeys.
  destruct (groupby f l) as [|[k g] gs]; simpl in *.
  - repeat constructor.
  - assert (∀ k', k' ∈ k :: gs.*1 → f x ≤ k') as Hle.
    { intros k' Hk'. apply Hkeys in Hk'.
      rewrite Forall_forall in Hx. by apply Hx. }
    destruct (decide (f x = k)) as [Heq|Hne]; simpl; [done|].
    constructor; [done|].
    apply StronglySorted_inv in IH as [_ Hk].
    constructor.
    + specialize (Hle k ltac:(by left)). lia.
    + rewrite Forall_forall in Hk |- *. intros k' Hk'.
      specialize (Hk k' Hk'). specialize (Hle k ltac:(by left)). lia.
Qed.

Lemma sorted_lt_NoDup (l : list Z) : StronglySorted Z.lt l → NoDup l.
Proof.
  induction 1 as [|x l Hl IH Hx]; constructor; [|done].
  intros Hin. rewrite Forall_forall in Hx. specialize (Hx x Hin). lia.
Qed.

Lemma groupby_sorted_NoDup l :
  StronglySorted Z.le (map f l) → NoDup (groupby f l).*1.
Proof. intros H. by apply sorted_lt_NoDup, groupby_sorted_keys. Qed.

(** In a family of groups with distinct keys, each holding elements of its
    key only, a group is what [filter] finds in the concatenation. *)
Lemma keyed_groups_filter (gs : list (Z * list A)) k g :
  NoDup gs.*1 →
  Forall (λ kg, Forall (λ x, f x = kg.1) kg.2) gs →
  (k, g) ∈ gs →
  filter (λ x, f x = k) (concat gs.*2) = g.
Proof.
  induction gs as [|[k0 g0] gs IH]; csimpl; [by intros _ _ ?%elem_of_nil|].
  intros [Hk0 Hnd]%NoDup_cons [Hg0 Hgs]%Forall_cons Hin. csimpl in *.
  rewrite filter_app.
  assert (∀ k', k' ∉ gs.*1 → filter (λ x, f x = k') (concat gs.*2) = []) as Hout.
  { intros k' Hk'. clear -Hk' Hgs.
    induction gs as [|[k1 g1] gs IH]; csimpl in *; [done|].
    apply Forall_cons in Hgs as [Hg1 Hgs]. csimpl in *.
    apply not_elem_of_cons in Hk' as [Hne Hk'].
    rewrite filter_app, IH by done. rewrite app_nil_r.
    induction Hg1 as [|y g1 Hy Hg1 IH1]; [done|].
    rewrite filter_cons_False by congruence. done. }
  apply elem_of_cons in Hin as [Heq|Hin].
  - injection Heq as -> ->. rewrite Hout by done. rewrite app_nil_r.
    clear -Hg0. induction Hg0 as [|y g0 Hy Hg0 IH0]; [done|].
    rewrite filter_cons_True by done. by rewrite IH0.
  - rewrite IH by done.
    assert (k0 ≠ k) as Hne.
    { intros ->. apply Hk0. apply list_elem_of_fmap. by exists (k, g). }
    clear -Hg0 Hne. induction Hg0 as [|y g0 Hy Hg0 IH0]; [done|].
    rewrite filter_cons_False by congruence. done.
Qed.
End GroupFacts.

(** ** Sort-key tracking and [set_states] *)

Lemma sort_key_sort {W} by_ reverse (s : AnnotatedHypergraph W) :
  sort_key (sort by_ reverse s) = sort_key s.
Proof. unfold sort. by destruct (sort_skips by_ s). Qed.

Lemma R_sort {W} by_ reverse (s : AnnotatedHypergraph W) :
  R (sort by_ reverse s) = R s.
Proof. unfold sort. by destruct (sort_skips by_ s). Qed.

Lemma roles_sort {W} by_ reverse (s : AnnotatedHypergraph W) :
  roles (sort by_ reverse s) = roles s.
Proof. unfold sort. by destruct (sort_skips by_ s). Qed.

Lemma sort_with_R {W} by_ reverse (s : AnnotatedHypergraph W) r :
  sort by_ reverse (with_R s r) = with_R (sort by_ reverse s) r.
Proof. unfold sort, sort_skips. simpl. by case_bool_decide. Qed.

Lemma IL_sort_perm {W} by_ reverse (s : AnnotatedHypergraph W) :
  IL (sort by_ reverse s) ≡ₚ IL s.
Proof.
  unfold sort. destruct (sort_skips by_ s); [done|]. simpl. apply py_sort_perm.
Qed.

(** [set_states] reads the incidence list and the roles only. *)
Lemma set_states_reads {W} (s t : AnnotatedHypergraph W) :
  IL s = IL t → roles s = roles t → set_states s = set_states t.
Proof. unfold set_states. by intros -> ->. Qed.

(** C5. [sort] tests the tracked sort key and never assigns it: whatever key
    the store is sorted by, the tracked key is what it was before the call.
    On a freshly constructed store the tracked key is therefore still [None]
    after [sort(by=k)], not [k], and a second [sort(by=k)] is not skipped:
    it takes the sorting branch again. *)
Theorem sort_never_records_key {W} (by_ : list field) (reverse : bool) :
  (∀ s : AnnotatedHypergraph W, sort_key (sort by_ reverse s) = sort_key s) ∧
  (∀ il rs,
     let s : AnnotatedHypergraph W := sort by_ reverse (init il rs) in
     sort_key s = None ∧
     sort_key s ≠ Some (sort_key_of by_) ∧
     sort_skips by_ s = false ∧
     sort by_ reverse s = with_IL s (py_sort (λ x, map (getattr x) by_) reverse (IL s))).
Proof.
  split; [intros s; apply sort_key_sort|].
  intros il rs s.
  assert (sort_key s = None) as Hk.
  { unfold s, init. by rewrite !sort_key_sort. }
  assert (sort_skips by_ s = false) as Hs.
  { unfold sort_skips. rewrite Hk. by apply bool_decide_eq_false. }
  split; [done|]. split; [by rewrite Hk|]. split; [done|].
  unfold sort at 1. by rewrite Hs.
Qed.

(** The tracked key on a store of one incidence, after [sort(by="eid")]. *)
Example sort_key_after_sort_eid :
  sort_key (sort [Feid] false (init [mkInc 1 0 0 None] [0] : AnnotatedHypergraph Z)) = None.
Proof. reflexivity. Qed.

(** C9. [set_states] forgets the role-interaction matrix and the tracked sort
    key, and so does every operation that calls it: construction, [relabel],
    [remove_singletons] and [remove_degeneracies]. A matrix assigned with
    [assign_role_interaction_matrix] before such an operation therefore has
    no influence on the store the operation leaves, and the matrix the
    projection (and [null_expectation_matrix], through the same first step)
    then uses is the all-ones default: the projection returns what it
    returns on the store with the all-ones matrix assigned. *)
Theorem set_states_discards_R {W} (wzero wone : W) (wadd : W → W → W)
    (R0 : Matrix W) (s s' : AnnotatedHypergraph W) (precedence : dict Z) :
  assign_role_interaction_matrix wone (Some R0) s = Some s' →
  R s' = Some R0 ∧
  (R (set_states s') = None ∧ sort_key (set_states s') = None) ∧
  (R (relabel s') = None ∧ sort_key (relabel s') = None) ∧
  (R (remove_singletons s').1 = None ∧ sort_key (remove_singletons s').1 = None) ∧
  (∀ t k, remove_degeneracies precedence s' = Some (t, k) →
          R t = None ∧ sort_key t = None) ∧
  (∀ il rs, R (init il rs : AnnotatedHypergraph W) = None ∧
            sort_key (init il rs : AnnotatedHypergraph W) = None) ∧
  (set_states s' = set_states s ∧ relabel s' = relabel s ∧
   remove_singletons s' = remove_singletons s ∧
   remove_degeneracies precedence s' = remove_degeneracies precedence s) ∧
  (∀ t, t = set_states s' ∨ t = relabel s' ∨ t = (remove_singletons s').1 ∨
        (∃ k, remove_degeneracies precedence s' = Some (t, k)) →
        R (ensure_R wone t) = Some (ones wone (length (roles t))) ∧
        matrix_of wone (ensure_R wone t) = ones wone (length (roles t)) ∧
        ∀ use_networkx use_graphtool as_matrix,
          (to_weighted_projection wzero wone wadd use_networkx use_graphtool as_matrix t).2
          = (to_weighted_projection wzero wone wadd use_networkx use_graphtool as_matrix
               (with_R t (Some (ones wone (length (roles t)))))).2).
Proof.
  intros Hassign.
  assert (s' = with_R s (Some R0)) as ->.
  { unfold assign_role_interaction_matrix in Hassign.
    repeat case_decide; congruence. }
  assert (∀ t k, remove_degeneracies precedence (with_R s (Some R0)) = Some (t, k) →
                 R t = None ∧ sort_key t = None) as Hdeg.
  { intros t k. unfold remove_degeneracies.
    destruct (mapM _ _); simpl; [|done]. by intros [= <- _]. }
  assert (∀ t : AnnotatedHypergraph W, R t = None →
            R (ensure_R wone t) = Some (ones wone (length (roles t))) ∧
            matrix_of wone (ensure_R wone t) = ones wone (length (roles t)) ∧
            ∀ un ug am,
              (to_weighted_projection wzero wone wadd un ug am t).2
              = (to_weighted_projection wzero wone wadd un ug am
                   (with_R t (Some (ones wone (length (roles t)))))).2) as Hones.
  { intros t Ht.
    assert (ensure_R wone t = with_R t (Some (ones wone (length (roles t))))) as He.
    { unfold ensure_R. by rewrite Ht. }
    split; [by rewrite He|]. split; [unfold matrix_of; by rewrite He|].
    intros un ug am. unfold to_weighted_projection.
    destruct (decide _); [done|]. by rewrite He. }
  split; [done|].
  split; [done|]. split; [done|].
  split. { unfold remove_singletons, edge_dimensions. done. }
  split; [done|].
  split. { intros il rs. unfold init. by rewrite R_sort, sort_key_sort. }
  split.
  { split; [done|]. split; [done|]. split.
    - unfold remove_singletons, edge_dimensions. rewrite sort_with_R.
      simpl. f_equal.
    - unfold remove_degeneracies. simpl. done. }
  intros t [->|[->|[->|[k Hk]]]]; apply Hones; try done.
  by destruct (Hdeg _ _ Hk).
Qed.

Lemma set_states_discards_R_witness :
  assign_role_interaction_matrix 1 (Some (mkMatrix 2 2 (λ i j, 5))) two_edges
  = Some (with_R two_edges (Some (mkMatrix 2 2 (λ i j, 5)))) ∧
  relabel (with_R two_edges (Some (mkMatrix 2 2 (λ i j, 5)))) = relabel two_edges.
Proof.
  assert (assign_role_interaction_matrix 1 (Some (mkMatrix 2 2 (λ i j, 5))) two_edges
          = Some (with_R two_edges (Some (mkMatrix 2 2 (λ i j, 5))))) as H by reflexivity.
  split; [exact H|].
  pose proof (set_states_discards_R 0 1 Z.add (mkMatrix 2 2 (λ i j, 5)) two_edges _ [] H)
    as T.
  exact (proj1 (proj2 (proj1 (proj2 (proj2 (proj2 (proj2 (proj2 (proj2 T))))))))).
Defined.

(** ** Degenerate edges *)

Lemma length_remove_dups_le (l : list Z) : (length (remove_dups l) ≤ length l)%nat.
Proof.
  induction l as [|x l IH]; simpl; [done|].
  destruct (decide_rel elem_of x l); simpl; lia.
Qed.

Lemma length_remove_dups_NoDup (l : list Z) :
  length (remove_dups l) = length l ↔ NoDup l.
Proof.
  induction l as [|x l IH]; simpl.
  - split; [constructor|done].
  - pose proof (length_remove_dups_le l).
    destruct (decide_rel elem_of x l) as [Hin|Hin]; simpl.
    + split; [lia|]. by intros [? _]%NoDup_cons.
    + rewrite NoDup_cons. split.
      * intros Hlen. split; [done|]. apply IH. lia.
      * intros [_ Hnd]. f_equal. by apply IH.
Qed.

Lemma size_list_to_set_remove_dups (l : list Z) :
  size (list_to_set l : gset Z) = length (remove_dups l).
Proof.
  rewrite <- (size_list_to_set (C := gset Z)) by apply NoDup_remove_dups.
  f_equal. apply set_eq. intros x.
  by rewrite !elem_of_list_to_set, elem_of_remove_dups.
Qed.

(** An edge is not degenerate exactly when its node ids are pairwise distinct. *)
Lemma check_degenerate_false E : check_degenerate E = false ↔ NoDup (map nid E).
Proof.
  unfold check_degenerate.
  rewrite bool_decide_eq_false, size_list_to_set_remove_dups.
  rewrite <- length_remove_dups_NoDup, length_map.
  split; [apply dec_stable|]. by intros ? ?.
Qed.

Lemma check_degenerate_true E : check_degenerate E = true ↔ ¬ NoDup (map nid E).
Proof.
  rewrite <- check_degenerate_false. by destruct (check_degenerate E).
Qed.

(** ** One accepted proposal *)

Lemma insert_exchange {A} (l : list A) k a x :
  l !! k = Some a → a :: <[k:=x]> l ≡ₚ x :: l.
Proof.
  revert k. induction l as [|y l IH]; intros [|k]; simpl; try done.
  - intros [= ->]. apply Permutation_swap.
  - intros Hk. rewrite (Permutation_swap y a), (IH k Hk). apply Permutation_swap.
Qed.

Lemma dict_set_id {V} (d : dict V) k v : dict_get d k = Some v → dict_set d k v = d.
Proof.
  induction d as [|[k0 v0] d IH]; simpl; [done|].
  destruct (decide (k0 = k)) as [->|Hne].
  - by intros [= ->].
  - intros H. by rewrite IH.
Qed.

Lemma dict_set_set {V} (d : dict V) k v v' :
  dict_set (dict_set d k v) k v' = dict_set d k v'.
Proof.
  induction d as [|[k0 v0] d IH]; simpl.
  - by rewrite decide_True.
  - destruct (decide (k0 = k)) as [->|Hne]; simpl.
    + by rewrite decide_True.
    + rewrite decide_False by done. by rewrite IH.
Qed.

Lemma flatten_set_exchange d k v v' :
  dict_get d k = Some v →
  v ++ flatten (dict_set d k v') ≡ₚ v' ++ flatten d.
Proof.
  unfold flatten, dict_values.
  induction d as [|[k0 v0] d IH]; simpl; [done|].
  destruct (decide (k0 = k)) as [->|Hne]; csimpl.
  - intros [= ->]. apply Permutation_app_swap_app.
  - intros H. rewrite Permutation_app_swap_app, (IH H).
    apply Permutation_app_swap_app.
Qed.

(** What an accepted pass through the loop body did. *)
Lemma attempt_accepted m_ rl d edges edges' :
  attempt m_ rl d edges = Accepted edges' →
  ∃ i j E0 E1 k l a b,
    (i < m_)%nat ∧ (j < m_)%nat ∧
    dict_get edges (Z.of_nat i) = Some E0 ∧ dict_get edges (Z.of_nat j) = Some E1 ∧
    E0 !! k = Some a ∧ E1 !! l = Some b ∧
    (rl = true → role a = role b) ∧
    check_degenerate (proposal E0 k a b) = false ∧
    check_degenerate (proposal E1 l b a) = false ∧
    edges' = dict_set (dict_set edges (Z.of_nat i) (proposal E0 k a b))
                      (Z.of_nat j) (proposal E1 l b a).
Proof.
  unfold attempt, randint.
  destruct (decide (m_ = 0%nat)) as [|Hm]; [done|].
  destruct (dict_get edges _) as [E0|] eqn:HE0; [|done].
  destruct (dict_get edges (Z.of_nat (raw_j d mod m_))) as [E1|] eqn:HE1; [|done].
  destruct (decide (length E0 = 0%nat)); [done|].
  destruct (decide (length E1 = 0%nat)); [done|].
  destruct (E0 !! _) as [a|] eqn:Ha; [|done].
  destruct (E1 !! _) as [b|] eqn:Hb; [|done].
  destruct (rl && bool_decide (role a ≠ role b)) eqn:Hrole; [done|].
  destruct (check_degenerate (proposal E0 _ a b)) eqn:Hd0; [done|].
  destruct (check_degenerate (proposal E1 _ b a)) eqn:Hd1; [done|].
  simpl. intros [= <-].
  eexists _, _, E0, E1, _, _, a, b.
  repeat split; try done.
  - apply Nat.mod_upper_bound; done.
  - apply Nat.mod_upper_bound; done.
  - intros ->. simpl in Hrole. apply bool_decide_eq_false in Hrole.
    by apply dec_stable.
Qed.

(** A proposal within one edge is accepted only when it changes nothing. *)
Lemma same_edge_proposal E k l a b :
  E !! k = Some a → E !! l = Some b →
  check_degenerate (proposal E k a b) = false →
  k = l ∧ a = b ∧ proposal E l b a = E.
Proof.
  intros Ha Hb Hnd. apply check_degenerate_false in Hnd.
  destruct (decide (k = l)) as [->|Hne].
  - assert (a = b) as -> by congruence.
    split; [done|]. split; [done|].
    unfold proposal. destruct b. by apply list_insert_id.
  - exfalso. rewrite map_fmap in Hnd.
    apply Hne. eapply (NoDup_lookup _ k l (nid b) Hnd).
    + rewrite list_lookup_fmap. unfold proposal.
      rewrite list_lookup_insert_eq by (by eapply lookup_lt_Some). done.
    + rewrite list_lookup_fmap. unfold proposal.
      rewrite list_lookup_insert_ne by done. by rewrite Hb.
Qed.

(** An accepted step either leaves the dictionary as it is (both draws named
    the same slot) or exchanges the node ids of two slots of different edges. *)
Lemma attempt_accepted_cases m_ rl d edges edges' :
  attempt m_ rl d edges = Accepted edges' →
  (edges' = edges) ∨
  ∃ i j E0 E1 k l a b,
    i ≠ j ∧
    dict_get edges i = Some E0 ∧ dict_get edges j = Some E1 ∧
    E0 !! k = Some a ∧ E1 !! l = Some b ∧
    (rl = true → role a = role b) ∧
    check_degenerate (proposal E0 k a b) = false ∧
    check_degenerate (proposal E1 l b a) = false ∧
    edges' = dict_set (dict_set edges i (proposal E0 k a b)) j (proposal E1 l b a).
Proof.
  intros (i & j & E0 & E1 & k & l & a & b & _ & _ & HE0 & HE1 & Ha & Hb & Hr & Hd0 & Hd1 & ->)
    %attempt_accepted.
  destruct (decide (i = j)) as [->|Hne].
  - left. assert (E1 = E0) as -> by congruence.
    destruct (same_edge_proposal _ _ _ _ _ Ha Hb Hd0) as (-> & -> & ->).
    rewrite dict_set_set. by apply dict_set_id.
  - right. exists (Z.of_nat i), (Z.of_nat j), E0, E1, k, l, a, b.
    repeat split; try done. lia.
Qed.

(** Any reading [F] of the incidences that cannot tell a swapped pair from the
    original pair takes the same values, with the same multiplicities, before
    and after an accepted step. *)
Lemma accepted_preserves {B} (F : NodeEdgeIncidence → B) m_ rl d edges edges' :
  (∀ a b, (rl = true → role a = role b) →
          [F (swapped_in a b); F (swapped_in b a)] ≡ₚ [F a; F b]) →
  attempt m_ rl d edges = Accepted edges' →
  map F (flatten edges') ≡ₚ map F (flatten edges).
Proof.
  intros HF [->|Hswap]%attempt_accepted_cases; [done|].
  destruct Hswap as (i & j & E0 & E1 & k & l & a & b & Hne & HE0 & HE1 & Ha & Hb
                     & Hr & _ & _ & ->).
  unfold proposal. fold (swapped_in a b). fold (swapped_in b a).
  set (E0p := <[k:=swapped_in a b]> E0).
  set (E1p := <[l:=swapped_in b a]> E1).
  set (d1 := dict_set edges i E0p).
  pose proof (flatten_set_exchange edges i E0 E0p HE0) as H1. fold d1 in H1.
  assert (dict_get d1 j = Some E1) as HE1'.
  { unfold d1. by rewrite dict_get_set_ne. }
  pose proof (flatten_set_exchange d1 j E1 E1p HE1') as H2.
  pose proof (insert_exchange E0 k a (swapped_in a b) Ha) as X0. fold E0p in X0.
  pose proof (insert_exchange E1 l b (swapped_in b a) Hb) as X1. fold E1p in X1.
  set (flat' := flatten (dict_set d1 j E1p)) in *.
  assert (a :: b :: E0 ++ E1 ++ flat'
          ≡ₚ swapped_in a b :: swapped_in b a :: E0 ++ E1 ++ flatten edges) as Hall.
  { rewrite H2, (Permutation_app_swap_app E0 E1p), H1.
    rewrite (app_comm_cons E1p _ b), X1. simpl.
    rewrite (Permutation_app_swap_app E1 E0p).
    rewrite (Permutation_swap (swapped_in b a) a).
    rewrite (app_comm_cons E0p _ a), X0. simpl.
    apply Permutation_swap. }
  apply (Permutation_map F) in Hall. simpl in Hall.
  rewrite !map_app in Hall.
  specialize (HF a b Hr).
  apply (Permutation_app_inv_l ([F a; F b] ++ map F E0 ++ map F E1)).
  rewrite <- HF at 2. simpl. rewrite <- !app_assoc. exact Hall.
Qed.

Lemma degenerate_edges_set d k v :
  check_degenerate v = false →
  (degenerate_edges (dict_set d k v) ≤ degenerate_edges d)%nat.
Proof.
  intros Hv. unfold degenerate_edges, dict_values.
  induction d as [|[k0 v0] d IH]; csimpl.
  - rewrite filter_cons_False by (by rewrite Hv). done.
  - destruct (decide (k0 = k)) as [->|Hne]; csimpl.
    + rewrite (filter_cons_False _ v) by (by rewrite Hv).
      rewrite filter_cons. destruct (decide _); simpl; lia.
    + rewrite !filter_cons. destruct (decide _); simpl; lia.
Qed.

(** An accepted step leaves no more degenerate edges than there were, and the
    two edges it names are not degenerate afterwards. *)
Lemma accepted_degenerate m_ rl d edges edges' :
  attempt m_ rl d edges = Accepted edges' →
  (degenerate_edges edges' ≤ degenerate_edges edges)%nat.
Proof.
  intros [->|Hswap]%attempt_accepted_cases; [done|].
  destruct Hswap as (i & j & E0 & E1 & k & l & a & b & _ & _ & _ & _ & _ & _
                     & Hd0 & Hd1 & ->).
  etrans; [by apply degenerate_edges_set|]. by apply degenerate_edges_set.
Qed.

Lemma accepted_keys m_ rl d edges edges' :
  attempt m_ rl d edges = Accepted edges' → edges'.*1 = edges.*1.
Proof.
  intros (i & j & E0 & E1 & k & l & a & b & _ & _ & HE0 & HE1 & _ & _ & _ & _ & _ & ->)
    %attempt_accepted.
  rewrite dict_set_keys.
  - rewrite dict_set_keys; [done|]. by rewrite HE0.
  - apply dict_get_is_Some. rewrite dict_set_keys by (by rewrite HE0).
    apply dict_get_is_Some. by rewrite HE1.
Qed.

(** ** The loop *)

(** A property of the dictionary that every accepted step keeps holds at
    whatever point a run of the loop ends. *)
Lemma mcmc_loop_invariant (P : dict (list NodeEdgeIncidence) → Prop) m_ rl n_steps
    draws edges N kr :
  (∀ d e e', P e → attempt m_ rl d e = Accepted e' → P e') →
  P edges → P (run_edges (mcmc_loop m_ rl n_steps draws edges N kr)).
Proof.
  intros Hstep. revert edges N kr.
  induction draws as [|d draws IH]; intros edges N kr HP; simpl.
  - by destruct (decide (N < n_steps)).
  - destruct (decide (N < n_steps)); [|done].
    destruct (attempt m_ rl d edges) as [e'| |err] eqn:Hatt; simpl; eauto.
Qed.

(** The dictionary the sampler starts from holds the sorted incidence list. *)
Lemma edges_of_flatten {W} (s : AnnotatedHypergraph W) :
  sort_key s ≠ Some (sort_key_of [Feid; Frole]) →
  edges_of s = groupby eid (IL (sort [Feid; Frole] false s)) ∧
  NoDup (edges_of s).*1 ∧
  flatten (edges_of s) = IL (sort [Feid; Frole] false s).
Proof.
  intros Hkey. unfold edges_of.
  assert (NoDup (groupby eid (IL (sort [Feid; Frole] false s))).*1) as Hnd.
  { apply groupby_sorted_NoDup. unfold sort, sort_skips.
    rewrite bool_decide_eq_false_2 by done. simpl.
    apply stable_sort_sorted_by. intros x. by eexists. }
  rewrite dict_of_items_nodup by done.
  split; [done|]. split; [done|].
  unfold flatten, dict_values. apply groupby_concat.
Qed.

(** ** The role-preserving sampler keeps every role's node ids *)

Lemma role_nodes_stubs r il :
  role_nodes r il = map fst (filter (λ p, p.2 = r) (map stub_of il)).
Proof.
  unfold role_nodes. induction il as [|x il IH]; simpl; [done|].
  rewrite !filter_cons. simpl.
  destruct (decide (role x = r)); simpl; by rewrite IH.
Qed.

Lemma role_nodes_perm r il il' :
  map stub_of il ≡ₚ map stub_of il' → role_nodes r il ≡ₚ role_nodes r il'.
Proof. intros H. rewrite !role_nodes_stubs. by rewrite H. Qed.

Lemma same_stubs_and_slots_facts r il il' :
  same_stubs_and_slots il il' →
  role_nodes r il ≡ₚ role_nodes r il' ∧
  map stub_of il ≡ₚ map stub_of il' ∧
  map slot_of il ≡ₚ map slot_of il' ∧
  length il = length il'.
Proof.
  intros [H1 H2]. split; [by apply role_nodes_perm|]. split; [done|]. split; [done|].
  apply Permutation_length in H1. by rewrite !length_map in H1.
Qed.

Lemma run_same_stubs_and_slots {W} (s : AnnotatedHypergraph W) n_steps draws :
  sort_key s ≠ Some (sort_key_of [Feid; Frole]) →
  same_stubs_and_slots
    (flatten (run_edges (degeneracy_avoiding_run n_steps true draws s))) (IL s).
Proof.
  intros Hkey. unfold degeneracy_avoiding_run.
  apply (mcmc_loop_invariant (λ e, same_stubs_and_slots (flatten e) (IL s))).
  - intros d e e' [He1 He2] Hacc. split.
    + rewrite <- He1. eapply accepted_preserves; [|exact Hacc].
      intros a b Hr. unfold stub_of, swapped_in. simpl.
      rewrite (Hr eq_refl). apply Permutation_swap.
    + rewrite <- He2. eapply accepted_preserves; [|exact Hacc].
      intros a b _. done.
  - destruct (edges_of_flatten s Hkey) as (_ & _ & ->).
    split; by rewrite IL_sort_perm.
Qed.

(** C1. In role-preserving mode ([role_labels=True]) the degeneracy-avoiding
    sampler keeps, for every role [r], the node ids that hold [r] with their
    multiplicities, whatever the draws and however many steps were accepted:
    the [(node, role)] pairs are the same, the [(role, edge, metadata)] slots
    are the same, and so is the number of incidences. This holds for the
    dictionary at the point where the run of the loop ends and for the
    incidence list the call leaves in the store. *)
Theorem role_multiset_preserved {W} (s : AnnotatedHypergraph W) (n_steps : Z)
    (draws : list draw) (r : Z) :
  sort_key s ≠ Some (sort_key_of [Feid; Frole]) →
  let during := flatten (run_edges (degeneracy_avoiding_run n_steps true draws s)) in
  let after := IL (_degeneracy_avoiding_MCMC n_steps true draws s) in
  (role_nodes r during ≡ₚ role_nodes r (IL s) ∧
   map stub_of during ≡ₚ map stub_of (IL s) ∧
   map slot_of during ≡ₚ map slot_of (IL s) ∧
   length during = length (IL s)) ∧
  (role_nodes r after ≡ₚ role_nodes r (IL s) ∧
   map stub_of after ≡ₚ map stub_of (IL s) ∧
   map slot_of after ≡ₚ map slot_of (IL s) ∧
   length after = length (IL s)).
Proof.
  intros Hkey during after.
  pose proof (run_same_stubs_and_slots s n_steps draws Hkey) as Hrun.
  split; [by apply same_stubs_and_slots_facts|].
  apply same_stubs_and_slots_facts.
  unfold after, _degeneracy_avoiding_MCMC.
  destruct (degeneracy_avoiding_run n_steps true draws s); simpl in *; [done| |];
    split; by rewrite IL_sort_perm.
Qed.

(** A run on [two_edges] with [n_steps = 2]: the swap of the first draw is
    accepted, and so is the second draw, which names one slot twice and
    changes nothing. *)
Example two_edges_run :
  degeneracy_avoiding_run 2 true four_draws two_edges
  = Finished [(0, [mkInc 1 0 0 None]); (1, [mkInc 0 0 1 None; mkInc 2 1 1 None])] 2 0.
Proof. reflexivity. Qed.

Lemma role_multiset_preserved_witness :
  sort_key two_edges ≠ Some (sort_key_of [Feid; Frole]) ∧
  role_nodes 0 (IL (_degeneracy_avoiding_MCMC 2 true four_draws two_edges))
  ≡ₚ role_nodes 0 (IL two_edges).
Proof.
  assert (sort_key two_edges ≠ Some (sort_key_of [Feid; Frole])) as H by done.
  split; [exact H|].
  exact (proj1 (proj2 (role_multiset_preserved two_edges 2 four_draws 0 H))).
Defined.

(** ** Degenerate proposals are rejected *)

(** The test of the loop body on a proposal, once the draws are fixed. *)
Lemma degenerate_proposal_rejected m_ rl d edges i j E0 E1 k l a b :
  randint m_ (raw_i d) = Some i → randint m_ (raw_j d) = Some j →
  dict_get edges (Z.of_nat i) = Some E0 → dict_get edges (Z.of_nat j) = Some E1 →
  randint (length E0) (raw_k d) = Some k → randint (length E1) (raw_l d) = Some l →
  E0 !! k = Some a → E1 !! l = Some b →
  check_degenerate (proposal E0 k a b) || check_degenerate (proposal E1 l b a) = true →
  attempt m_ rl d edges = Rejected.
Proof.
  intros Hi Hj HE0 HE1 Hk Hl Ha Hb Hdeg. unfold attempt.
  rewrite Hi, Hj, HE0, HE1, Hk, Hl, Ha, Hb, Hdeg.
  by destruct (rl && bool_decide (role a ≠ role b)).
Qed.

(** After an accepted step the two edges the draw named are not degenerate. *)
Lemma accepted_edges_not_degenerate m_ rl d edges edges' :
  attempt m_ rl d edges = Accepted edges' →
  ∃ i j E0' E1',
    randint m_ (raw_i d) = Some i ∧ randint m_ (raw_j d) = Some j ∧
    dict_get edges' (Z.of_nat i) = Some E0' ∧ dict_get edges' (Z.of_nat j) = Some E1' ∧
    check_degenerate E0' = false ∧ check_degenerate E1' = false.
Proof.
  intros Hacc. pose proof Hacc as Hacc'. revert Hacc'.
  unfold attempt.
  destruct (randint m_ (raw_i d)) as [i|] eqn:Hi; [|done].
  destruct (randint m_ (raw_j d)) as [j|] eqn:Hj; [|done].
  destruct (dict_get edges (Z.of_nat i)) as [E0|] eqn:HE0; [|done].
  destruct (dict_get edges (Z.of_nat j)) as [E1|] eqn:HE1; [|done].
  destruct (randint (length E0) _) as [k|]; [|done].
  destruct (randint (length E1) _) as [l|]; [|done].
  destruct (E0 !! k) as [a|] eqn:Ha; [|done].
  destruct (E1 !! l) as [b|] eqn:Hb; [|done].
  destruct (rl && _); [done|].
  destruct (check_degenerate (proposal E0 k a b)) eqn:Hd0; [done|].
  destruct (check_degenerate (proposal E1 l b a)) eqn:Hd1; [done|].
  simpl. intros [= <-].
  destruct (decide (i = j)) as [->|Hne].
  - exists j, j, (proposal E1 l b a), (proposal E1 l b a).
    rewrite dict_get_set_eq. done.
  - exists i, j, (proposal E0 k a b), (proposal E1 l b a).
    rewrite dict_get_set_eq, dict_get_set_ne, dict_get_set_eq by lia. done.
Qed.

(** Rejection, acceptance and runs of the loop, on the dictionary [edges]. *)
Lemma loop_degenerate_edges (m_ : nat) (role_labels : bool) :
  (∀ d edges i j E0 E1 k l a b,
     randint m_ (raw_i d) = Some i → randint m_ (raw_j d) = Some j →
     dict_get edges (Z.of_nat i) = Some E0 → dict_get edges (Z.of_nat j) = Some E1 →
     randint (length E0) (raw_k d) = Some k → randint (length E1) (raw_l d) = Some l →
     E0 !! k = Some a → E1 !! l = Some b →
     check_degenerate (proposal E0 k a b) || check_degenerate (proposal E1 l b a) = true →
     attempt m_ role_labels d edges = Rejected) ∧
  (∀ d edges edges',
     attempt m_ role_labels d edges = Accepted edges' →
     (degenerate_edges edges' ≤ degenerate_edges edges)%nat ∧
     ∃ i j E0' E1',
       randint m_ (raw_i d) = Some i ∧ randint m_ (raw_j d) = Some j ∧
       dict_get edges' (Z.of_nat i) = Some E0' ∧ dict_get edges' (Z.of_nat j) = Some E1' ∧
       check_degenerate E0' = false ∧ check_degenerate E1' = false) ∧
  (∀ n_steps draws edges N kr,
     (degenerate_edges (run_edges (mcmc_loop m_ role_labels n_steps draws edges N kr))
      ≤ degenerate_edges edges)%nat) ∧
  (∀ n_steps draws edges N kr,
     degenerate_edges edges = 0%nat →
     degenerate_edges (run_edges (mcmc_loop m_ role_labels n_steps draws edges N kr))
     = 0%nat).
Proof.
  assert (∀ n_steps draws edges N kr,
     (degenerate_edges (run_edges (mcmc_loop m_ role_labels n_steps draws edges N kr))
      ≤ degenerate_edges edges)%nat) as Hrun.
  { intros n_steps draws edges N kr.
    apply (mcmc_loop_invariant (λ e, (degenerate_edges e ≤ degenerate_edges edges)%nat));
      [|done].
    intros d e e' He Hacc. etrans; [by eapply accepted_degenerate|done]. }
  split; [intros; by eapply degenerate_proposal_rejected|].
  split.
  { intros d edges edges' Hacc. split; [by eapply accepted_degenerate|].
    by eapply accepted_edges_not_degenerate. }
  split; [done|].
  intros n_steps draws edges N kr H0.
  specialize (Hrun n_steps draws edges N kr). lia.
Qed.

(** ** Accepted steps, not attempts, drive the loop *)

Lemma mcmc_loop_counts m_ rl n_steps draws edges N kr :
  let run := mcmc_loop m_ rl n_steps draws edges N kr in
  N ≤ run_N run ∧ kr ≤ run_rejected run ∧
  (run_N run - N) + (run_rejected run - kr) ≤ Z.of_nat (length draws) ∧
  match run with
  | Finished _ N' _ => N' = Z.max N n_steps
  | Exhausted _ N' kr' => N' < n_steps ∧ (N' - N) + (kr' - kr) = Z.of_nat (length draws)
  | Failed _ _ N' kr' => N' < n_steps ∧ (N' - N) + (kr' - kr) < Z.of_nat (length draws)
  end.
Proof.
  revert edges N kr. induction draws as [|d draws IH]; intros edges N kr; simpl.
  - destruct (decide (N < n_steps)); simpl; lia.
  - destruct (decide (N < n_steps)); simpl; [|lia].
    destruct (attempt m_ rl d edges) as [e'| |err]; simpl.
    + specialize (IH e' (N + 1) kr). simpl in IH.
      destruct (mcmc_loop _ _ _ _ _ _ _); simpl in *; lia.
    + specialize (IH edges N (kr + 1)). simpl in IH.
      destruct (mcmc_loop _ _ _ _ _ _ _); simpl in *; lia.
    + lia.
Qed.

Lemma mcmc_loop_stuck m_ rl n_steps draws edges N kr :
  (∀ d, attempt m_ rl d edges = Rejected) → N < n_steps →
  mcmc_loop m_ rl n_steps draws edges N kr
  = Exhausted edges N (kr + Z.of_nat (length draws)).
Proof.
  intros Hrej HN. revert kr. induction draws as [|d draws IH]; intros kr; simpl.
  - rewrite decide_True by done. f_equal. lia.
  - rewrite decide_True by done. rewrite Hrej, IH. f_equal. lia.
Qed.

Lemma one_degenerate_edge_rejects rl d :
  attempt (m one_degenerate_edge) rl d (edges_of one_degenerate_edge) = Rejected.
Proof.
  change (m one_degenerate_edge) with 1%nat.
  change (edges_of one_degenerate_edge)
    with [(0, [mkInc 1 0 0 None; mkInc 1 1 0 None])].
  pose proof (Nat.mod_upper_bound (raw_k d) 2 ltac:(done)) as Hk.
  pose proof (Nat.mod_upper_bound (raw_l d) 2 ltac:(done)) as Hl.
  assert (∀ x, randint 1 x = Some 0%nat) as H1.
  { intros x. unfold randint. rewrite decide_False by done. by rewrite Nat.mod_1_r. }
  assert (∀ x, randint 2 x = Some (x mod 2)%nat) as H2.
  { intros x. unfold randint. by rewrite decide_False. }
  pose proof (H2 (raw_k d)) as H2k. pose proof (H2 (raw_l d)) as H2l.
  destruct (raw_k d mod 2)%nat as [|[|k]]; [| |lia];
    (destruct (raw_l d mod 2)%nat as [|[|l]]; [| |lia]);
    by eapply (degenerate_proposal_rejected 1 rl d
                 [(0, [mkInc 1 0 0 None; mkInc 1 1 0 None])] 0 0
                 [mkInc 1 0 0 None; mkInc 1 1 0 None]
                 [mkInc 1 0 0 None; mkInc 1 1 0 None] _ _ _ _
                 (H1 _) (H1 _) eq_refl eq_refl H2k H2l eq_refl eq_refl).
Qed.

(** A draw that names the same slot of a non-degenerate edge twice is
    accepted and changes nothing: a store on which every draw is rejected has
    no such edge among the ids below [m]. *)
Lemma same_slot_draw_accepted m_ rl edges (i k : nat) E a :
  (i < m_)%nat → dict_get edges (Z.of_nat i) = Some E → E !! k = Some a →
  check_degenerate E = false →
  attempt m_ rl (mkDraw i i k k) edges = Accepted edges.
Proof.
  intros Hi HE Ha Hnd. unfold attempt, randint. simpl.
  rewrite decide_False by lia. rewrite Nat.mod_small by done. rewrite HE.
  pose proof (lookup_lt_Some _ _ _ Ha) as Hk.
  rewrite decide_False by lia. rewrite Nat.mod_small by done. rewrite Ha.
  rewrite bool_decide_eq_false_2 by (by intros ?). rewrite andb_false_r.
  assert (proposal E k a a = E) as ->.
  { unfold proposal. destruct a. by apply list_insert_id. }
  rewrite Hnd. simpl. f_equal.
  rewrite dict_set_set. by apply dict_set_id.
Qed.

(** Draws that name one slot of a non-degenerate edge twice finish the loop:
    each is accepted, and none changes the dictionary. *)
Lemma self_draws_finish m_ rl n_steps edges (i k : nat) E a :
  (i < m_)%nat → dict_get edges (Z.of_nat i) = Some E → E !! k = Some a →
  check_degenerate E = false →
  ∀ c N kr, n_steps ≤ N + Z.of_nat c →
    mcmc_loop m_ rl n_steps (replicate c (mkDraw i i k k)) edges N kr
    = Finished edges (Z.max N n_steps) kr.
Proof.
  intros Hi HE Ha Hnd. induction c as [|c IH]; intros N kr Hc; simpl.
  - rewrite decide_False by lia. f_equal. lia.
  - destruct (decide (N < n_steps)) as [HN|HN]; [|f_equal; lia].
    rewrite (same_slot_draw_accepted m_ rl edges i k E a) by done.
    rewrite IH by lia. f_equal. lia.
Qed.

(** After an accepted proposal some edge with an id below [m] is not
    degenerate, and so the next draw can be accepted as well. *)
Lemma accepted_leaves_good_edge m_ rl d edges edges' :
  attempt m_ rl d edges = Accepted edges' →
  ∃ (j l : nat) E x,
    (j < m_)%nat ∧ dict_get edges' (Z.of_nat j) = Some E ∧ E !! l = Some x ∧
    check_degenerate E = false.
Proof.
  intros (i & j & E0 & E1 & k & l & a & b & _ & Hj & _ & HE1 & _ & Hb & _ & _ & Hnd & ->)
    %attempt_accepted.
  exists j, l, (proposal E1 l b a), (mkInc (nid a) (role b) (eid b) (meta b)).
  split; [done|]. split; [by rewrite dict_get_set_eq|]. split; [|done].
  unfold proposal. apply list_lookup_insert_eq. by eapply lookup_lt_Some.
Qed.

(** A run that finishes with steps to take has had a draw accepted on the
    dictionary it started from, or on the one it reached. *)
Lemma finished_needs_accepted m_ rl n_steps draws edges N kr e N' kr' :
  N < n_steps →
  mcmc_loop m_ rl n_steps draws edges N kr = Finished e N' kr' →
  ∃ d edges', attempt m_ rl d edges = Accepted edges'.
Proof.
  intros HN. revert kr. induction draws as [|d draws IH]; intros kr; simpl;
    rewrite decide_True by done; [done|].
  destruct (attempt m_ rl d edges) as [e'| |err] eqn:Hatt; [by eauto|apply IH|done].
Qed.

(** With a single edge id to draw, an accepted proposal changes nothing. *)
Lemma single_edge_no_swap rl d edges edges' :
  attempt 1 rl d edges = Accepted edges' → edges' = edges.
Proof.
  intros (i & j & E0 & E1 & k & l & a & b & Hi & Hj & HE0 & HE1 & Ha & Hb & _ & Hnd & _ & ->)
    %attempt_accepted.
  assert (i = 0%nat) as -> by lia. assert (j = 0%nat) as -> by lia.
  assert (E1 = E0) as -> by congruence.
  destruct (same_edge_proposal E0 k l a b Ha Hb Hnd) as (-> & -> & ->).
  rewrite dict_set_set. by apply dict_set_id.
Qed.

(** C3, as the code has it. The loop of the degeneracy-avoiding sampler
    counts accepted proposals: an accepted pass advances [N], a rejected pass
    advances only [k_rejected], and when the loop finishes [N] is exactly
    [n_steps] (0 for a negative [n_steps]), however many passes were rejected
    on the way. A proposal that names one slot twice is accepted whenever its
    edge is not degenerate, changes nothing and counts as a step. So, for
    [n_steps > 0], some sequence of draws finishes the loop exactly when some
    draw is accepted on the starting dictionary; a store with a
    non-degenerate edge among the ids below [m] can always finish, without a
    single swap. On a store where every draw is rejected, which needs every
    such edge to be degenerate, no finite list of draws finishes the loop:
    the run always ends with the draws used up and no step accepted. Such
    stores exist: [one_degenerate_edge] is one. *)
Theorem accepted_steps_drive_the_loop {W} (role_labels : bool) (n_steps : Z) :
  (∀ (s : AnnotatedHypergraph W) draws,
     let run := degeneracy_avoiding_run n_steps role_labels draws s in
     0 ≤ run_N run ∧ 0 ≤ run_rejected run ∧
     run_N run + run_rejected run ≤ Z.of_nat (length draws) ∧
     match run with
     | Finished _ N _ => N = Z.max 0 n_steps
     | Exhausted _ N kr => N < n_steps ∧ N + kr = Z.of_nat (length draws)
     | Failed _ _ N kr => N < n_steps ∧ N + kr < Z.of_nat (length draws)
     end) ∧
  (∀ m_ d draws edges edges' N kr,
     N < n_steps →
     (attempt m_ role_labels d edges = Rejected →
      mcmc_loop m_ role_labels n_steps (d :: draws) edges N kr
      = mcmc_loop m_ role_labels n_steps draws edges N (kr + 1)) ∧
     (attempt m_ role_labels d edges = Accepted edges' →
      mcmc_loop m_ role_labels n_steps (d :: draws) edges N kr
      = mcmc_loop m_ role_labels n_steps draws edges' (N + 1) kr)) ∧
  (∀ (s : AnnotatedHypergraph W) (i k : nat) E a,
     (i < m s)%nat → dict_get (edges_of s) (Z.of_nat i) = Some E → E !! k = Some a →
     check_degenerate E = false →
     attempt (m s) role_labels (mkDraw i i k k) (edges_of s) = Accepted (edges_of s) ∧
     degeneracy_avoiding_run n_steps role_labels
       (replicate (Z.to_nat n_steps) (mkDraw i i k k)) s
     = Finished (edges_of s) (Z.max 0 n_steps) 0) ∧
  (∀ (s : AnnotatedHypergraph W),
     0 < n_steps →
     (∃ draws e kr, degeneracy_avoiding_run n_steps role_labels draws s
                    = Finished e n_steps kr)
     ↔ ∃ d edges', attempt (m s) role_labels d (edges_of s) = Accepted edges') ∧
  (∀ (s : AnnotatedHypergraph W),
     (∀ d, attempt (m s) role_labels d (edges_of s) = Rejected) →
     (∀ (i k : nat) E a,
        (i < m s)%nat → dict_get (edges_of s) (Z.of_nat i) = Some E → E !! k = Some a →
        check_degenerate E = true) ∧
     (0 < n_steps →
      ∀ draws, degeneracy_avoiding_run n_steps role_labels draws s
               = Exhausted (edges_of s) 0 (Z.of_nat (length draws)))) ∧
  (∀ d, attempt (m one_degenerate_edge) role_labels d (edges_of one_degenerate_edge)
        = Rejected) ∧
  (0 < n_steps →
   ∀ draws, degeneracy_avoiding_run n_steps role_labels draws one_degenerate_edge
            = Exhausted (edges_of one_degenerate_edge) 0 (Z.of_nat (length draws))).
Proof.
  split.
  { intros s draws run.
    pose proof (mcmc_loop_counts (m s) role_labels n_steps draws (edges_of s) 0 0) as H.
    simpl in H. fold (degeneracy_avoiding_run n_steps role_labels draws s) in H.
    fold run in H. destruct run; simpl in *; lia. }
  split.
  { intros m_ d draws edges edges' N kr HN. simpl. rewrite decide_True by done.
    split; by intros ->. }
  split.
  { intros s i k E a Hi HE Ha Hnd.
    split; [by apply (same_slot_draw_accepted _ _ _ i k E a)|].
    unfold degeneracy_avoiding_run.
    apply (self_draws_finish _ _ _ _ i k E a); try done. lia. }
  split.
  { intros s Hn. split.
    - intros (draws & e & kr & Hrun). unfold degeneracy_avoiding_run in Hrun.
      by eapply finished_needs_accepted.
    - intros (d & edges' & Hacc).
      destruct (accepted_leaves_good_edge _ _ _ _ _ Hacc) as (j & l & E & x & Hj & HE & Hx & Hnd).
      exists (d :: replicate (Z.to_nat (n_steps - 1)) (mkDraw j j l l)), edges', 0.
      unfold degeneracy_avoiding_run. simpl. rewrite decide_True by done. rewrite Hacc.
      rewrite (self_draws_finish _ _ _ _ j l E x) by (done || lia). f_equal. lia. }
  split.
  { intros s Hrej. split.
    - intros i k E a Hi HE Ha.
      destruct (check_degenerate E) eqn:Hnd; [done|].
      pose proof (same_slot_draw_accepted (m s) role_labels (edges_of s) i k E a
                    Hi HE Ha Hnd) as Hacc.
      by rewrite Hrej in Hacc.
    - intros Hn draws. unfold degeneracy_avoiding_run. by rewrite mcmc_loop_stuck. }
  split; [intros d; apply one_degenerate_edge_rejects|].
  intros Hn draws. unfold degeneracy_avoiding_run.
  rewrite mcmc_loop_stuck; [done| |done].
  intros d. apply one_degenerate_edge_rejects.
Qed.

Lemma accepted_steps_drive_the_loop_witness :
  0 < 3 ∧
  degeneracy_avoiding_run 3 true four_draws one_degenerate_edge
  = Exhausted (edges_of one_degenerate_edge) 0 4.
Proof.
  assert (0 < 3) as H by lia.
  split; [exact H|].
  destruct (accepted_steps_drive_the_loop (W := Z) true 3) as (_ & _ & _ & _ & _ & _ & Hstuck).
  exact (Hstuck H four_draws).
Defined.

(** C3, as stated, fails: [one_good_edge] admits no swap (in either mode an
    accepted proposal leaves the dictionary as it is, and a proposal on two
    different slots is rejected), and yet the loop finishes: the draws that
    name one slot twice are accepted and counted. *)
Lemma swapless_store_finishes :
  (∀ rl d edges', attempt (m one_good_edge) rl d (edges_of one_good_edge) = Accepted edges' →
                  edges' = edges_of one_good_edge) ∧
  attempt (m one_good_edge) true (mkDraw 0 0 0 1) (edges_of one_good_edge) = Rejected ∧
  attempt (m one_good_edge) false (mkDraw 0 0 0 1) (edges_of one_good_edge) = Rejected ∧
  degeneracy_avoiding_run 3 true
    [mkDraw 0 0 0 0; mkDraw 0 0 0 1; mkDraw 0 0 1 1; mkDraw 0 0 0 0] one_good_edge
  = Finished (edges_of one_good_edge) 3 1 ∧
  degeneracy_avoiding_run 3 false
    [mkDraw 0 0 0 0; mkDraw 0 0 0 1; mkDraw 0 0 1 1; mkDraw 0 0 0 0] one_good_edge
  = Finished (edges_of one_good_edge) 3 1.
Proof.
  split; [|by repeat split].
  intros rl d edges'. change (m one_good_edge) with 1%nat. apply single_edge_no_swap.
Qed.

(** ** Edge ids as dictionary keys *)

Lemma np_unique_NoDup l : NoDup (np_unique l).
Proof. apply NoDup_remove_dups. Qed.

Lemma np_unique_elem l x : x ∈ np_unique l ↔ x ∈ l.
Proof. unfold np_unique. by rewrite elem_of_remove_dups, stable_sort_perm. Qed.

Lemma length_np_unique l : length (np_unique l) = size (list_to_set l : gset Z).
Proof.
  rewrite <- (size_list_to_set (C := gset Z)) by apply np_unique_NoDup.
  f_equal. apply set_eq. intros x.
  by rewrite !elem_of_list_to_set, np_unique_elem.
Qed.

Lemma edges_of_keys {W} (s : AnnotatedHypergraph W) k :
  is_Some (dict_get (edges_of s) k) ↔ k ∈ map eid (IL s).
Proof.
  unfold edges_of.
  rewrite dict_get_is_Some, dict_of_items_keys, groupby_keys.
  by rewrite IL_sort_perm.
Qed.

(** If every integer below the number of distinct values occurs, nothing
    else does. *)
Lemma all_below_count_dense (l : list Z) :
  (∀ i : nat, (i < length (np_unique l))%nat → Z.of_nat i ∈ l) →
  ∀ e, e ∈ l ↔ 0 ≤ e < Z.of_nat (length (np_unique l)).
Proof.
  intros Hall e.
  set (c := length (np_unique l)) in *.
  assert ((list_to_set (seqZ 0 (Z.of_nat c)) : gset Z) = list_to_set l) as Heq.
  { apply set_subseteq_size_eq.
    - intros x. rewrite !elem_of_list_to_set, elem_of_seqZ. intros Hx.
      replace x with (Z.of_nat (Z.to_nat x)) by lia. apply Hall. lia.
    - rewrite (size_list_to_set (seqZ 0 (Z.of_nat c))) by apply NoDup_seqZ.
      rewrite length_seqZ. unfold c. rewrite length_np_unique. lia. }
  rewrite <- (elem_of_list_to_set (C := gset Z)), <- Heq.
  rewrite elem_of_list_to_set, elem_of_seqZ. lia.
Qed.

(** A run that fails does so on a pass through the loop body, on a dictionary
    with the keys it started with. *)
Lemma mcmc_loop_failed m_ rl n_steps draws edges N kr err e N' kr' :
  mcmc_loop m_ rl n_steps draws edges N kr = Failed err e N' kr' →
  ∃ d, attempt m_ rl d e = Raised err ∧ e.*1 = edges.*1.
Proof.
  revert edges N kr. induction draws as [|d draws IH]; intros edges N kr; simpl.
  - by destruct (decide (N < n_steps)).
  - destruct (decide (N < n_steps)); [|done].
    destruct (attempt m_ rl d edges) as [e''| |err'] eqn:Hatt.
    + intros (d' & Hd' & Hkeys)%IH. exists d'. split; [done|].
      rewrite Hkeys. by eapply accepted_keys.
    + apply IH.
    + intros [= -> -> _ _]. by exists d.
Qed.

Lemma attempt_KeyError m_ rl d edges :
  attempt m_ rl d edges = Raised KeyError →
  ∃ i : nat, (i < m_)%nat ∧ dict_get edges (Z.of_nat i) = None.
Proof.
  unfold attempt, randint.
  destruct (decide (m_ = 0%nat)) as [|Hm]; [done|].
  destruct (dict_get edges (Z.of_nat (raw_i d mod m_))) as [E0|] eqn:HE0.
  - destruct (dict_get edges (Z.of_nat (raw_j d mod m_))) as [E1|] eqn:HE1.
    + destruct (decide (length E0 = 0%nat)); [done|].
      destruct (decide (length E1 = 0%nat)); [done|].
      destruct (E0 !! (raw_k d mod length E0)%nat) as [a|]; [|done].
      destruct (E1 !! (raw_l d mod length E1)%nat) as [b|]; [|done].
      destruct (rl && _); [done|]. by destruct (_ || _).
    + intros _. eexists. split; [|exact HE1]. by apply Nat.mod_upper_bound.
  - intros _. eexists. split; [|exact HE0]. by apply Nat.mod_upper_bound.
Qed.

Lemma missing_key_KeyError m_ rl edges (i : nat) :
  (i < m_)%nat → dict_get edges (Z.of_nat i) = None →
  attempt m_ rl (mkDraw i i 0 0) edges = Raised KeyError.
Proof.
  intros Hi Hnone. unfold attempt, randint. simpl.
  rewrite decide_False by lia.
  rewrite Nat.mod_small by done. by rewrite Hnone.
Qed.

(** C10. The sampler draws [i] and [j] from [[0, m)] and reads [edges[i]] and
    [edges[j]]. On a store whose derived state is current, these reads
    succeed for every draw exactly when the edge ids are the integers
    [0 .. m-1]; the same condition is what keeps every pass through the loop
    body, and every run of the sampler, free of [KeyError]. On a store whose
    edge ids are not that range some draw raises [KeyError], and a run that
    starts with this draw fails at once. *)
Theorem keyerror_free_iff_dense {W} (s : AnnotatedHypergraph W) :
  states_current s →
  ((∀ i : nat, (i < m s)%nat → is_Some (dict_get (edges_of s) (Z.of_nat i)))
   ↔ dense_edge_ids s) ∧
  ((∀ rl d, attempt (m s) rl d (edges_of s) ≠ Raised KeyError) ↔ dense_edge_ids s) ∧
  ((∀ rl n_steps draws e N kr,
      degeneracy_avoiding_run n_steps rl draws s ≠ Failed KeyError e N kr)
   ↔ dense_edge_ids s) ∧
  (¬ dense_edge_ids s →
   ∃ d, ∀ rl,
     attempt (m s) rl d (edges_of s) = Raised KeyError ∧
     ∀ n_steps draws, 0 < n_steps →
       degeneracy_avoiding_run n_steps rl (d :: draws) s
       = Failed KeyError (edges_of s) 0 0).
Proof.
  intros (_ & Hel & _ & Hm).
  assert (m s = length (np_unique (map eid (IL s)))) as Hm' by (by rewrite Hm, Hel).
  set (A := ∀ i : nat, (i < m s)%nat → is_Some (dict_get (edges_of s) (Z.of_nat i))).
  assert (A ↔ dense_edge_ids s) as HAD.
  { unfold A, dense_edge_ids. split.
    - intros HA. rewrite Hm'. apply all_below_count_dense.
      intros i Hi. apply edges_of_keys, HA. by rewrite Hm'.
    - intros HD i Hi. apply edges_of_keys, HD. lia. }
  assert (∀ i : nat, (i < m s)%nat → dict_get (edges_of s) (Z.of_nat i) = None →
            ∀ rl n_steps draws, 0 < n_steps →
            degeneracy_avoiding_run n_steps rl (mkDraw i i 0 0 :: draws) s
            = Failed KeyError (edges_of s) 0 0) as Hfail.
  { intros i Hi Hnone rl n_steps draws Hn. unfold degeneracy_avoiding_run. simpl.
    rewrite decide_True by done. by rewrite missing_key_KeyError. }
  split; [done|].
  split.
  { rewrite <- HAD. unfold A. split.
    - intros HB i Hi.
      destruct (dict_get (edges_of s) (Z.of_nat i)) eqn:Hget; [by eexists|].
      exfalso. by apply (HB true (mkDraw i i 0 0)), missing_key_KeyError.
    - intros HA rl d (i & Hi & Hnone)%attempt_KeyError.
      specialize (HA i Hi). rewrite Hnone in HA. by destruct HA. }
  split.
  { rewrite <- HAD. unfold A. split.
    - intros HC i Hi.
      destruct (dict_get (edges_of s) (Z.of_nat i)) eqn:Hget; [by eexists|].
      exfalso. eapply (HC true 1 [mkDraw i i 0 0]). by apply Hfail.
    - intros HA rl n_steps draws e N kr Hrun.
      apply mcmc_loop_failed in Hrun as (d & (i & Hi & Hnone)%attempt_KeyError & Hkeys).
      specialize (HA i Hi). apply dict_get_is_Some in HA.
      apply dict_get_None in Hnone. by rewrite Hkeys in Hnone. }
  intros Hnd.
  destruct (decide (Forall (λ i, is_Some (dict_get (edges_of s) (Z.of_nat i)))
                      (seq 0 (m s)))) as [Hall|Hex].
  - exfalso. apply Hnd, HAD. intros i Hi.
    rewrite Forall_forall in Hall. apply Hall, elem_of_seq. lia.
  - apply not_Forall_Exists in Hex; [|apply _].
    apply Exists_exists in Hex as (i & Hi%elem_of_seq & Hnone).
    assert (dict_get (edges_of s) (Z.of_nat i) = None) as Hnone'.
    { by apply eq_None_not_Some. }
    exists (mkDraw i i 0 0). intros rl. split.
    + apply missing_key_KeyError; [lia|done].
    + intros n_steps draws Hn. apply Hfail; [lia|done|done].
Qed.

Lemma keyerror_free_iff_dense_witness :
  states_current two_edges ∧
  ((∀ rl d, attempt (m two_edges) rl d (edges_of two_edges) ≠ Raised KeyError)
   ↔ dense_edge_ids two_edges).
Proof.
  assert (states_current two_edges) as H by done.
  split; [exact H|].
  exact (proj1 (proj2 (keyerror_free_iff_dense two_edges H))).
Defined.

(** ** Relabelling *)

Lemma getattr_setattr e f j : getattr (setattr e f j) f = j.
Proof. by destruct f. Qed.

Lemma getattr_setattr_ne e f g j : f ≠ g → getattr (setattr e f j) g = getattr e g.
Proof. by destruct f, g. Qed.

(** The labels the loop hands out start at its counter [j] or above. *)
Lemma relabel_loop_ge f D j old :
  Forall (λ e, j ≤ getattr e f) (relabel_loop f D j old).
Proof.
  revert j old. induction D as [|e D IH]; intros j old; simpl; [constructor|].
  constructor.
  - rewrite getattr_setattr. case_decide; lia.
  - eapply Forall_impl; [apply IH|]. intros x Hx. simpl in Hx.
    case_decide; lia.
Qed.

(** The counter [old] starts at 0: when no value of the field is 0 the first
    element already moves [j] to 1, and no label 0 is handed out. *)
Lemma relabel_by_field_from_one D f :
  Forall (λ e, getattr e f ≠ 0) D →
  Forall (λ e, 1 ≤ getattr e f) (relabel_by_field D f).
Proof.
  intros HD. unfold relabel_by_field.
  assert (Forall (λ e, getattr e f ≠ 0) (py_sort (λ x, [getattr x f]) false D)) as HS.
  { rewrite Forall_forall in HD |- *. intros x Hx. apply HD.
    by rewrite py_sort_perm in Hx. }
  destruct HS as [|e D' He HD']; simpl; [constructor|].
  rewrite decide_True by done. constructor.
  - by rewrite getattr_setattr.
  - apply relabel_loop_ge.
Qed.

Lemma relabel_loop_other f g D j old :
  f ≠ g → map (λ e, getattr e g) (relabel_loop f D j old) = map (λ e, getattr e g) D.
Proof.
  intros Hne. revert j old. induction D as [|e D IH]; intros j old; simpl; [done|].
  by rewrite getattr_setattr_ne, IH.
Qed.

(** [relabel] on a store without edge id 0 leaves a store without edge id 0. *)
Lemma relabel_no_zero {W} (s : AnnotatedHypergraph W) :
  Forall (λ e, eid e ≠ 0) (IL s) → Forall (λ e, 1 ≤ eid e) (IL (relabel s)).
Proof.
  intros Hs. unfold relabel. simpl.
  pose proof (relabel_by_field_from_one (IL s) Feid Hs) as H1. simpl in H1.
  set (D := relabel_by_field (IL s) Feid) in *.
  unfold relabel_by_field at 1.
  assert (Forall (λ z, 1 ≤ z)
            (map (λ e, getattr e Feid)
               (relabel_loop Fnid (py_sort (λ x, [getattr x Fnid]) false D) 0 0))) as H2.
  { rewrite relabel_loop_other by done. apply Forall_map.
    rewrite Forall_forall in H1 |- *. intros x Hx. apply H1.
    by rewrite py_sort_perm in Hx. }
  exact (proj1 (Forall_map _ _ _) H2).
Qed.

(** C8. On [singleton_first], whose edge 0 has dimension 1 and whose edge 1
    has dimension 2, [remove_singletons] drops the one incidence of edge 0 and
    brings [m] from 2 to 1, but the remaining edge keeps the id 1: the
    smallest edge id after the call is 1, not 0, and the edge ids are not the
    range [0 .. m-1]. The cause is general: the loop of [relabel_by_field]
    starts with [old = 0], so on a list without the value 0 the first element
    already gets the label 1 ([relabel_no_zero]). *)
Theorem remove_singletons_labels_from_one :
  m singleton_first = 2%nat ∧
  (edge_dimensions singleton_first).2 = [(0, 1%nat); (1, 2%nat)] ∧
  remove_singletons singleton_first
  = (mkAH [mkInc 1 0 1 None; mkInc 2 1 1 None] [0; 1] [1; 2] [1] 2%nat 1%nat None None,
     1%nat) ∧
  edge_list (remove_singletons singleton_first).1 = [1] ∧
  ¬ dense_edge_ids (remove_singletons singleton_first).1 ∧
  (∀ s : AnnotatedHypergraph Z,
     Forall (λ e, eid e ≠ 0) (IL s) → Forall (λ e, 1 ≤ eid e) (IL (relabel s))).
Proof.
  split; [reflexivity|]. split; [reflexivity|].
  split; [reflexivity|]. split; [reflexivity|].
  split; [|apply @relabel_no_zero].
  intros Hd. specialize (Hd 1) as [Hd _].
  assert (0 ≤ 1 < 1) as H; [|lia].
  apply Hd. vm_compute. by left.
Qed.

(** ** The step budget of the stub-labeled sampler *)

Module StubLabeledFacts.
Import Reals Lra.
Import StubLabeled.
Local Open Scope R_scope.

Lemma ln2_pos : 0 < ln 2.
Proof. rewrite <- ln_1. apply ln_increasing; lra. Qed.

Lemma ln4 : ln 4 = 2 * ln 2.
Proof. replace 4 with (2 * 2) by lra. rewrite ln_mult by lra. lra. Qed.

Lemma astype_int_between (x : R) (z : Z) :
  0 <= x → IZR z <= x < IZR z + 1 → astype_int x = z.
Proof.
  intros H0 Hz. unfold astype_int.
  destruct (Rle_dec 0 x) as [_|Hn]; [|lra].
  symmetry. apply Int_part_spec. lra.
Qed.

(** In the expression of the code the factor [N] cancels: the share of a
    partition is [log N_i / sum_j log N_j]. *)
Lemma steps_of_cancels (N : list nat) (n_steps : Z) :
  Forall (λ k, k ≠ 0%nat) N → log_sum N ≠ 0 →
  steps_of N n_steps
  = map (λ k, astype_int (ln (INR k) / log_sum N * IZR n_steps)) N.
Proof.
  intros HN HS. unfold steps_of. apply map_ext_Forall.
  eapply Forall_impl; [exact HN|]. intros k Hk. simpl. f_equal.
  assert (INR k ≠ 0) by (by apply not_0_INR). field. by split.
Qed.

(** C4. With role partitions of sizes 2 and 4 and [n_steps = 16] the code
    gives the partitions 5 and 10 swap steps, the integer parts of
    [16 * log 2 / (log 2 + log 4)] and [16 * log 4 / (log 2 + log 4)],
    whereas the budget proportional to [N log N] is 3 and 12. In the
    expression of the code [.sum()] applies to [np.log(N)] alone, so the
    factor [N] cancels and the shares are proportional to [log N]. *)
Theorem steps_follow_log_not_n_log_n :
  steps_of [2; 4]%nat 16 = [5; 10]%Z ∧
  coupon_collector_steps [2; 4]%nat 16 = [3; 12]%Z ∧
  steps_of [2; 4]%nat 16 ≠ coupon_collector_steps [2; 4]%nat 16 ∧
  (∀ N n_steps, Forall (λ k, k ≠ 0%nat) N → log_sum N ≠ 0 →
     steps_of N n_steps
     = map (λ k, astype_int (ln (INR k) / log_sum N * IZR n_steps)) N).
Proof.
  pose proof ln2_pos as Hpos.
  assert (INR 2 = 2) as H2 by (simpl; lra).
  assert (INR 4 = 4) as H4 by (simpl; lra).
  assert (steps_of [2; 4]%nat 16 = [5; 10]%Z) as Hcode.
  { unfold steps_of, log_sum. cbn [map fold_right].
    rewrite !H2, !H4, !ln4.
    f_equal; [|f_equal].
    - replace (2 * ln 2 / (2 * (ln 2 + (2 * ln 2 + 0))) * 16) with (16 / 3)
        by (field; lra).
      apply astype_int_between; lra.
    - replace (4 * (2 * ln 2) / (4 * (ln 2 + (2 * ln 2 + 0))) * 16) with (32 / 3)
        by (field; lra).
      apply astype_int_between; lra. }
  assert (coupon_collector_steps [2; 4]%nat 16 = [3; 12]%Z) as Hspec.
  { unfold coupon_collector_steps. cbn [map fold_right].
    rewrite !H2, !H4, !ln4.
    f_equal; [|f_equal].
    - replace (16 * (2 * ln 2) / (2 * ln 2 + (4 * (2 * ln 2) + 0))) with (16 / 5)
        by (field; lra).
      apply astype_int_between; lra.
    - replace (16 * (4 * (2 * ln 2)) / (2 * ln 2 + (4 * (2 * ln 2) + 0))) with (64 / 5)
        by (field; lra).
      apply astype_int_between; lra. }
  split; [done|]. split; [done|].
  split; [by rewrite Hcode, Hspec|].
  apply steps_of_cancels.
Qed.
End StubLabeledFacts.

(** ** Stability of the sort, and the groups of a sorted copy *)

Section Stability.
Context {A : Type} (key : A → list Z) (P : A → Prop) `{!∀ x, Decision (P x)}.
(** [P] picks the elements of one key. *)
Hypothesis P_one_key : ∀ a b, P a → P b → lex_le (key a) (key b) = true.

Lemma sort_insert_filter x l :
  filter P (sort_insert key x l) = filter P (x :: l).
Proof.
  induction l as [|y l IH]; simpl; [done|].
  destruct (lex_le (key x) (key y)) eqn:Hxy; [done|].
  rewrite (filter_cons _ y), IH, !filter_cons.
  destruct (decide (P x)) as [Hx|Hx], (decide (P y)) as [Hy|Hy]; try done.
  by rewrite (P_one_key x y Hx Hy) in Hxy.
Qed.

Lemma stable_sort_filter l : filter P (stable_sort key l) = filter P l.
Proof.
  induction l as [|x l IH]; simpl; [done|].
  by rewrite sort_insert_filter, !filter_cons, IH.
Qed.

Lemma rev_is_reverse (l : list A) : rev l = reverse l.
Proof. unfold reverse. by rewrite rev_alt. Qed.

(** The elements of one key keep their order, in either direction. *)
Lemma py_sort_filter reverse l : filter P (py_sort key reverse l) = filter P l.
Proof.
  unfold py_sort. destruct reverse; [|apply stable_sort_filter].
  rewrite !rev_is_reverse, filter_reverse, stable_sort_filter, filter_reverse.
  apply reverse_involutive.
Qed.
End Stability.

Lemma StronglySorted_rev {A} (Rel : relation A) (l : list A) :
  StronglySorted Rel l → StronglySorted (flip Rel) (rev l).
Proof.
  induction 1 as [|x l Hl IH Hx]; simpl; [constructor|].
  apply StronglySorted_app. split; [|split; [done|repeat constructor]].
  intros x1 x2 Hx1 ->%list_elem_of_singleton. unfold flip.
  rewrite Forall_forall in Hx. apply Hx.
  by rewrite rev_is_reverse, elem_of_reverse in Hx1.
Qed.

Section GroupFactsMore.
Context {A : Type} (f : A → Z).

Lemma groupby_opp l :
  groupby (λ x, - f x) l = map (λ kg, (- kg.1, kg.2)) (groupby f l).
Proof.
  induction l as [|x l IH]; simpl; [done|].
  rewrite IH. destruct (groupby f l) as [|[k g] gs]; simpl; [done|].
  destruct (decide (f x = k)) as [Heq|Hne].
  - rewrite decide_True by lia. done.
  - rewrite decide_False by lia. done.
Qed.

(** On a list in descending order of [f] the keys of the groups are distinct
    as well. *)
Lemma groupby_sorted_desc_NoDup l :
  StronglySorted (flip Z.le) (map f l) → NoDup (groupby f l).*1.
Proof.
  intros Hs.
  assert (NoDup (groupby (λ x, - f x) l).*1) as Hnd.
  { apply groupby_sorted_NoDup.
    rewrite <- (map_map f Z.opp), map_fmap.
    eapply StronglySorted_fmap; [|exact Hs]. unfold flip. intros; lia. }
  rewrite groupby_opp in Hnd.
  assert (∀ gs : list (Z * list A),
            (map (λ kg, (- kg.1, kg.2)) gs).*1 = Z.opp <$> gs.*1) as Hopp.
  { induction gs as [|[k g] gs IH]; csimpl; [done|]. by rewrite IH. }
  rewrite Hopp in Hnd. by apply NoDup_fmap_1 in Hnd.
Qed.

(** The groups of a list whose group keys are distinct: each is what [filter]
    finds for its key. *)
Lemma groupby_filter l :
  NoDup (groupby f l).*1 →
  groupby f l = map (λ k, (k, filter (λ x, f x = k) l)) (groupby f l).*1.
Proof.
  intros Hnd.
  pose proof (groupby_groups f l) as Hgs.
  pose proof (groupby_concat f l) as Hcat.
  assert (Forall (λ kg, kg.2 = filter (λ x, f x = kg.1) l) (groupby f l)) as Hall.
  { apply Forall_forall. intros [k g] Hin. simpl.
    rewrite <- Hcat at 1. symmetry. apply keyed_groups_filter; [done| |done].
    eapply Forall_impl; [exact Hgs|]. by intros ? [_ ?]. }
  clear -Hall. induction Hall as [|[k g] gs Hg Hgs IH]; csimpl; [done|].
  simpl in Hg. by rewrite <- Hg, <- IH.
Qed.
End GroupFactsMore.

(** The groups [to_weighted_projection] walks: one per edge id, holding the
    incidences of the edge in the order of the incidence list. *)
Lemma get_IL_groups {W} (s : AnnotatedHypergraph W) :
  ∃ keys,
    keys ≡ₚ np_unique (map eid (IL s)) ∧
    groupby eid (get_IL s) = map (λ k, (k, filter (λ x, eid x = k) (IL s))) keys.
Proof.
  exists (groupby eid (get_IL s)).*1.
  assert (NoDup (groupby eid (get_IL s)).*1) as Hnd.
  { apply groupby_sorted_desc_NoDup. unfold get_IL, py_sort.
    rewrite map_rev. apply StronglySorted_rev.
    apply stable_sort_sorted_by. intros x. by eexists. }
  split.
  - apply NoDup_Permutation; [done|apply np_unique_NoDup|].
    intros k. rewrite groupby_keys, np_unique_elem.
    unfold get_IL. by rewrite py_sort_perm.
  - rewrite groupby_filter at 1 by done.
    apply map_ext. intros k. f_equal.
    unfold get_IL. apply py_sort_filter.
    intros a b Ha Hb. simpl. rewrite Ha, Hb, Z.ltb_irrefl, Z.eqb_refl. done.
Qed.

(** ** The weighted projection *)

Lemma imap_pair_keys (l : list Z) (g : nat → nat) :
  (imap (λ ix r, (r, g ix)) l).*1 = l.
Proof.
  revert g. induction l as [|x l IH]; intros g; csimpl; [done|].
  f_equal. apply (IH (g ∘ S)).
Qed.

Lemma role_map_keys rs r : r ∈ (role_map_of rs).*1 ↔ r ∈ rs.
Proof.
  unfold role_map_of. rewrite dict_of_items_keys.
  pose proof (imap_pair_keys rs id) as H. unfold id in H. by rewrite H.
Qed.

Lemma role_map_declared rs r :
  r ∈ rs → dict_get (role_map_of rs) r = Some (role_index rs r).
Proof.
  intros Hr. apply role_map_keys, dict_get_is_Some in Hr as [i Hi].
  unfold role_index. by rewrite Hi.
Qed.

Lemma permutations2_elem {A} (l : list A) a b :
  (a, b) ∈ permutations2 l → a ∈ l ∧ b ∈ l.
Proof.
  unfold permutations2. intros (l1 & Hab & Hl1)%list_elem_of_join.
  apply elem_of_lookup_imap in Hl1 as (i & x & -> & Hx).
  apply list_elem_of_join in Hab as (l2 & Hab & Hl2).
  apply elem_of_lookup_imap in Hl2 as (j & y & -> & Hy).
  case_decide; [by apply elem_of_nil in Hab|].
  apply list_elem_of_singleton in Hab as [= -> ->].
  split; by eapply list_elem_of_lookup_2.
Qed.

Lemma elem_of_concat {A} (x : A) (ls : list (list A)) :
  x ∈ concat ls ↔ ∃ l, l ∈ ls ∧ x ∈ l.
Proof.
  rewrite list_elem_of_In, in_concat. split.
  - intros (l & Hl & Hx). exists l. by rewrite !list_elem_of_In.
  - intros (l & Hl & Hx). exists l. by rewrite <- !list_elem_of_In.
Qed.

Lemma projection_pairs_elem {W} (s : AnnotatedHypergraph W) a b :
  (a, b) ∈ projection_pairs s → a ∈ IL s ∧ b ∈ IL s.
Proof.
  unfold projection_pairs. intros (l & Hl & Hab)%elem_of_concat.
  rewrite map_fmap in Hl. apply list_elem_of_fmap in Hl as ([k g] & -> & Hg).
  apply permutations2_elem in Hab as [Ha Hb]. simpl in *.
  assert (∀ x, x ∈ g → x ∈ IL s) as Hsub.
  { intros x Hx.
    assert (x ∈ concat (groupby eid (get_IL s)).*2) as Hc.
    { apply elem_of_concat. exists g. split; [|done].
      apply list_elem_of_fmap. by exists (k, g). }
    rewrite groupby_concat in Hc. unfold get_IL in Hc.
    by rewrite py_sort_perm in Hc. }
  split; by apply Hsub.
Qed.

Section ProjectionFacts.
Context {W : Type} (wzero wone : W) (wadd : W → W → W).

(** Weights are added as in a commutative monoid. *)
Hypothesis wadd_comm : ∀ x y, wadd x y = wadd y x.
Hypothesis wadd_assoc : ∀ x y z, wadd x (wadd y z) = wadd (wadd x y) z.
Hypothesis wadd_zero : ∀ x, wadd wzero x = x.

Lemma wsum_app l1 l2 :
  wsum wzero wadd (l1 ++ l2) = wadd (wsum wzero wadd l1) (wsum wzero wadd l2).
Proof.
  induction l1 as [|x l1 IH]; simpl; [by rewrite wadd_zero|].
  by rewrite IH, wadd_assoc.
Qed.

Lemma wsum_perm l1 l2 : l1 ≡ₚ l2 → wsum wzero wadd l1 = wsum wzero wadd l2.
Proof.
  induction 1 as [|x l1 l2 _ IH|x y l|l1 l2 l3 _ IH1 _ IH2]; simpl.
  - done.
  - by rewrite IH.
  - rewrite !wadd_assoc. by rewrite (wadd_comm x y).
  - by rewrite IH1.
Qed.

Lemma foldl_wadd a l : foldl wadd a l = wadd a (wsum wzero wadd l).
Proof.
  revert a. induction l as [|x l IH]; intros a; simpl.
  - by rewrite wadd_comm, wadd_zero.
  - by rewrite IH, wadd_assoc.
Qed.

Lemma wsum_concat ls :
  wsum wzero wadd (concat ls) = wsum wzero wadd (map (wsum wzero wadd) ls).
Proof.
  induction ls as [|l ls IH]; simpl; [done|].
  by rewrite wsum_app, IH.
Qed.



Lemma weight_of_weighted_add we u' v' w u v :
  weight_of wzero (weighted_add wzero wadd we u' v' w) u v
  = if decide (u' = u ∧ v' = v) then wadd (weight_of wzero we u v) w
    else weight_of wzero we u v.
Proof.
  unfold weight_of, weighted_add.
  destruct (decide (u' = u)) as [->|Hu].
  - rewrite dict_get_set_eq. simpl.
    destruct (decide (v' = v)) as [->|Hv].
    + rewrite dict_get_set_eq. by rewrite decide_True.
    + rewrite dict_get_set_ne by done. rewrite decide_False; [done|]. by intros [_ ?].
  - rewrite dict_get_set_ne by done. rewrite decide_False; [done|]. by intros [? _].
Qed.

(** What the accumulation leaves at [(u, v)]: the weights of the pairs that
    name [(u, v)], added from left to right. *)
Lemma weight_of_foldl (wt : NodeEdgeIncidence * NodeEdgeIncidence → W) ps we u v :
  weight_of wzero
    (foldl (λ we ab, weighted_add wzero wadd we (nid ab.1) (nid ab.2) (wt ab)) we ps) u v
  = foldl wadd (weight_of wzero we u v)
      (map wt (filter (λ ab, nid ab.1 = u ∧ nid ab.2 = v) ps)).
Proof.
  revert we. induction ps as [|ab ps IH]; intros we; simpl; [done|].
  rewrite IH, weight_of_weighted_add, filter_cons.
  by destruct (decide (nid ab.1 = u ∧ nid ab.2 = v)).
Qed.

Lemma foldlM_project Rm rs ps we :
  Forall (λ ab : NodeEdgeIncidence * NodeEdgeIncidence,
            role ab.1 ∈ rs ∧ role ab.2 ∈ rs) ps →
  foldlM (project_pair wzero wadd Rm (role_map_of rs)) we ps
  = Some (foldl (λ we ab, weighted_add wzero wadd we (nid ab.1) (nid ab.2)
                   (entry Rm (role_index rs (role ab.1)) (role_index rs (role ab.2))))
            we ps).
Proof.
  intros Hps. revert we. induction Hps as [|ab ps [Ha Hb] _ IH]; intros we; simpl; [done|].
  assert (project_pair wzero wadd Rm (role_map_of rs) we ab
          = Some (weighted_add wzero wadd we (nid ab.1) (nid ab.2)
                    (entry Rm (role_index rs (role ab.1)) (role_index rs (role ab.2)))))
    as ->.
  { unfold project_pair.
    by rewrite (role_map_declared rs _ Ha), (role_map_declared rs _ Hb). }
  simpl. apply IH.
Qed.

Lemma filter_concat {A} (P : A → Prop) `{!∀ x, Decision (P x)} (ls : list (list A)) :
  filter P (concat ls) = concat (map (filter P) ls).
Proof.
  induction ls as [|l ls IH]; simpl; [done|]. by rewrite filter_app, IH.
Qed.

(** The accumulated weight is the specified sum. *)
Lemma projection_pairs_weight (s : AnnotatedHypergraph W)
    (wt : NodeEdgeIncidence * NodeEdgeIncidence → W) u v :
  wsum wzero wadd
    (map wt (filter (λ ab, nid ab.1 = u ∧ nid ab.2 = v) (projection_pairs s)))
  = wsum wzero wadd
      (map (λ e, wsum wzero wadd (map wt (filter (λ ab, nid ab.1 = u ∧ nid ab.2 = v)
                                    (permutations2 (filter (λ x, eid x = e) (IL s))))))
            (np_unique (map eid (IL s)))).
Proof.
  unfold projection_pairs.
  destruct (get_IL_groups s) as (keys & Hkeys & ->).
  rewrite map_map. simpl.
  rewrite filter_concat, concat_map, wsum_concat, !map_map.
  apply wsum_perm, Permutation_map, Hkeys.
Qed.
End ProjectionFacts.


(** The projection of [two_edges] with the default matrix. *)
Example two_edges_projection :
  (to_weighted_projection 0 1 Z.add false false false two_edges).2
  = Some (AsDict [(1, [(2, 1)]); (2, [(1, 1)])]).
Proof. reflexivity. Qed.

(** ** Edge dimensions by role *)

Lemma counter_get_step d x k :
  counter_get (dict_set d x (S (default 0%nat (dict_get d x)))) k
  = if decide (x = k) then S (counter_get d k) else counter_get d k.
Proof.
  unfold counter_get. destruct (decide (x = k)) as [->|Hne].
  - by rewrite dict_get_set_eq.
  - by rewrite dict_get_set_ne.
Qed.

Lemma counter_get_Counter l k :
  counter_get (Counter l) k = length (filter (λ x, x = k) l).
Proof.
  unfold Counter.
  assert (∀ d, counter_get (foldl (λ d x, dict_set d x (S (default 0%nat (dict_get d x)))) d l) k
               = (counter_get d k + length (filter (λ x, x = k) l))%nat) as H.
  { induction l as [|x l IH]; intros d; simpl; [lia|].
    rewrite IH, counter_get_step, filter_cons.
    destruct (decide (x = k)); simpl; lia. }
  by rewrite H.
Qed.

Lemma mapM_total {A B} (f : A → option B) (g : A → B) (l : list A) :
  (∀ x, x ∈ l → f x = Some (g x)) → mapM f l = Some (map g l).
Proof.
  intros Hf. apply mapM_Some.
  induction l as [|x l IH]; simpl; constructor.
  - apply Hf. by left.
  - apply IH. intros y Hy. apply Hf. by right.
Qed.

(** On a list ordered by [f], the dictionary of the groups gives each key
    the elements of that key, in order. *)
Lemma sorted_groups_get {A} (f : A → Z) (l : list A) r :
  StronglySorted Z.le (map f l) → r ∈ map f l →
  dict_get (dict_of_items (groupby f l)) r = Some (filter (λ x, f x = r) l).
Proof.
  intros Hs Hr.
  pose proof (groupby_sorted_NoDup f l Hs) as Hnd.
  rewrite dict_of_items_nodup by done.
  apply dict_get_nodup; [done|].
  rewrite groupby_filter by done. rewrite map_fmap.
  apply list_elem_of_fmap. exists r. split; [done|]. by apply groupby_keys.
Qed.

Lemma filter_filter_and {A} (P Q : A → Prop) `{!∀ x, Decision (P x)}
    `{!∀ x, Decision (Q x)} (l : list A) :
  filter P (filter Q l) = filter (λ x, P x ∧ Q x) l.
Proof.
  induction l as [|x l IH]; [done|].
  rewrite !filter_cons.
  destruct (decide (Q x)) as [HQ|HQ].
  - rewrite filter_cons. destruct (decide (P x)) as [HP|HP].
    + rewrite decide_True by done. by rewrite IH.
    + rewrite decide_False by (by intros [? _]). done.
  - rewrite decide_False by (by intros [_ ?]). done.
Qed.

Lemma graph_keys {V} (g : Z → V) (l : list Z) : (map (λ r, (r, g r)) l).*1 = l.
Proof. induction l as [|x l IH]; csimpl; [done|]. by rewrite IH. Qed.

Lemma length_filter_map {A} (f : A → Z) k (l : list A) :
  length (filter (λ z, z = k) (map f l)) = length (filter (λ x, f x = k) l).
Proof.
  induction l as [|x l IH]; simpl; [done|].
  rewrite !filter_cons. destruct (decide (f x = k)); simpl; by rewrite IH.
Qed.

Lemma dim_perm il il' k r : il ≡ₚ il' → dim il k r = dim il' k r.
Proof. intros H. unfold dim. by rewrite H. Qed.

(** What [edge_dimensions(by_role=True)] returns when every declared role is
    held by some incidence: the counts [dim], for the edges of [edge_list]
    and the declared roles. The store is left sorted by role. *)
Lemma edge_dimensions_by_role_spec {W} (s : AnnotatedHypergraph W) :
  sort_key s ≠ Some (sort_key_of [Frole]) →
  NoDup (roles s) →
  (∀ r, r ∈ roles s → ∃ x, x ∈ IL s ∧ role x = r) →
  edge_dimensions_by_role s
  = (sort [Frole] false s, Some (dims_dict (roles s) (edge_list s) (dim (IL s)))).
Proof.
  intros Hkey Hnd Hused. unfold edge_dimensions_by_role.
  set (s1 := sort [Frole] false s).
  assert (roles s1 = roles s ∧ edge_list s1 = edge_list s) as [Hrs Hes].
  { unfold s1, sort. by destruct (sort_skips _ _). }
  assert (IL s1 ≡ₚ IL s) as Hperm by apply IL_sort_perm.
  assert (StronglySorted Z.le (map role (IL s1))) as Hsorted.
  { unfold s1, sort, sort_skips. rewrite bool_decide_eq_false_2 by done. simpl.
    apply stable_sort_sorted_by. intros x. by eexists. }
  f_equal. rewrite Hrs, Hes.
  set (cnt := λ r, Counter (map eid (filter (λ x, role x = r) (IL s1)))).
  rewrite (mapM_total _ (λ r, (r, cnt r))).
  2:{ intros r Hr. rewrite sorted_groups_get; [done|done|].
      destruct (Hused r Hr) as (x & Hx & <-).
      rewrite map_fmap. apply list_elem_of_fmap. exists x. by rewrite Hperm. }
  csimpl. f_equal. unfold dims_dict. f_equal.
  apply map_ext. intros k. f_equal. f_equal.
  apply map_ext_in. intros r Hr%list_elem_of_In.
  f_equal. rewrite dict_of_items_nodup by (by rewrite graph_keys).
  rewrite (dict_get_nodup _ r (cnt r)).
  - simpl. unfold cnt. rewrite counter_get_Counter.
    rewrite length_filter_map, filter_filter_and. by apply dim_perm.
  - by rewrite graph_keys.
  - rewrite map_fmap. apply list_elem_of_fmap. by exists r.
Qed.

(** ** Filling the edge slots from the stubs *)

Lemma avail_set_eq st r l : avail (dict_set st r l) r = l.
Proof. unfold avail. by rewrite dict_get_set_eq. Qed.

Lemma avail_set_ne st r r' l : r ≠ r' → avail (dict_set st r l) r' = avail st r'.
Proof. intros H. unfold avail. by rewrite dict_get_set_ne. Qed.

Lemma pop_stubs_spec e r k acc :
  (k ≤ length (avail acc.2 r))%nat → stubs_by_role acc.2 →
  ∃ out st',
    pop_stubs e r k acc = Some (acc.1 ++ out, st') ∧
    slots out = replicate k (e, r) ∧
    avail st' r = drop k (avail acc.2 r) ∧
    (∀ r', r' ≠ r → avail st' r' = avail acc.2 r') ∧
    stubs_by_role st'.
Proof.
  revert acc. induction k as [|k IH]; intros [il st] Hk Hgood; simpl in *.
  - exists [], st. rewrite app_nil_r. done.
  - unfold avail in Hk. destruct (dict_get st r) as [[|to_add l']|] eqn:Hget;
      simpl in Hk; [lia| |lia].
    simpl.
    assert (avail st r = to_add :: l') as Hav by (unfold avail; by rewrite Hget).
    assert (stubs_by_role (dict_set st r l')) as Hgood'.
    { intros r' x Hx. destruct (decide (r = r')) as [<-|Hne].
      - rewrite avail_set_eq in Hx. apply Hgood. rewrite Hav. by right.
      - rewrite avail_set_ne in Hx by done. by apply Hgood. }
    destruct (IH (il ++ [mkInc to_add.1 to_add.2 e None], dict_set st r l'))
      as (out & st' & Hpop & Hslots & Hr & Hother & Hgood''); simpl.
    { rewrite avail_set_eq. lia. }
    { done. }
    exists (mkInc to_add.1 to_add.2 e None :: out), st'.
    simpl in *. rewrite Hpop, <- app_assoc. split; [done|].
    split.
    { unfold slots in *. simpl. rewrite Hslots. f_equal. f_equal.
      apply Hgood. rewrite Hav. by left. }
    split; [by rewrite Hr, avail_set_eq, Hav|].
    split; [|done].
    intros r' Hne. rewrite Hother by done. apply avail_set_ne. done.
Qed.

Lemma fill_edge_spec dims c rs acc e :
  (∀ r, r ∈ rs → dict_get dims e ≫= (λ de, dict_get de r) = Some (c e r)) →
  (∀ r, (edge_demand c rs e r ≤ length (avail acc.2 r))%nat) →
  stubs_by_role acc.2 →
  ∃ out st',
    fill_edge dims rs acc e = Some (acc.1 ++ out, st') ∧
    slots out = edge_plan c rs e ∧
    (∀ r, avail st' r = drop (edge_demand c rs e r) (avail acc.2 r)) ∧
    stubs_by_role st'.
Proof.
  unfold fill_edge, edge_plan, edge_demand.
  revert acc. induction rs as [|r rs IH]; intros acc Hdims Hdem Hgood; simpl.
  - exists [], acc.2. rewrite app_nil_r. by destruct acc.
  - assert (dict_get dims e ≫= (λ de, dict_get de r) = Some (c e r)) as Hr
      by (apply Hdims; by left).
    destruct (dict_get dims e) as [de|] eqn:Hde; [|done]. simpl in Hr.
    simpl. rewrite Hr. simpl.
    destruct (pop_stubs_spec e r (c e r) acc) as (out1 & st1 & Hpop & Hs1 & Hr1 & Ho1 & Hg1).
    { specialize (Hdem r). simpl in Hdem. rewrite decide_True in Hdem by done. lia. }
    { done. }
    rewrite Hpop. simpl.
    destruct (IH (acc.1 ++ out1, st1)) as (out2 & st2 & Hfill & Hs2 & Hr2 & Hg2).
    { intros r' Hr'. apply Hdims. by right. }
    { intros r'. simpl. specialize (Hdem r'). simpl in Hdem.
      destruct (decide (r = r')) as [<-|Hne].
      - rewrite Hr1, length_drop. lia.
      - rewrite Ho1 by done. lia. }
    { done. }
    simpl in *.
    exists (out1 ++ out2), st2. rewrite app_assoc.
    split; [exact Hfill|].
    split. { unfold slots in *. by rewrite map_app, Hs1, Hs2. }
    split; [|done].
    intros r'. rewrite Hr2.
    destruct (decide (r = r')) as [<-|Hne].
    + rewrite Hr1, drop_drop. f_equal; lia.
    + rewrite Ho1 by done. done.
Qed.

Lemma fill_edges_spec dims c rs es acc :
  (∀ e r, e ∈ es → r ∈ rs →
          dict_get dims e ≫= (λ de, dict_get de r) = Some (c e r)) →
  (∀ r, (demand c rs es r ≤ length (avail acc.2 r))%nat) →
  stubs_by_role acc.2 →
  ∃ out st',
    foldlM (fill_edge dims rs) acc es = Some (acc.1 ++ out, st') ∧
    slots out = plan c rs es.
Proof.
  unfold plan, demand.
  revert acc. induction es as [|e es IH]; intros acc Hdims Hdem Hgood; simpl.
  - exists [], acc.2. rewrite app_nil_r. by destruct acc.
  - destruct (fill_edge_spec dims c rs acc e) as (out1 & st1 & Hfill & Hs1 & Hr1 & Hg1).
    { intros r Hr. apply Hdims; [by left|done]. }
    { intros r. specialize (Hdem r). simpl in Hdem. lia. }
    { done. }
    rewrite Hfill. simpl.
    destruct (IH (acc.1 ++ out1, st1)) as (out2 & st2 & Hrest & Hs2).
    { intros e' r He' Hr. apply Hdims; [by right|done]. }
    { intros r. simpl. specialize (Hdem r). simpl in Hdem.
      rewrite Hr1, length_drop. lia. }
    { done. }
    simpl in *. exists (out1 ++ out2), st2. rewrite app_assoc.
    split; [done|]. unfold slots in *. by rewrite map_app, Hs1, Hs2.
Qed.

(** *** Counting *)

Lemma sum_list_zero {A} (l : list A) : sum_list (map (λ _, 0%nat) l) = 0%nat.
Proof. induction l; simpl; lia. Qed.

Lemma sum_list_plus {A} (a b : A → nat) (l : list A) :
  sum_list (map (λ x, (a x + b x)%nat) l)
  = (sum_list (map a l) + sum_list (map b l))%nat.
Proof. induction l; simpl; lia. Qed.

Lemma sum_indicator (es : list Z) (k : Z) (v : nat) :
  NoDup es →
  sum_list (map (λ e, if decide (e = k) then v else 0%nat) es)
  = if decide (k ∈ es) then v else 0%nat.
Proof.
  induction 1 as [|e es He Hnd IH]; simpl.
  - done.
  - rewrite IH. destruct (decide (e = k)) as [->|Hne].
    + rewrite decide_False by done. rewrite decide_True by (by left). lia.
    + destruct (decide (k ∈ es)) as [Hin|Hin].
      * rewrite decide_True by (by right). lia.
      * rewrite decide_False; [lia|]. intros [?|?]%elem_of_cons; congruence.
Qed.

Lemma edge_demand_declared c rs e r :
  NoDup rs → edge_demand c rs e r = if decide (r ∈ rs) then c e r else 0%nat.
Proof.
  intros Hnd. unfold edge_demand.
  rewrite <- (sum_indicator rs r (c e r) Hnd).
  f_equal. apply map_ext. intros r'. by destruct (decide (r' = r)) as [->|].
Qed.

(** Each element is counted under its own key. *)
Lemma sum_over_keys {A} (f : A → Z) (P : A → Prop) `{!∀ x, Decision (P x)}
    (es : list Z) (l : list A) :
  NoDup es → (∀ x, x ∈ l → f x ∈ es) →
  sum_list (map (λ e, length (filter (λ x, f x = e ∧ P x) l)) es)
  = length (filter P l).
Proof.
  intros Hnd. induction l as [|x l IH]; intros Hl.
  - simpl. apply sum_list_zero.
  - rewrite filter_cons.
    rewrite (map_ext _ (λ e, ((if decide (e = f x) then (if decide (P x) then 1 else 0) else 0)
                              + length (filter (λ x, f x = e ∧ P x) l))%nat)).
    2:{ intros e. rewrite filter_cons.
        destruct (decide (e = f x)) as [->|Hne], (decide (P x)) as [HP|HP].
        - by rewrite decide_True.
        - rewrite decide_False by (by intros [_ ?]). done.
        - rewrite decide_False by (by intros [? _]). done.
        - rewrite decide_False by (by intros [? _]). done. }
    rewrite sum_list_plus, sum_indicator by done.
    rewrite decide_True by (apply Hl; by left).
    rewrite IH by (intros y Hy; apply Hl; by right).
    by destruct (decide (P x)).
Qed.

Lemma filter_replicate_eq (p q : Z * Z) k :
  length (filter (λ x, x = q) (replicate k p)) = if decide (p = q) then k else 0%nat.
Proof.
  induction k as [|k IH]; simpl; [by destruct (decide _)|].
  rewrite filter_cons. destruct (decide (p = q)); simpl; by rewrite IH.
Qed.

Lemma length_filter_concat {A} (P : A → Prop) `{!∀ x, Decision (P x)} (ls : list (list A)) :
  length (filter P (concat ls)) = sum_list (map (λ l, length (filter P l)) ls).
Proof.
  induction ls as [|l ls IH]; simpl; [done|].
  by rewrite filter_app, length_app, IH.
Qed.

(** How often the slot [(k, r)] occurs in the plan. *)
Lemma plan_count c rs es k r :
  NoDup rs → NoDup es →
  length (filter (λ p, p = (k, r)) (plan c rs es))
  = if decide (k ∈ es) then (if decide (r ∈ rs) then c k r else 0%nat) else 0%nat.
Proof.
  intros Hrs Hes. unfold plan. rewrite length_filter_concat, map_map.
  rewrite <- (sum_indicator es k _ Hes). f_equal. apply map_ext. intros e.
  unfold edge_plan. rewrite length_filter_concat, map_map.
  destruct (decide (e = k)) as [->|Hne].
  - rewrite <- (sum_indicator rs r _ Hrs). f_equal. apply map_ext. intros r'.
    rewrite filter_replicate_eq.
    destruct (decide (r' = r)) as [->|Hne].
    + by rewrite decide_True.
    + rewrite decide_False by congruence. done.
  - rewrite <- (sum_list_zero rs). f_equal. apply map_ext. intros r'.
    rewrite filter_replicate_eq. rewrite decide_False by congruence. done.
Qed.

Lemma dim_slots il k r : dim il k r = length (filter (λ p, p = (k, r)) (slots il)).
Proof.
  unfold dim, slots. induction il as [|x il IH]; simpl; [done|].
  rewrite !filter_cons.
  destruct (decide (eid x = k ∧ role x = r)) as [[<- <-]|Hne].
  - rewrite decide_True by done. simpl. by rewrite IH.
  - rewrite decide_False; [done|]. intros [= ? ?]. by apply Hne.
Qed.

(** *** [np.unique] depends on the values only *)

Lemma remove_dups_sorted (Rel : relation Z) (l : list Z) :
  StronglySorted Rel l → StronglySorted Rel (remove_dups l).
Proof.
  induction 1 as [|x l Hl IH Hx]; simpl; [constructor|].
  destruct (decide_rel elem_of x l); [done|].
  constructor; [done|].
  rewrite Forall_forall in Hx |- *. intros y Hy. apply Hx.
  by apply elem_of_remove_dups.
Qed.

Lemma np_unique_sorted l : StronglySorted Z.le (np_unique l).
Proof.
  unfold np_unique. apply remove_dups_sorted.
  rewrite <- (map_id (stable_sort _ l)).
  apply (stable_sort_sorted_by (λ z, [z]) (λ z, z)). intros x. by eexists.
Qed.

Lemma np_unique_ext l l' : (∀ x, x ∈ l ↔ x ∈ l') → np_unique l = np_unique l'.
Proof.
  intros Hll'. apply (StronglySorted_unique Z.le); try apply np_unique_sorted.
  apply NoDup_Permutation; try apply np_unique_NoDup.
  intros x. by rewrite !np_unique_elem.
Qed.

Lemma dim_pos il k r : (0 < dim il k r)%nat ↔ ∃ x, x ∈ il ∧ eid x = k ∧ role x = r.
Proof.
  unfold dim. split.
  - intros Hpos.
    destruct (filter (λ x, eid x = k ∧ role x = r) il) as [|x l] eqn:Hf;
      [simpl in Hpos; lia|].
    assert (x ∈ filter (λ x, eid x = k ∧ role x = r) il) as Hx by (rewrite Hf; by left).
    apply list_elem_of_filter in Hx as [[? ?] ?]. by exists x.
  - intros (x & Hx & Hk & Hr).
    assert (x ∈ filter (λ x, eid x = k ∧ role x = r) il) as Hin
      by (by apply list_elem_of_filter).
    destruct (filter _ il); [by apply elem_of_nil in Hin|simpl; lia].
Qed.

Lemma eid_elem_dim il e : e ∈ map eid il ↔ ∃ r, (0 < dim il e r)%nat.
Proof.
  rewrite map_fmap, list_elem_of_fmap. split.
  - intros (x & -> & Hx). exists (role x). apply dim_pos. by exists x.
  - intros (r & (x & Hx & <- & _)%dim_pos). by exists x.
Qed.

Lemma role_elem_dim il r : (∃ x, x ∈ il ∧ role x = r) ↔ ∃ e, (0 < dim il e r)%nat.
Proof.
  split.
  - intros (x & Hx & <-). exists (eid x). apply dim_pos. by exists x.
  - intros (e & (x & Hx & _ & <-)%dim_pos). by exists x.
Qed.

(** The stubs waiting for a role in the dictionary built from a sorted list. *)
Lemma avail_groups (l : list (Z * Z)) r :
  StronglySorted Z.le (map snd l) →
  avail (dict_of_items (groupby snd l)) r = filter (λ p, p.2 = r) l.
Proof.
  intros Hs. unfold avail.
  destruct (decide (r ∈ map snd l)) as [Hin|Hin].
  - by rewrite sorted_groups_get.
  - assert (dict_get (dict_of_items (groupby snd l)) r = None) as ->.
    { apply dict_get_None. by rewrite dict_of_items_keys, groupby_keys. }
    simpl. destruct (filter (λ p, p.2 = r) l) as [|x l'] eqn:Hf; [done|].
    exfalso. assert (x ∈ filter (λ p : Z * Z, p.2 = r) l) as Hx by (rewrite Hf; by left).
    apply list_elem_of_filter in Hx as [Hx Hxl]. apply Hin.
    rewrite map_fmap. apply list_elem_of_fmap. by exists x.
Qed.

Lemma dims_dict_keys rs es c : NoDup es → dict_keys (dims_dict rs es c) = es.
Proof.
  intros Hes. unfold dims_dict, dict_keys.
  rewrite dict_of_items_nodup by (by rewrite graph_keys). apply graph_keys.
Qed.

Lemma dims_dict_get rs es c e r :
  NoDup rs → NoDup es → e ∈ es → r ∈ rs →
  dict_get (dims_dict rs es c) e ≫= (λ de, dict_get de r) = Some (c e r).
Proof.
  intros Hrs Hes He Hr. unfold dims_dict.
  rewrite dict_of_items_nodup by (by rewrite graph_keys).
  rewrite (dict_get_nodup _ e (dict_of_items (map (λ r, (r, c e r)) rs))).
  - simpl. rewrite dict_of_items_nodup by (by rewrite graph_keys).
    apply dict_get_nodup; [by rewrite graph_keys|].
    rewrite map_fmap. apply list_elem_of_fmap. by exists r.
  - by rewrite graph_keys.
  - rewrite map_fmap. apply list_elem_of_fmap. by exists e.
Qed.

Section StubMatchingFacts.
Context {W : Type} (shuffle : list (Z * Z) → list (Z * Z)).
(** [random.shuffle] rearranges: its result has the elements of its argument. *)
Hypothesis shuffle_perm : ∀ l, shuffle l ≡ₚ l.

(** C6, as the code has it. On a store whose roles are declared without
    repetition, whose incidences all hold declared roles, whose declared
    roles are each held by some incidence and whose [edge_list] is current,
    [stub_matching] returns a new store with the same
    [edge_dimensions(by_role=True)]: the same count for every edge and every
    role, over the same edges. The original store keeps its incidences,
    roles, derived state, matrix and tracked sort key; its incidence list is
    left sorted by role. *)
Theorem stub_matching_keeps_dimensions (s : AnnotatedHypergraph W) :
  sort_key s ≠ Some (sort_key_of [Frole]) →
  edge_list s = np_unique (map eid (IL s)) →
  NoDup (roles s) →
  (∀ x, x ∈ IL s → role x ∈ roles s) →
  (∀ r, r ∈ roles s → ∃ x, x ∈ IL s ∧ role x = r) →
  ∃ a D,
    stub_matching shuffle s = (sort [Frole] false s, Some a) ∧
    (edge_dimensions_by_role s).2 = Some D ∧
    (edge_dimensions_by_role a).2 = Some D ∧
    (∀ k r, dim (IL a) k r = dim (IL s) k r) ∧
    edge_list a = edge_list s ∧
    roles a = roles s ∧
    (let s1 := sort [Frole] false s in
     IL s1 = stable_sort (λ x, [role x]) (IL s) ∧ IL s1 ≡ₚ IL s ∧
     roles s1 = roles s ∧ node_list s1 = node_list s ∧ edge_list s1 = edge_list s ∧
     n s1 = n s ∧ m s1 = m s ∧ R s1 = R s ∧ sort_key s1 = sort_key s).
Proof.
  intros Hkey Hel Hnd Hdecl Hused.
  pose proof (edge_dimensions_by_role_spec s Hkey Hnd Hused) as Hdims.
  set (s1 := sort [Frole] false s) in *.
  set (D := dims_dict (roles s) (edge_list s) (dim (IL s))) in *.
  assert (IL s1 = stable_sort (λ x, [role x]) (IL s) ∧ roles s1 = roles s ∧
          node_list s1 = node_list s ∧ edge_list s1 = edge_list s ∧
          n s1 = n s ∧ m s1 = m s ∧ R s1 = R s ∧ sort_key s1 = sort_key s)
    as (HIL1 & Hrs1 & Hnl1 & Hel1 & Hn1 & Hm1 & HR1 & Hsk1).
  { unfold s1, sort, sort_skips. by rewrite bool_decide_eq_false_2. }
  assert (IL s1 ≡ₚ IL s) as Hperm by apply IL_sort_perm.
  assert (NoDup (edge_list s)) as Hes by (rewrite Hel; apply np_unique_NoDup).
  assert (∀ x, x ∈ IL s → eid x ∈ edge_list s) as Heids.
  { intros x Hx. rewrite Hel, np_unique_elem, map_fmap.
    apply list_elem_of_fmap. by exists x. }
  set (sorted := py_sort (λ e : Z * Z, [e.2]) false (shuffle (map stub_of (IL s1)))).
  assert (sorted ≡ₚ map stub_of (IL s)) as Hsorted_perm.
  { unfold sorted. by rewrite py_sort_perm, shuffle_perm, Hperm. }
  assert (StronglySorted Z.le (map snd sorted)) as Hsorted.
  { unfold sorted. simpl. apply stable_sort_sorted_by. intros x. by eexists. }
  set (st0 := dict_of_items (groupby snd sorted)).
  destruct (fill_edges_spec D (dim (IL s)) (roles s) (edge_list s) ([], st0))
    as (out & st' & Hfill & Hslots).
  { intros e r He Hr. by apply dims_dict_get. }
  { intros r. simpl. unfold st0. rewrite avail_groups by done.
    rewrite Hsorted_perm. unfold demand.
    rewrite (map_ext _ (λ e, if decide (r ∈ roles s) then dim (IL s) e r else 0%nat))
      by (intros e; by apply edge_demand_declared).
    destruct (decide (r ∈ roles s)); [|rewrite sum_list_zero; lia].
    unfold dim. rewrite (sum_over_keys eid (λ x, role x = r)) by done.
    apply Nat.eq_le_incl. clear.
    induction (IL s) as [|x il IH]; simpl; [done|].
    rewrite !filter_cons. simpl. destruct (decide (role x = r)); simpl; by rewrite IH. }
  { intros r x. simpl. unfold st0. rewrite avail_groups by done.
    by intros [? _]%list_elem_of_filter. }
  simpl in Hfill.
  set (a := set_states (with_IL s1 out)).
  assert (∀ k r, dim out k r = dim (IL s) k r) as Hdim.
  { intros k r. rewrite dim_slots, Hslots, plan_count by done.
    destruct (decide (k ∈ edge_list s)) as [Hk|Hk].
    - destruct (decide (r ∈ roles s)) as [Hr|Hr]; [done|].
      destruct (dim (IL s) k r) eqn:Hd; [done|].
      assert (0 < dim (IL s) k r)%nat as (x & Hx & _ & <-)%dim_pos by lia.
      destruct Hr. by apply Hdecl.
    - destruct (dim (IL s) k r) eqn:Hd; [done|].
      assert (0 < dim (IL s) k r)%nat as (x & Hx & <- & _)%dim_pos by lia.
      destruct Hk. by apply Heids. }
  assert (edge_list a = edge_list s) as Hela.
  { unfold a. simpl. rewrite Hel. apply np_unique_ext. intros e.
    rewrite !eid_elem_dim. by setoid_rewrite Hdim. }
  exists a, D.
  split.
  { unfold stub_matching. rewrite Hdims. simpl.
    rewrite Hrs1. unfold D at 2. rewrite dims_dict_keys by done.
    fold D.
    change (stable_sort (λ e : Z * Z, [e.2]) (shuffle (map stub_of (IL s1)))) with sorted.
    fold st0. rewrite Hfill. done. }
  split; [by rewrite Hdims|].
  split.
  { rewrite (edge_dimensions_by_role_spec a).
    - cbn [snd]. f_equal. rewrite Hela. change (roles a) with (roles s1). rewrite Hrs1.
      change (IL a) with out. unfold D, dims_dict. f_equal.
      apply map_ext. intros k. f_equal. f_equal.
      apply map_ext. intros r. f_equal. apply Hdim.
    - done.
    - change (roles a) with (roles s1). by rewrite Hrs1.
    - change (roles a) with (roles s1). rewrite Hrs1. intros r Hr.
      apply role_elem_dim. change (IL a) with out. setoid_rewrite Hdim.
      apply role_elem_dim. by apply Hused. }
  split; [exact Hdim|].
  split; [done|]. split; [done|].
  done.
Qed.
End StubMatchingFacts.

(** C6, as stated, fails: on [unsorted_roles] the call returns a new store,
    and the original store is not what it was: its incidence list has been
    put in the order of the roles. *)
Lemma stub_matching_reorders_original :
  is_Some (stub_matching (λ l, l) unsorted_roles).2 ∧
  (stub_matching (λ l, l) unsorted_roles).1 ≠ unsorted_roles ∧
  IL unsorted_roles = [mkInc 1 1 0 None; mkInc 2 0 0 None] ∧
  IL (stub_matching (λ l, l) unsorted_roles).1 = [mkInc 2 0 0 None; mkInc 1 1 0 None].
Proof.
  split; [by eexists|]. split; [|done].
  intros H. apply (f_equal IL) in H. vm_compute in H. discriminate.
Qed.

(** A declared role that no incidence holds: [edge_dimensions(by_role=True)]
    raises [KeyError], and so does [stub_matching]. *)
Example stub_matching_unused_role :
  (stub_matching (λ l, l)
     (init [mkInc 1 1 0 None; mkInc 2 0 0 None] [0; 1; 2] : AnnotatedHypergraph Z)).2
  = None.
Proof. reflexivity. Qed.

Lemma stub_matching_keeps_dimensions_witness :
  (∀ l : list (Z * Z), rev l ≡ₚ l) ∧
  sort_key two_edges ≠ Some (sort_key_of [Frole]) ∧
  edge_list two_edges = np_unique (map eid (IL two_edges)) ∧
  NoDup (roles two_edges) ∧
  (∀ x, x ∈ IL two_edges → role x ∈ roles two_edges) ∧
  (∀ r, r ∈ roles two_edges → ∃ x, x ∈ IL two_edges ∧ role x = r) ∧
  ∃ a D,
    stub_matching (@rev (Z * Z)) two_edges = (sort [Frole] false two_edges, Some a) ∧
    (edge_dimensions_by_role two_edges).2 = Some D ∧
    (edge_dimensions_by_role a).2 = Some D.
Proof.
  assert (∀ l : list (Z * Z), rev l ≡ₚ l) as H1.
  { intros l. symmetry. apply Permutation_rev. }
  assert (sort_key two_edges ≠ Some (sort_key_of [Frole])) as H2 by done.
  assert (edge_list two_edges = np_unique (map eid (IL two_edges))) as H3 by reflexivity.
  assert (NoDup (roles two_edges)) as H4.
  { change (roles two_edges) with [0; 1]. apply (bool_decide_unpack _). reflexivity. }
  assert (∀ x, x ∈ IL two_edges → role x ∈ roles two_edges) as H5.
  { apply Forall_forall. change (roles two_edges) with [0; 1].
    change (IL two_edges) with [mkInc 0 0 0 None; mkInc 1 0 1 None; mkInc 2 1 1 None].
    apply (bool_decide_unpack _). reflexivity. }
  assert (∀ r, r ∈ roles two_edges → ∃ x, x ∈ IL two_edges ∧ role x = r) as H6.
  { apply Forall_forall. change (roles two_edges) with [0; 1].
    change (IL two_edges) with [mkInc 0 0 0 None; mkInc 1 0 1 None; mkInc 2 1 1 None].
    repeat constructor.
    - exists (mkInc 0 0 0 None). split; [|done]. by left.
    - exists (mkInc 2 1 1 None). split; [|done]. by do 2 right; left. }
  do 6 (split; [assumption|]).
  destruct (stub_matching_keeps_dimensions (@rev (Z * Z)) H1 two_edges H2 H3 H4 H5 H6)
    as (a & D & Ha & Hs & Hb & _).
  by exists a, D.
Defined.

(** ** Degenerate edges of a store *)

Lemma check_degenerate_perm E E' : E ≡ₚ E' → check_degenerate E = check_degenerate E'.
Proof.
  intros HE.
  destruct (check_degenerate E) eqn:H1, (check_degenerate E') eqn:H2; try done.
  - apply check_degenerate_true in H1. apply check_degenerate_false in H2.
    destruct H1. by rewrite HE.
  - apply check_degenerate_false in H1. apply check_degenerate_true in H2.
    destruct H2. by rewrite <- HE.
Qed.

Lemma degenerate_count_perm il il' : il ≡ₚ il' → degenerate_count il = degenerate_count il'.
Proof.
  intros H. unfold degenerate_count.
  rewrite (np_unique_ext (map eid il) (map eid il')) by (intros x; by rewrite H).
  f_equal. apply list_filter_iff. intros k.
  rewrite (check_degenerate_perm (filter (λ x, eid x = k) il) (filter (λ x, eid x = k) il'))
    by (by rewrite H).
  done.
Qed.

Lemma sorted_lt_le (l : list Z) : StronglySorted Z.lt l → StronglySorted Z.le l.
Proof.
  induction 1 as [|x l Hl IH Hx]; constructor; [done|].
  eapply Forall_impl; [exact Hx|]. intros; simpl in *; lia.
Qed.

(** The group keys of a list ordered by edge id are [np.unique] of the ids. *)
Lemma groupby_sorted_keys_unique (l : list NodeEdgeIncidence) :
  StronglySorted Z.le (map eid l) → (groupby eid l).*1 = np_unique (map eid l).
Proof.
  intros Hs. apply (StronglySorted_unique Z.le).
  - by apply sorted_lt_le, groupby_sorted_keys.
  - apply np_unique_sorted.
  - apply NoDup_Permutation.
    + by apply groupby_sorted_NoDup.
    + apply np_unique_NoDup.
    + intros k. by rewrite groupby_keys, np_unique_elem.
Qed.

(** On a list ordered by edge id the groups count as [degenerate_count] says. *)
Lemma degenerate_edges_groupby (l : list NodeEdgeIncidence) :
  StronglySorted Z.le (map eid l) →
  degenerate_edges (groupby eid l) = degenerate_count l.
Proof.
  intros Hs. unfold degenerate_edges, degenerate_count, dict_values.
  rewrite <- groupby_sorted_keys_unique by done.
  rewrite (groupby_filter eid l) at 1 by (by apply groupby_sorted_NoDup).
  induction ((groupby eid l).*1) as [|k ks IH]; csimpl; [done|].
  rewrite !filter_cons. csimpl. destruct (decide _); simpl; by rewrite IH.
Qed.

(** [count_degeneracies] returns [degenerate_count] of the incidence list. *)
Lemma count_degeneracies_spec {W} (s : AnnotatedHypergraph W) :
  sort_key s ≠ Some (sort_key_of [Feid]) →
  (count_degeneracies s).2 = degenerate_count (IL s).
Proof.
  intros Hkey. unfold count_degeneracies. cbn [snd].
  change (length (filter _ (map snd ?d))) with (degenerate_edges d).
  rewrite degenerate_edges_groupby.
  - apply degenerate_count_perm, IL_sort_perm.
  - unfold sort, sort_skips. rewrite bool_decide_eq_false_2 by done. simpl.
    apply stable_sort_sorted_by. intros x. by eexists.
Qed.

Lemma dict_set_Forall {V} (P : Z * V → Prop) (d : dict V) k v :
  Forall P d → P (k, v) → Forall P (dict_set d k v).
Proof.
  intros Hd Hkv. induction Hd as [|[k0 v0] d H0 Hd IH]; simpl.
  - by repeat constructor.
  - destruct (decide (k0 = k)); by constructor.
Qed.

Lemma proposal_keyed E k a b key :
  E !! k = Some a →
  E ≠ [] ∧ Forall (λ x, eid x = key) E →
  proposal E k a b ≠ [] ∧ Forall (λ x, eid x = key) (proposal E k a b).
Proof.
  intros Ha [Hne HE]. unfold proposal. split.
  - destruct E; [done|]. by destruct k.
  - apply Forall_insert; [done|]. simpl.
    rewrite Forall_forall in HE. apply HE. by eapply list_elem_of_lookup_2.
Qed.

Lemma accepted_well_keyed m_ rl d edges edges' :
  attempt m_ rl d edges = Accepted edges' → well_keyed edges → well_keyed edges'.
Proof.
  intros Hacc [Hkeys Hgroups]. split; [by rewrite (accepted_keys _ _ _ _ _ Hacc)|].
  apply attempt_accepted in Hacc
    as (i & j & E0 & E1 & k & l & a & b & _ & _ & HE0 & HE1 & Ha & Hb & _ & _ & _ & ->).
  rewrite Forall_forall in Hgroups.
  apply dict_set_Forall; [apply dict_set_Forall|].
  - by apply Forall_forall.
  - apply proposal_keyed; [done|]. by apply (Hgroups (Z.of_nat i, E0)), dict_get_elem_of.
  - apply proposal_keyed; [done|]. by apply (Hgroups (Z.of_nat j, E1)), dict_get_elem_of.
Qed.

Lemma edges_of_well_keyed {W} (s : AnnotatedHypergraph W) :
  sort_key s ≠ Some (sort_key_of [Feid; Frole]) → well_keyed (edges_of s).
Proof.
  intros Hkey. destruct (edges_of_flatten s Hkey) as (-> & _ & _).
  split; [|apply groupby_groups].
  apply groupby_sorted_keys. unfold sort, sort_skips.
  rewrite bool_decide_eq_false_2 by done. simpl.
  apply stable_sort_sorted_by. intros x. by eexists.
Qed.

(** A run of equal keys in front of a list that starts with another key is
    a group of its own. *)
Lemma groupby_prepend_run {A} (f : A → Z) (g rest : list A) k :
  g ≠ [] → Forall (λ x, f x = k) g →
  (∀ kg, head (groupby f rest) = Some kg → kg.1 ≠ k) →
  groupby f (g ++ rest) = (k, g) :: groupby f rest.
Proof.
  intros Hne Hg Hhead. induction Hg as [|x g Hx Hg IH]; [done|]. simpl.
  destruct g as [|y g].
  - simpl. destruct (groupby f rest) as [|[k' g'] gs] eqn:Hrest; [by rewrite Hx|].
    rewrite decide_False; [by rewrite Hx|].
    rewrite Hx. intros Heq. by apply (Hhead (k', g') eq_refl).
  - rewrite IH by done. by rewrite decide_True.
Qed.

Lemma groupby_flatten d : well_keyed d → groupby eid (flatten d) = d.
Proof.
  unfold flatten, dict_values. intros [Hkeys Hgroups].
  induction Hgroups as [|[k g] d [Hne Hg] Hd IH]; csimpl; [done|].
  csimpl in Hkeys. apply StronglySorted_inv in Hkeys as [Hkeys Hk].
  simpl in *. specialize (IH Hkeys).
  rewrite (groupby_prepend_run eid g _ k); [by rewrite IH|done|done|].
  rewrite IH. intros [k' g'] Hhead. destruct d as [|[k'' g''] d]; [done|].
  simpl in Hhead. injection Hhead as -> ->. csimpl in Hk.
  apply Forall_cons in Hk as [Hk _]. simpl. lia.
Qed.

Lemma flatten_sorted d : well_keyed d → StronglySorted Z.le (map eid (flatten d)).
Proof.
  unfold flatten, dict_values. intros [Hkeys Hgroups].
  induction Hgroups as [|[k g] d [Hne Hg] Hd IH]; csimpl; [constructor|].
  csimpl in Hkeys. apply StronglySorted_inv in Hkeys as [Hkeys Hk].
  simpl in *. specialize (IH Hkeys). rewrite map_app.
  apply StronglySorted_app. split; [|split; [|done]].
  - intros x1 x2 Hx1 Hx2. rewrite map_fmap in Hx1, Hx2.
    apply list_elem_of_fmap in Hx1 as (y1 & -> & Hy1).
    apply list_elem_of_fmap in Hx2 as (y2 & -> & Hy2).
    rewrite Forall_forall in Hg. rewrite (Hg y1 Hy1).
    apply elem_of_concat in Hy2 as (g2 & Hg2 & Hy2).
    apply list_elem_of_fmap in Hg2 as ([k2 g2'] & -> & Hkg2). simpl in *.
    rewrite Forall_forall in Hd. destruct (Hd _ Hkg2) as [_ Hall]. simpl in Hall.
    rewrite Forall_forall in Hall. rewrite (Hall y2 Hy2).
    rewrite Forall_forall in Hk. assert (k < k2); [|lia].
    apply Hk. apply list_elem_of_fmap. by exists (k2, g2').
  - clear -Hg. induction Hg as [|x g Hx Hg IH]; simpl; constructor; [done|].
    apply Forall_map. eapply Forall_impl; [exact Hg|]. intros y Hy. simpl in *. lia.
Qed.

(** The number of degenerate edges of a well-keyed dictionary is the count of
    its incidence list. *)
Lemma degenerate_edges_flatten d :
  well_keyed d → degenerate_edges d = degenerate_count (flatten d).
Proof.
  intros Hd. rewrite <- (groupby_flatten d Hd) at 1.
  by apply degenerate_edges_groupby, flatten_sorted.
Qed.

(** C2. A proposal that would leave one of the two edges it touches
    degenerate is rejected; after an accepted step both of these edges are
    not degenerate, so an accepted step never leaves more degenerate edges
    than the state before it had, and neither does a run of the loop. For a
    store this reads: at whatever point a run ends, and in the store the call
    leaves, [count_degeneracies] is at most what it was before the call, and
    it is 0 when the sampler starts from a hypergraph without degenerate
    edges. *)
Theorem degenerate_count_never_grows {W} (role_labels : bool) :
  (∀ m_ d edges i j E0 E1 k l a b,
     randint m_ (raw_i d) = Some i → randint m_ (raw_j d) = Some j →
     dict_get edges (Z.of_nat i) = Some E0 → dict_get edges (Z.of_nat j) = Some E1 →
     randint (length E0) (raw_k d) = Some k → randint (length E1) (raw_l d) = Some l →
     E0 !! k = Some a → E1 !! l = Some b →
     check_degenerate (proposal E0 k a b) || check_degenerate (proposal E1 l b a) = true →
     attempt m_ role_labels d edges = Rejected) ∧
  (∀ m_ d edges edges',
     attempt m_ role_labels d edges = Accepted edges' →
     (degenerate_edges edges' ≤ degenerate_edges edges)%nat ∧
     ∃ i j E0' E1',
       randint m_ (raw_i d) = Some i ∧ randint m_ (raw_j d) = Some j ∧
       dict_get edges' (Z.of_nat i) = Some E0' ∧ dict_get edges' (Z.of_nat j) = Some E1' ∧
       check_degenerate E0' = false ∧ check_degenerate E1' = false) ∧
  (∀ m_ n_steps draws edges N kr,
     (degenerate_edges (run_edges (mcmc_loop m_ role_labels n_steps draws edges N kr))
      ≤ degenerate_edges edges)%nat) ∧
  (∀ (s : AnnotatedHypergraph W) n_steps draws,
     sort_key s = None →
     let during := flatten (run_edges (degeneracy_avoiding_run n_steps role_labels draws s)) in
     let after := _degeneracy_avoiding_MCMC n_steps role_labels draws s in
     (degenerate_count during ≤ (count_degeneracies s).2)%nat ∧
     ((count_degeneracies after).2 ≤ (count_degeneracies s).2)%nat ∧
     ((count_degeneracies s).2 = 0%nat →
      degenerate_count during = 0%nat ∧ (count_degeneracies after).2 = 0%nat)).
Proof.
  split; [intros m_; apply (loop_degenerate_edges m_ role_labels)|].
  split; [intros m_; apply (loop_degenerate_edges m_ role_labels)|].
  split; [intros m_; apply (loop_degenerate_edges m_ role_labels)|].
  intros s n_steps draws Hnone during after.
  assert (sort_key s ≠ Some (sort_key_of [Feid; Frole])) as Hk1 by (by rewrite Hnone).
  assert (sort_key s ≠ Some (sort_key_of [Feid])) as Hk2 by (by rewrite Hnone).
  set (run := degeneracy_avoiding_run n_steps role_labels draws s) in *.
  set (s2 := sort [Feid; Frole] false s).
  assert (well_keyed (run_edges run)) as Hwk.
  { unfold run, degeneracy_avoiding_run.
    apply (mcmc_loop_invariant well_keyed); [|by apply edges_of_well_keyed].
    intros d e e' He Hacc. by eapply accepted_well_keyed. }
  assert (degenerate_count (IL s2) = degenerate_count (IL s)) as Hs2.
  { apply degenerate_count_perm, IL_sort_perm. }
  assert (degenerate_edges (edges_of s) = degenerate_count (IL s)) as Hinit.
  { rewrite degenerate_edges_flatten by (by apply edges_of_well_keyed).
    destruct (edges_of_flatten s Hk1) as (_ & _ & ->). exact Hs2. }
  assert (degenerate_count during ≤ degenerate_count (IL s))%nat as Hduring.
  { unfold during. rewrite <- degenerate_edges_flatten, <- Hinit by done.
    apply (loop_degenerate_edges (m s) role_labels). }
  assert ((count_degeneracies after).2 ≤ degenerate_count (IL s))%nat as Hafter.
  { rewrite count_degeneracies_spec.
    2:{ unfold after, _degeneracy_avoiding_MCMC.
        destruct (degeneracy_avoiding_run _ _ _ _); simpl; by rewrite sort_key_sort, Hnone. }
    unfold after, _degeneracy_avoiding_MCMC. fold run. fold s2.
    destruct run eqn:Hrun; simpl in *; [exact Hduring| |]; by rewrite Hs2. }
  rewrite count_degeneracies_spec by done.
  split; [done|]. split; [done|]. intros H0. lia.
Qed.

Lemma degenerate_count_never_grows_witness :
  sort_key two_edges = None ∧
  (count_degeneracies two_edges).2 = 0%nat ∧
  (count_degeneracies (_degeneracy_avoiding_MCMC 2 true four_draws two_edges)).2 = 0%nat.
Proof.
  assert (sort_key two_edges = None) as H by reflexivity.
  assert ((count_degeneracies two_edges).2 = 0%nat) as H0 by reflexivity.
  split; [exact H|]. split; [exact H0|].
  pose proof (proj2 (proj2 (proj2 (degenerate_count_never_grows (W := Z) true)))
                two_edges 2 four_draws H) as T.
  exact (proj2 (proj2 (proj2 T) H0)).
Defined.

(** * Further properties of the code *)

(** ** The degeneracy-avoiding sampler: special draws and special inputs *)

(** X1. When both draws name the same edge, the proposal is accepted exactly when
    they also name the same slot and the edge is not degenerate; the accepted
    step then changes nothing, and still counts. Every other draw on one edge
    is rejected. *)
Theorem same_edge_draw m_ rl d edges (i k l : nat) E :
  randint m_ (raw_i d) = Some i → randint m_ (raw_j d) = Some i →
  dict_get edges (Z.of_nat i) = Some E →
  randint (length E) (raw_k d) = Some k → randint (length E) (raw_l d) = Some l →
  attempt m_ rl d edges
  = if bool_decide (k = l) && negb (check_degenerate E) then Accepted edges else Rejected.
Proof.
  intros Hi Hj HE Hk Hl. unfold attempt. rewrite Hi, Hj, HE, Hk, Hl.
  assert (∀ raw x, randint (length E) raw = Some x → is_Some (E !! x)) as Hin.
  { intros raw x. unfold randint. case_decide; [done|]. intros [= <-].
    apply lookup_lt_is_Some. by apply Nat.mod_upper_bound. }
  destruct (Hin _ _ Hk) as [a Ha]. destruct (Hin _ _ Hl) as [b Hb]. rewrite Ha, Hb.
  destruct (decide (k = l)) as [->|Hne].
  - assert (a = b) as -> by congruence.
    rewrite (bool_decide_eq_true_2 (l = l)) by done.
    rewrite (bool_decide_eq_false_2 (role b ≠ role b)) by (by intros ?).
    rewrite andb_false_r.
    assert (proposal E l b b = E) as ->.
    { unfold proposal. destruct b. by apply list_insert_id. }
    destruct (check_degenerate E); simpl; [done|].
    f_equal. rewrite dict_set_set. by apply dict_set_id.
  - rewrite (bool_decide_eq_false_2 (k = l)) by done. simpl.
    destruct (rl && _); [done|].
    destruct (check_degenerate (proposal E k a b)) eqn:Hd; [done|].
    by destruct (same_edge_proposal E k l a b Ha Hb Hd) as [? _].
Qed.

Lemma same_edge_draw_witness :
  attempt 2 true (mkDraw 1 1 0 1) (edges_of two_edges) = Rejected.
Proof.
  exact (same_edge_draw 2 true (mkDraw 1 1 0 1) (edges_of two_edges) 1 0 1
           [mkInc 1 0 1 None; mkInc 2 1 1 None] eq_refl eq_refl eq_refl eq_refl eq_refl).
Defined.

(** X2. With [n_steps <= 0] the loop body is never entered: no draw is used, and
    the call only leaves the incidence list sorted by [(eid, role)]. *)
Theorem no_steps_only_sorts {W} (s : AnnotatedHypergraph W) rl n_steps draws :
  n_steps ≤ 0 →
  sort_key s ≠ Some (sort_key_of [Feid; Frole]) →
  degeneracy_avoiding_run n_steps rl draws s = Finished (edges_of s) 0 0 ∧
  _degeneracy_avoiding_MCMC n_steps rl draws s
  = with_IL s (stable_sort (λ x, [eid x; role x]) (IL s)).
Proof.
  intros Hn Hkey.
  assert (degeneracy_avoiding_run n_steps rl draws s = Finished (edges_of s) 0 0) as Hrun.
  { unfold degeneracy_avoiding_run. destruct draws; simpl; by rewrite decide_False by lia. }
  split; [done|].
  unfold _degeneracy_avoiding_MCMC. rewrite Hrun.
  destruct (edges_of_flatten s Hkey) as (_ & _ & ->).
  unfold sort, sort_skips. by rewrite bool_decide_eq_false_2.
Qed.

Lemma no_steps_only_sorts_witness :
  0 ≤ 0 ∧ sort_key two_edges ≠ Some (sort_key_of [Feid; Frole]) ∧
  degeneracy_avoiding_run 0 true four_draws two_edges = Finished (edges_of two_edges) 0 0.
Proof.
  assert (0 ≤ 0) as H1 by lia.
  assert (sort_key two_edges ≠ Some (sort_key_of [Feid; Frole])) as H2 by done.
  split; [exact H1|]. split; [exact H2|].
  exact (proj1 (no_steps_only_sorts two_edges true 0 four_draws H1 H2)).
Defined.

(** X3. On a store without edges ([m = 0]) the first pass through the loop body
    raises [ValueError], at the draw of the two edge indices: a call with
    [n_steps >= 1] fails before any proposal. *)
Theorem empty_store_raises {W} (s : AnnotatedHypergraph W) rl n_steps d draws :
  m s = 0%nat → 0 < n_steps →
  attempt (m s) rl d (edges_of s) = Raised ValueError ∧
  degeneracy_avoiding_run n_steps rl (d :: draws) s = Failed ValueError (edges_of s) 0 0.
Proof.
  intros Hm Hn.
  assert (attempt (m s) rl d (edges_of s) = Raised ValueError) as Hatt.
  { rewrite Hm. done. }
  split; [done|]. unfold degeneracy_avoiding_run. simpl.
  rewrite decide_True by done. by rewrite Hatt.
Qed.

Lemma empty_store_raises_witness :
  m no_edges = 0%nat ∧ 0 < 1 ∧
  degeneracy_avoiding_run 1 true four_draws no_edges = Failed ValueError [] 0 0.
Proof.
  assert (m no_edges = 0%nat) as H1 by reflexivity.
  assert (0 < 1) as H2 by lia.
  split; [exact H1|]. split; [exact H2|].
  exact (proj2 (empty_store_raises no_edges true 1 (mkDraw 0 1 0 0) _ H1 H2)).
Defined.

(** ** The sampler changes node ids only *)

Lemma map_insert_same {A B} (F : A → B) (l : list A) k a x :
  l !! k = Some a → F x = F a → map F (<[k:=x]> l) = map F l.
Proof.
  intros Ha HF. rewrite !map_fmap, list_fmap_insert, HF.
  apply list_insert_id. by rewrite list_lookup_fmap, Ha.
Qed.

Lemma flatten_set_same {B} (F : NodeEdgeIncidence → B) d k v v' :
  dict_get d k = Some v → map F v' = map F v →
  map F (flatten (dict_set d k v')) = map F (flatten d).
Proof.
  unfold flatten, dict_values. intros Hget HF.
  induction d as [|[k0 v0] d IH]; simpl in *; [done|].
  destruct (decide (k0 = k)) as [->|Hne]; csimpl.
  - injection Hget as ->. by rewrite !map_app, HF.
  - rewrite !map_app, IH by done. done.
Qed.

(** An accepted step leaves every reading of the slots as it was, position
    by position. *)
Lemma accepted_same_slots m_ rl d edges edges' :
  attempt m_ rl d edges = Accepted edges' →
  map slot_of (flatten edges') = map slot_of (flatten edges).
Proof.
  intros (i & j & E0 & E1 & k & l & a & b & _ & _ & HE0 & HE1 & Ha & Hb & _ & _ & _ & ->)
    %attempt_accepted.
  assert (map slot_of (proposal E0 k a b) = map slot_of E0) as H0
    by (by apply map_insert_same with a).
  assert (map slot_of (proposal E1 l b a) = map slot_of E1) as H1
    by (by apply map_insert_same with b).
  destruct (decide (i = j)) as [->|Hne].
  - rewrite dict_set_set. apply flatten_set_same with E0; [done|].
    assert (E1 = E0) as <- by congruence. done.
  - rewrite (flatten_set_same _ _ _ E1); [by apply flatten_set_same with E0| |done].
    rewrite dict_get_set_ne by lia. done.
Qed.

Lemma count_nid_perm (il il' : list NodeEdgeIncidence) v :
  map nid il ≡ₚ map nid il' →
  length (filter (λ z, z = v) (map nid il)) = length (filter (λ z, z = v) (map nid il')).
Proof. intros H. by rewrite H. Qed.

Lemma slots_of_slot_of il : slots il = map (λ t : Z * Z * option Z, (t.1.2, t.1.1)) (map slot_of il).
Proof. unfold slots. rewrite map_map. done. Qed.

(** The slots and the node ids the sampler leaves, in either mode. *)
Lemma sampler_slots_and_nids {W} (s : AnnotatedHypergraph W) rl n_steps draws :
  sort_key s ≠ Some (sort_key_of [Feid; Frole]) →
  let t := _degeneracy_avoiding_MCMC n_steps rl draws s in
  map slot_of (IL t) = map slot_of (stable_sort (λ x, [eid x; role x]) (IL s)) ∧
  map nid (IL t) ≡ₚ map nid (IL s).
Proof.
  intros Hkey t.
  destruct (edges_of_flatten s Hkey) as (_ & _ & Hflat).
  assert (IL (sort [Feid; Frole] false s) = stable_sort (λ x, [eid x; role x]) (IL s))
    as Hsort.
  { unfold sort, sort_skips. by rewrite bool_decide_eq_false_2. }
  set (run := degeneracy_avoiding_run n_steps rl draws s).
  assert (map slot_of (flatten (run_edges run))
          = map slot_of (stable_sort (λ x, [eid x; role x]) (IL s))) as Hslots.
  { unfold run, degeneracy_avoiding_run.
    apply (mcmc_loop_invariant
             (λ e, map slot_of (flatten e)
                   = map slot_of (stable_sort (λ x, [eid x; role x]) (IL s)))).
    - intros d e e' He Hacc. by rewrite (accepted_same_slots _ _ _ _ _ Hacc).
    - by rewrite Hflat, Hsort. }
  assert (map nid (flatten (run_edges run)) ≡ₚ map nid (IL s)) as Hnids.
  { unfold run, degeneracy_avoiding_run.
    apply (mcmc_loop_invariant (λ e, map nid (flatten e) ≡ₚ map nid (IL s))).
    - intros d e e' He Hacc. rewrite <- He. eapply accepted_preserves; [|exact Hacc].
      intros a b _. simpl. apply Permutation_swap.
    - by rewrite Hflat, IL_sort_perm. }
  unfold t, _degeneracy_avoiding_MCMC. fold run.
  destruct run; simpl in *; [done| |]; rewrite Hsort; split; try done;
    by rewrite stable_sort_perm.
Qed.

(** X4. In either mode the degeneracy-avoiding sampler changes node ids only. The
    sequence of [(role, edge, metadata)] slots it leaves is that of the sorted
    incidence list, the node ids are a rearrangement of the old ones; so every
    node keeps its degree ([node_degrees]), every edge its dimension
    ([edge_dimensions]) and its number of incidences per role. *)
Theorem sampler_changes_node_ids_only {W} (s : AnnotatedHypergraph W) rl n_steps draws :
  sort_key s ≠ Some (sort_key_of [Feid; Frole]) →
  let t := _degeneracy_avoiding_MCMC n_steps rl draws s in
  map slot_of (IL t) = map slot_of (stable_sort (λ x, [eid x; role x]) (IL s)) ∧
  map nid (IL t) ≡ₚ map nid (IL s) ∧
  (∀ v, counter_get (node_degrees t).2 v = counter_get (node_degrees s).2 v) ∧
  (∀ k, counter_get (edge_dimensions t).2 k = counter_get (edge_dimensions s).2 k) ∧
  (∀ k r, dim (IL t) k r = dim (IL s) k r).
Proof.
  intros Hkey t.
  destruct (sampler_slots_and_nids s rl n_steps draws Hkey) as [H1 H2]. fold t in H1, H2.
  assert (map slot_of (IL t) ≡ₚ map slot_of (IL s)) as H3.
  { rewrite H1. by rewrite stable_sort_perm. }
  split; [done|]. split; [done|].
  assert (map eid (IL t) ≡ₚ map eid (IL s)) as H4.
  { assert (∀ il, map eid il = map (λ t : Z * Z * option Z, t.1.2) (map slot_of il)) as He.
    { intros il. by rewrite map_map. }
    by rewrite !He, H3. }
  split; [|split].
  - intros v. unfold node_degrees. cbn [snd]. rewrite !counter_get_Counter.
    apply count_nid_perm. by rewrite !IL_sort_perm.
  - intros k. unfold edge_dimensions. cbn [snd]. rewrite !counter_get_Counter.
    assert (map eid (IL (sort [Frole] false t)) ≡ₚ map eid (IL (sort [Frole] false s))) as H5
      by (by rewrite !IL_sort_perm).
    by rewrite H5.
  - intros k r. rewrite !dim_slots, !slots_of_slot_of. by rewrite H3.
Qed.

Lemma sampler_changes_node_ids_only_witness :
  sort_key two_edges ≠ Some (sort_key_of [Feid; Frole]) ∧
  map nid (IL (_degeneracy_avoiding_MCMC 2 false four_draws two_edges))
  ≡ₚ map nid (IL two_edges).
Proof.
  assert (sort_key two_edges ≠ Some (sort_key_of [Feid; Frole])) as H by done.
  split; [exact H|].
  exact (proj1 (proj2 (sampler_changes_node_ids_only two_edges false 2 four_draws H))).
Defined.

(** X5. The sampler does not call [set_states], and need not: on a store whose
    derived state is current, [node_list], [edge_list], [n] and [m] are still
    those of the incidence list it leaves. *)
Theorem sampler_keeps_state_current {W} (s : AnnotatedHypergraph W) rl n_steps draws :
  sort_key s ≠ Some (sort_key_of [Feid; Frole]) →
  states_current s →
  states_current (_degeneracy_avoiding_MCMC n_steps rl draws s).
Proof.
  intros Hkey (Hnl & Hel & Hn & Hm).
  destruct (sampler_slots_and_nids s rl n_steps draws Hkey) as (Hslots & Hnids).
  set (t := _degeneracy_avoiding_MCMC n_steps rl draws s) in *.
  assert (map eid (IL t) ≡ₚ map eid (IL s)) as Heids.
  { assert (∀ il, map eid il = map (λ t : Z * Z * option Z, t.1.2) (map slot_of il)) as He.
    { intros il. by rewrite map_map. }
    rewrite !He, Hslots. by rewrite stable_sort_perm. }
  assert (node_list t = node_list s ∧ edge_list t = edge_list s ∧ n t = n s ∧ m t = m s)
    as (E1 & E2 & E3 & E4).
  { unfold t, _degeneracy_avoiding_MCMC, sort.
    destruct (degeneracy_avoiding_run _ _ _ _), (sort_skips _ _); done. }
  unfold states_current. rewrite E1, E2, E3, E4.
  split; [|split; [|done]].
  - rewrite Hnl. apply np_unique_ext. intros x. by rewrite Hnids.
  - rewrite Hel. apply np_unique_ext. intros e. by rewrite Heids.
Qed.

Lemma sampler_keeps_state_current_witness :
  sort_key two_edges ≠ Some (sort_key_of [Feid; Frole]) ∧
  states_current two_edges ∧
  states_current (_degeneracy_avoiding_MCMC 2 true four_draws two_edges).
Proof.
  assert (sort_key two_edges ≠ Some (sort_key_of [Feid; Frole])) as H1 by done.
  assert (states_current two_edges) as H2 by done.
  split; [exact H1|]. split; [exact H2|].
  exact (sampler_keeps_state_current two_edges true 2 four_draws H1 H2).
Defined.

(** ** Counting: degeneracies, degrees and dimensions *)

Lemma NoDup_pairs_by_key {A} (f g : A → Z) (l : list A) :
  NoDup (map (λ x, (f x, g x)) l) ↔ ∀ k, NoDup (map g (filter (λ x, f x = k) l)).
Proof.
  induction l as [|x l IH]; simpl.
  - split; [|constructor]. intros _ k. constructor.
  - rewrite NoDup_cons, IH. split.
    + intros [Hx Hall] k. rewrite filter_cons.
      destruct (decide (f x = k)) as [<-|Hne]; [|apply Hall].
      simpl. constructor; [|apply Hall].
      intros Hin. apply Hx. rewrite map_fmap in Hin.
      apply list_elem_of_fmap in Hin as (y & Hg & Hy).
      apply list_elem_of_filter in Hy as [Hf Hy].
      rewrite map_fmap. apply list_elem_of_fmap. exists y. split; [|done].
      by rewrite Hg, Hf.
    + intros H. split.
      * intros Hin. rewrite map_fmap in Hin.
        apply list_elem_of_fmap in Hin as (y & [= Hf Hg] & Hy).
        specialize (H (f x)). rewrite filter_cons, decide_True in H by done.
        simpl in H. apply NoDup_cons in H as [H _]. apply H.
        rewrite map_fmap. apply list_elem_of_fmap. exists y. split; [done|].
        apply list_elem_of_filter. by split.
      * intros k. specialize (H k). rewrite filter_cons in H.
        destruct (decide (f x = k)); [|done].
        simpl in H. by apply NoDup_cons in H as [_ H].
Qed.

Lemma filter_nil_Forall {A} (P : A → Prop) `{!∀ x, Decision (P x)} (l : list A) :
  length (filter P l) = 0%nat ↔ Forall (λ x, ¬ P x) l.
Proof.
  induction l as [|x l IH]; [by split; [constructor|]|].
  rewrite filter_cons, Forall_cons, <- IH.
  destruct (decide (P x)); simpl; split; try done; try lia; by intros [? ?].
Qed.

Lemma degenerate_count_zero (il : list NodeEdgeIncidence) :
  degenerate_count il = 0%nat ↔ NoDup (map (λ x, (eid x, nid x)) il).
Proof.
  unfold degenerate_count. rewrite filter_nil_Forall, NoDup_pairs_by_key.
  rewrite Forall_forall. split.
  - intros H k. destruct (decide (k ∈ map eid il)) as [Hin|Hout].
    + apply check_degenerate_false. apply np_unique_elem in Hin.
      specialize (H k Hin). by destruct (check_degenerate _).
    + assert (filter (λ x, eid x = k) il = []) as ->; [|constructor].
      destruct (filter _ _) as [|y l'] eqn:Hf; [done|].
      exfalso. apply Hout. rewrite map_fmap. apply list_elem_of_fmap.
      exists y. assert (y ∈ filter (λ x, eid x = k) il) as Hy
        by (rewrite Hf; by left).
      apply list_elem_of_filter in Hy as [? ?]. done.
  - intros H k _. specialize (H k). apply check_degenerate_false in H.
    by rewrite H.
Qed.

(** X6. [count_degeneracies] returns 0 exactly when no edge holds a node twice,
    that is when the pairs [(eid, nid)] of the incidence list are distinct;
    in general it counts the edge ids whose incidences repeat a node id. *)
Theorem count_degeneracies_zero {W} (s : AnnotatedHypergraph W) :
  sort_key s ≠ Some (sort_key_of [Feid]) →
  ((count_degeneracies s).2 = 0%nat ↔ NoDup (map (λ x, (eid x, nid x)) (IL s))) ∧
  (count_degeneracies s).2
  = length (filter (λ k, ¬ NoDup (map nid (filter (λ x, eid x = k) (IL s))))
              (np_unique (map eid (IL s)))) ∧
  IL (count_degeneracies s).1 ≡ₚ IL s.
Proof.
  intros Hkey. rewrite count_degeneracies_spec by done.
  split; [apply degenerate_count_zero|]. split.
  - unfold degenerate_count. f_equal. apply list_filter_iff. intros k.
    apply check_degenerate_true.
  - unfold count_degeneracies. cbn [fst]. apply IL_sort_perm.
Qed.

Lemma count_degeneracies_zero_witness :
  sort_key two_edges ≠ Some (sort_key_of [Feid]) ∧
  (count_degeneracies two_edges).2 = 0%nat.
Proof.
  assert (sort_key two_edges ≠ Some (sort_key_of [Feid])) as H by done.
  split; [exact H|].
  apply (proj2 (proj1 (count_degeneracies_zero two_edges H))).
  apply (bool_decide_unpack _). reflexivity.
Defined.

Lemma sum_values_incr (d : dict nat) x :
  sum_list (dict_values (dict_set d x (S (default 0%nat (dict_get d x)))))
  = S (sum_list (dict_values d)).
Proof.
  unfold dict_values. induction d as [|[k v] d IH]; csimpl; [done|].
  destruct (decide (k = x)); csimpl; [done|]. rewrite IH. lia.
Qed.

Lemma sum_values_Counter l : sum_list (dict_values (Counter l)) = length l.
Proof.
  unfold Counter.
  assert (∀ d, sum_list (dict_values
                 (foldl (λ d x, dict_set d x (S (default 0%nat (dict_get d x)))) d l))
               = (sum_list (dict_values d) + length l)%nat) as H.
  { induction l as [|x l IH]; intros d; simpl; [lia|].
    rewrite IH, sum_values_incr. lia. }
  by rewrite H.
Qed.

(** X7. The degrees [node_degrees()] returns add up to the number of incidences,
    and so do the dimensions [edge_dimensions()] returns; a node or an edge
    has a positive entry exactly when the incidence list names it. *)
Theorem degrees_and_dimensions_sum {W} (s : AnnotatedHypergraph W) :
  sum_list (dict_values (node_degrees s).2) = length (IL s) ∧
  sum_list (dict_values (edge_dimensions s).2) = length (IL s) ∧
  (∀ v, (0 < counter_get (node_degrees s).2 v)%nat ↔ v ∈ map nid (IL s)) ∧
  (∀ k, (0 < counter_get (edge_dimensions s).2 k)%nat ↔ k ∈ map eid (IL s)).
Proof.
  unfold node_degrees, edge_dimensions. cbn [snd].
  pose proof (IL_sort_perm [Frole] false s) as Hperm.
  assert (∀ (l : list Z) v, (0 < length (filter (λ z, z = v) l))%nat ↔ v ∈ l) as Hpos.
  { intros l v. split.
    - destruct (filter _ l) as [|y l'] eqn:Hf; simpl; [lia|]. intros _.
      assert (y ∈ filter (λ z, z = v) l) as Hy by (rewrite Hf; by left).
      by apply list_elem_of_filter in Hy as [-> ?].
    - intros Hin. assert (v ∈ filter (λ z, z = v) l) as Hy
        by (by apply list_elem_of_filter).
      destruct (filter _ l); [by apply elem_of_nil in Hy|simpl; lia]. }
  rewrite !sum_values_Counter, !length_map, Hperm.
  split; [done|]. split; [done|].
  split; intros x; rewrite counter_get_Counter, Hpos; by rewrite Hperm.
Qed.

(** X8. [X[role]] for a declared role that no incidence holds: the by-role forms
    of both aggregates raise [KeyError] exactly when some declared role is
    unused, whatever the order of the incidence list. *)
Theorem by_role_KeyError {W} (s : AnnotatedHypergraph W) :
  ((edge_dimensions_by_role s).2 = None ↔ ∃ r, r ∈ roles s ∧ r ∉ map role (IL s)) ∧
  ((node_degrees_by_role s).2 = None ↔ ∃ r, r ∈ roles s ∧ r ∉ map role (IL s)).
Proof.
  unfold edge_dimensions_by_role, node_degrees_by_role. cbn [snd].
  set (s1 := sort [Frole] false s).
  assert (roles s1 = roles s) as Hrs by (unfold s1, sort; by destruct (sort_skips _ _)).
  assert (IL s1 ≡ₚ IL s) as Hperm by apply IL_sort_perm.
  assert (∀ r, dict_get (dict_of_items (groupby role (IL s1))) r = None
               ↔ r ∉ map role (IL s)) as Hget.
  { intros r. rewrite dict_get_None, dict_of_items_keys, groupby_keys. by rewrite Hperm. }
  assert (∀ {B} (F : Z → list NodeEdgeIncidence → B),
            mapM (λ r, g ← dict_get (dict_of_items (groupby role (IL s1))) r; Some (F r g))
                 (roles s1) = None
            ↔ ∃ r, r ∈ roles s ∧ r ∉ map role (IL s)) as HmapM.
  { intros B F. rewrite mapM_None, Exists_exists, Hrs. split.
    - intros (r & Hr & Hnone). exists r. split; [done|]. apply Hget.
      by destruct (dict_get _ r).
    - intros (r & Hr & Hout). exists r. split; [done|].
      apply Hget in Hout. by rewrite Hout. }
  split.
  - rewrite <- (HmapM _ (λ r g, (r, Counter (map eid g)))).
    destruct (mapM _ _); simpl; by split.
  - rewrite <- (HmapM _ (λ r g, (r, Counter (map nid g)))).
    destruct (mapM _ _); simpl; by split.
Qed.

(** ** The stub-labeled sampler *)

(** What a returning [swap_step] did: it found two positions in different
    edges and exchanged the node ids there. *)
Lemma swap_step_Some il draws il' rest :
  swap_step il draws = Some (il', rest) →
  ∃ i j a b,
    il !! i = Some a ∧ il !! j = Some b ∧ eid a ≠ eid b ∧
    il' = <[j := swapped_in b a]> (<[i := swapped_in a b]> il).
Proof.
  induction draws as [|[ri rj] draws IH]; simpl; [done|].
  destruct (randint (length il) ri) as [i|]; simpl; [|done].
  destruct (randint (length il) rj) as [j|]; simpl; [|done].
  destruct (il !! i) as [a|] eqn:Ha; simpl; [|done].
  destruct (il !! j) as [b|] eqn:Hb; simpl; [|done].
  destruct (decide (eid a = eid b)) as [|Hne]; [done|].
  intros [= <- _]. by exists i, j, a, b.
Qed.

Lemma swap_positions_perm {A B} (F : A → B) (l : list A) i j a b a' b' :
  l !! i = Some a → l !! j = Some b → i ≠ j →
  [F a'; F b'] ≡ₚ [F a; F b] →
  map F (<[j := b']> (<[i := a']> l)) ≡ₚ map F l.
Proof.
  intros Ha Hb Hij HF.
  assert (<[i := a']> l !! j = Some b) as Hb' by (by rewrite list_lookup_insert_ne).
  pose proof (insert_exchange _ _ _ b' Hb') as H1.
  pose proof (insert_exchange _ _ _ a' Ha) as H2.
  apply (fmap_Permutation F) in H1, H2. rewrite <- !map_fmap in H1, H2. simpl in *.
  apply (Permutation_app_inv_l [F a; F b]). simpl.
  etrans; [apply perm_skip; exact H1|].
  etrans; [apply Permutation_swap|].
  etrans; [apply perm_skip; exact H2|].
  etrans; [apply Permutation_swap|].
  exact (Permutation_app_tail (map F l) HF).
Qed.

(** Exchanging the node ids at two positions. *)
Lemma swapped_positions_keep il i j a b :
  il !! i = Some a → il !! j = Some b → i ≠ j →
  let il' := <[j := swapped_in b a]> (<[i := swapped_in a b]> il) in
  map slot_of il' = map slot_of il ∧
  map nid il' ≡ₚ map nid il ∧
  (role a = role b → map stub_of il' ≡ₚ map stub_of il).
Proof.
  intros Ha Hb Hij il'. unfold il'.
  assert (<[i := swapped_in a b]> il !! j = Some b) as Hb'
    by (by rewrite list_lookup_insert_ne).
  split; [|split].
  - rewrite (map_insert_same slot_of _ j b) by done.
    by rewrite (map_insert_same slot_of _ i a).
  - apply (swap_positions_perm nid il i j a b); try done. apply Permutation_swap.
  - intros Hrole. apply (swap_positions_perm stub_of il i j a b); try done.
    unfold stub_of, swapped_in. simpl. rewrite Hrole. apply Permutation_swap.
Qed.

(** X9. [swap_step] exchanges node ids only: the [(role, edge, metadata)] slots
    stay where they are, position by position, and the node ids are
    rearranged; run on incidences of one role, as the sampler runs it, it keeps
    the [(node, role)] pairs as well. *)
Theorem swap_step_exchanges_node_ids il draws il' rest :
  swap_step il draws = Some (il', rest) →
  map slot_of il' = map slot_of il ∧
  map nid il' ≡ₚ map nid il ∧
  ((∀ x y, x ∈ il → y ∈ il → role x = role y) → map stub_of il' ≡ₚ map stub_of il).
Proof.
  intros (i & j & a & b & Ha & Hb & Hne & ->)%swap_step_Some.
  assert (i ≠ j) as Hij by (intros ->; congruence).
  destruct (swapped_positions_keep il i j a b Ha Hb Hij) as (H1 & H2 & H3).
  split; [done|]. split; [done|].
  intros Hrole. apply H3, Hrole; by eapply list_elem_of_lookup_2.
Qed.

Lemma swap_step_exchanges_node_ids_witness :
  map nid (<[1%nat := mkInc 0 0 1 None]> (<[0%nat := mkInc 1 0 0 None]> (IL two_edges)))
  ≡ₚ map nid (IL two_edges).
Proof.
  exact (proj1 (proj2 (swap_step_exchanges_node_ids (IL two_edges) [(0, 1)%nat] _ []
                         eq_refl))).
Defined.

(** X10. [swap_step] draws until the two incidences lie in different edges. Some
    sequence of draws makes it return exactly when the list spans two edges;
    on a list within one edge (or empty) it never returns. *)
Theorem swap_step_returns_iff il :
  (∃ draws, is_Some (swap_step il draws)) ↔ ∃ x y, x ∈ il ∧ y ∈ il ∧ eid x ≠ eid y.
Proof.
  split.
  - intros (draws & [[il' rest] Hsome]).
    apply swap_step_Some in Hsome as (i & j & a & b & Ha & Hb & Hne & _).
    exists a, b. split; [by eapply list_elem_of_lookup_2|].
    split; [by eapply list_elem_of_lookup_2|done].
  - intros (x & y & [i Hi]%list_elem_of_lookup_1 & [j Hj]%list_elem_of_lookup_1 & Hne).
    exists [(i, j)]. simpl.
    assert (∀ k z, il !! k = Some z → randint (length il) k = Some k) as Hrand.
    { intros k z Hk. apply lookup_lt_Some in Hk. unfold randint.
      rewrite decide_False by lia. by rewrite Nat.mod_small. }
    rewrite (Hrand i x Hi), (Hrand j y Hj). simpl. rewrite Hi, Hj. simpl.
    by rewrite decide_False.
Qed.

Lemma swap_steps_keeps c il draws r ρ :
  swap_steps c il draws = Some r →
  Forall (λ x, role x = ρ) il →
  map slot_of r.1 = map slot_of il ∧
  map stub_of r.1 ≡ₚ map stub_of il ∧
  Forall (λ x, role x = ρ) r.1.
Proof.
  revert il draws. induction c as [|c IH]; intros il draws; simpl.
  - by intros [= <-] ?.
  - destruct (swap_step il draws) as [[il1 rest]|] eqn:Hstep; simpl; [|done].
    intros Hrest Hrole.
    assert (map slot_of il1 = map slot_of il ∧
            ((∀ x y, x ∈ il → y ∈ il → role x = role y) →
             map stub_of il1 ≡ₚ map stub_of il)) as (Hs & Hst).
    { apply swap_step_Some in Hstep as (i & j & a & b & Ha & Hb & Hne & ->).
      assert (i ≠ j) as Hij by (intros ->; congruence).
      destruct (swapped_positions_keep il i j a b Ha Hb Hij) as (H1 & _ & H3).
      split; [done|]. intros Hr. apply H3, Hr; by eapply list_elem_of_lookup_2. }
    assert (Forall (λ x, role x = ρ) il1) as Hrole1.
    { assert (map role il1 = map role il) as Hr.
      { assert (∀ l, map role l = map (λ t : Z * Z * option Z, t.1.1) (map slot_of l)) as E
          by (intros l; by rewrite map_map).
        by rewrite !E, Hs. }
      apply Forall_forall. intros x Hx.
      assert (role x ∈ map role il) as Hin.
      { rewrite <- Hr, map_fmap. apply list_elem_of_fmap. by exists x. }
      rewrite map_fmap in Hin. apply list_elem_of_fmap in Hin as (y & -> & Hy).
      rewrite Forall_forall in Hrole. by apply Hrole. }
    destruct (IH _ _ Hrest Hrole1) as (H1 & H2 & H3).
    split; [by rewrite H1|]. split; [|done].
    rewrite H2. apply Hst. intros x y Hx Hy.
    rewrite Forall_forall in Hrole. by rewrite (Hrole x Hx), (Hrole y Hy).
Qed.

Lemma swap_partitions_keeps n_roles by_role steps draws by_role' :
  swap_partitions n_roles by_role steps draws = Some by_role' →
  Forall (λ g, ∃ ρ, Forall (λ x, role x = ρ) g) by_role →
  map slot_of (concat by_role') = map slot_of (concat by_role) ∧
  map stub_of (concat by_role') ≡ₚ map stub_of (concat by_role).
Proof.
  revert by_role steps draws by_role'.
  induction n_roles as [|n' IH]; intros by_role steps draws by_role'; simpl.
  - by intros [= <-] _.
  - destruct by_role as [|il by_role]; [done|]. destruct steps as [|c steps]; [done|].
    destruct (swap_steps (Z.to_nat c) il draws) as [r|] eqn:Hr; simpl; [|done].
    destruct (swap_partitions n' by_role steps r.2) as [rest|] eqn:Hrest; simpl; [|done].
    intros [= <-] [[ρ Hρ] Hall]%Forall_cons.
    destruct (swap_steps_keeps _ _ _ _ ρ Hr Hρ) as (H1 & H2 & _).
    destruct (IH _ _ _ _ Hrest Hall) as (H3 & H4).
    simpl. rewrite !map_app. split; [by rewrite H1, H3|by rewrite H2, H4].
Qed.

Lemma swap_partitions_short n_roles by_role steps draws :
  (length by_role < n_roles)%nat → swap_partitions n_roles by_role steps draws = None.
Proof.
  revert by_role steps draws.
  induction n_roles as [|n' IH]; intros by_role steps draws; simpl; [lia|].
  destruct by_role as [|il by_role]; [done|]. destruct steps as [|c steps]; [done|].
  simpl. intros Hlen. destruct (swap_steps _ _ _) as [r|]; simpl; [|done].
  rewrite IH by lia. done.
Qed.

(** X11. Whenever the stub-labeled sampler returns, it has exchanged node ids
    within role partitions only: the slots are those of the role-sorted
    incidence list, position by position, the [(node, role)] pairs are the old
    ones rearranged, and nothing but the incidence list has changed. *)
Theorem stub_labeled_exchanges_within_roles {W} n_steps swap_draws
    (s s' : AnnotatedHypergraph W) :
  StubLabeled._stub_labeled_MCMC n_steps swap_draws s = Some s' →
  map slot_of (IL s') = map slot_of (IL (sort [Frole] false s)) ∧
  map stub_of (IL s') ≡ₚ map stub_of (IL s) ∧
  s' = with_IL s (IL s').
Proof.
  unfold StubLabeled._stub_labeled_MCMC.
  set (s1 := sort [Frole] false s).
  destruct (swap_partitions _ _ _ _) as [by_role'|] eqn:Hsp; simpl; [|done].
  intros [= <-]. simpl.
  apply swap_partitions_keeps in Hsp as [H1 H2].
  - rewrite (map_fmap snd), groupby_concat in H1, H2.
    split; [done|]. split.
    + rewrite H2. unfold s1. by rewrite IL_sort_perm.
    + unfold s1, sort. by destruct (sort_skips _ _), s.
  - rewrite map_fmap. apply Forall_fmap.
    eapply Forall_impl; [apply groupby_groups|].
    intros [k g] [_ Hg]. simpl in *. by exists k.
Qed.

Lemma groupby_sorted_keys_np_unique {A} (f : A → Z) (l : list A) :
  StronglySorted Z.le (map f l) → (groupby f l).*1 = np_unique (map f l).
Proof.
  intros Hs. apply (StronglySorted_unique Z.le).
  - by apply sorted_lt_le, groupby_sorted_keys.
  - apply np_unique_sorted.
  - apply NoDup_Permutation.
    + by apply groupby_sorted_NoDup.
    + apply np_unique_NoDup.
    + intros k. by rewrite groupby_keys, np_unique_elem.
Qed.

(** X12. With fewer roles in use than declared there are fewer role partitions
    than [len(self.roles)], and the loop over the declared roles runs past the
    last partition ([IndexError] at [steps[i]]): the call of the stub-labeled
    sampler never returns a result, whatever is drawn. *)
Theorem stub_labeled_unused_role {W} n_steps swap_draws (s : AnnotatedHypergraph W) :
  sort_key s ≠ Some (sort_key_of [Frole]) →
  (length (np_unique (map role (IL s))) < length (roles s))%nat →
  StubLabeled._stub_labeled_MCMC n_steps swap_draws s = None.
Proof.
  intros Hkey Hlen. unfold StubLabeled._stub_labeled_MCMC.
  set (s1 := sort [Frole] false s).
  rewrite swap_partitions_short; [done|].
  assert (roles s1 = roles s) as -> by (unfold s1, sort; by destruct (sort_skips _ _)).
  rewrite length_map, <- (length_fmap fst).
  rewrite groupby_sorted_keys_np_unique.
  - assert (np_unique (map role (IL s1)) = np_unique (map role (IL s))) as ->; [|done].
    apply np_unique_ext. intros r. unfold s1. by rewrite IL_sort_perm.
  - unfold s1, sort, sort_skips. rewrite bool_decide_eq_false_2 by done. simpl.
    apply stable_sort_sorted_by. intros x. by eexists.
Qed.

Lemma stub_labeled_unused_role_witness :
  StubLabeled._stub_labeled_MCMC 4 [(0, 1)%nat] one_role_used = None.
Proof.
  apply stub_labeled_unused_role; [done|].
  assert (np_unique [0; 0] = [0]) as Hu by reflexivity.
  change (Nat.lt (length (np_unique [0; 0])) (length [0; 1])). rewrite Hu. simpl. lia.
Defined.

Module StubLabeledRuns.
Import Reals Lra.
Import StubLabeled.
Import StubLabeledFacts.

(** Two partitions of two incidences share [n_steps = 2] evenly. *)
Lemma steps_of_2_2 : steps_of [2; 2]%nat 2 = [1; 1]%Z.
Proof.
  pose proof ln2_pos as Hpos.
  assert (INR 2 = 2%R) as H2 by (simpl; lra).
  unfold steps_of, log_sum. cbn [map fold_right]. rewrite !H2.
  replace (2 * ln 2 / (2 * (ln 2 + (ln 2 + 0))) * 2)%R with 1%R by (field; lra).
  assert (astype_int 1 = 1%Z) as -> by (apply astype_int_between; simpl; lra).
  done.
Qed.

(** One swap in each role partition: nodes 0 and 1 exchange their edges, and
    so do nodes 2 and 3. *)
Example two_roles_two_edges_run :
  _stub_labeled_MCMC 2 [(0, 1); (0, 1)]%nat two_roles_two_edges
  = Some (with_IL two_roles_two_edges
            [mkInc 1 0 0 None; mkInc 0 0 1 None; mkInc 3 1 0 None; mkInc 2 1 1 None]).
Proof.
  unfold _stub_labeled_MCMC. cbv zeta.
  assert (map (@length _) (map snd (groupby role (IL (sort [Frole] false two_roles_two_edges))))
          = [2; 2]%nat) as -> by reflexivity.
  rewrite steps_of_2_2. reflexivity.
Qed.

Lemma stub_labeled_exchanges_within_roles_witness :
  map stub_of [mkInc 1 0 0 None; mkInc 0 0 1 None; mkInc 3 1 0 None; mkInc 2 1 1 None]
  ≡ₚ map stub_of (IL two_roles_two_edges).
Proof.
  exact (proj1 (proj2 (stub_labeled_exchanges_within_roles 2 [(0, 1); (0, 1)]%nat
                         two_roles_two_edges _ two_roles_two_edges_run))).
Defined.
End StubLabeledRuns.

(** ** Relabelling *)

Lemma np_unique_cons x l :
  np_unique (x :: l) ≡ₚ if decide (x ∈ l) then np_unique l else x :: np_unique l.
Proof.
  apply NoDup_Permutation.
  - apply np_unique_NoDup.
  - destruct (decide (x ∈ l)); [apply np_unique_NoDup|].
    constructor; [by rewrite np_unique_elem|apply np_unique_NoDup].
  - intros u. rewrite np_unique_elem.
    destruct (decide (x ∈ l)) as [Hin|Hout].
    + rewrite np_unique_elem, elem_of_cons. split; [|by right]. by intros [->|?].
    + by rewrite !elem_of_cons, np_unique_elem.
Qed.

Section CountDistinct.
Context (P Q : Z → Prop) `{!∀ u, Decision (P u)} `{!∀ u, Decision (Q u)}.

Lemma count_distinct_cons x l :
  count_distinct P (x :: l)
  = (count_distinct P l + if decide (P x ∧ x ∉ l) then 1 else 0)%nat.
Proof.
  unfold count_distinct. rewrite np_unique_cons.
  destruct (decide (x ∈ l)) as [Hin|Hout].
  - rewrite decide_False by (by intros [_ ?]). lia.
  - rewrite filter_cons. destruct (decide (P x)).
    + rewrite decide_True by done. simpl. lia.
    + rewrite decide_False by (by intros [? _]). lia.
Qed.

Lemma count_distinct_mono l :
  (∀ u, u ∈ l → P u → Q u) → (count_distinct P l ≤ count_distinct Q l)%nat.
Proof.
  unfold count_distinct. intros HPQ.
  assert (∀ u, u ∈ np_unique l → P u → Q u) as HPQ'
    by (intros u Hu; apply HPQ; by apply np_unique_elem).
  clear HPQ. induction (np_unique l) as [|y l' IH]; [done|].
  rewrite !filter_cons.
  assert (P y → Q y) as Hy by (apply HPQ'; by left).
  assert (length (filter P l') ≤ length (filter Q l'))%nat as IH'
    by (apply IH; intros u Hu; apply HPQ'; by right).
  destruct (decide (P y)), (decide (Q y)); simpl; try lia. tauto.
Qed.
End CountDistinct.

Lemma count_distinct_ext (P Q : Z → Prop) `{!∀ u, Decision (P u)} `{!∀ u, Decision (Q u)} l :
  (∀ u, u ∈ l → P u ↔ Q u) → count_distinct P l = count_distinct Q l.
Proof.
  intros HPQ.
  apply Nat.le_antisymm; apply count_distinct_mono; intros u Hu; by apply HPQ.
Qed.

Lemma count_distinct_none (P : Z → Prop) `{!∀ u, Decision (P u)} l :
  (∀ u, u ∈ l → ¬ P u) → count_distinct P l = 0%nat.
Proof.
  intros HP. unfold count_distinct. apply filter_nil_Forall, Forall_forall.
  intros u Hu. apply HP. by apply np_unique_elem.
Qed.

(** A value that satisfies [P] is counted once when it occurs. *)
Lemma count_distinct_split (P : Z → Prop) `{!∀ u, Decision (P u)} x l :
  P x →
  count_distinct P l
  = (count_distinct (λ u, P u ∧ u ≠ x) l + if decide (x ∈ l) then 1 else 0)%nat.
Proof.
  intros Hx. induction l as [|y l IH].
  - rewrite decide_False by (by intros ?%elem_of_nil). done.
  - rewrite !count_distinct_cons, IH.
    destruct (decide (y = x)) as [->|Hne].
    + rewrite (decide_True (P := x ∈ x :: l)) by (by left).
      rewrite (decide_False (P := (P x ∧ x ≠ x) ∧ x ∉ l)) by tauto.
      destruct (decide (x ∈ l)).
      * rewrite decide_False by tauto. lia.
      * rewrite decide_True by tauto. lia.
    + destruct (decide (x ∈ l)) as [Hin|Hout].
      * rewrite (decide_True (P := x ∈ y :: l)) by (by right).
        destruct (decide (P y ∧ y ∉ l)).
        -- rewrite decide_True by tauto. lia.
        -- rewrite decide_False by tauto. lia.
      * rewrite (decide_False (P := x ∈ y :: l)).
        2:{ intros [?|?]%elem_of_cons; done. }
        destruct (decide (P y ∧ y ∉ l)).
        -- rewrite decide_True by tauto. lia.
        -- rewrite decide_False by tauto. lia.
Qed.

(** The loop of [relabel_by_field] on a sorted list, started behind a value
    [old] labelled [j]: each element gets [j] plus the number of distinct
    values between [old] and its own. *)
Lemma relabel_loop_spec f L j old :
  StronglySorted Z.le (map (λ e, getattr e f) L) →
  Forall (λ e, old ≤ getattr e f) L →
  relabel_loop f L j old
  = map (λ e, setattr e f
                (j + Z.of_nat (count_distinct (λ u, old < u ≤ getattr e f)
                                 (map (λ x, getattr x f) L)))) L.
Proof.
  revert j old. induction L as [|e L IH]; intros j old Hs Hold; [done|].
  simpl in Hs. apply StronglySorted_inv in Hs as [Hs He].
  apply Forall_cons in Hold as [Hoe Hold].
  assert (∀ u, u ∈ map (λ x, getattr x f) L → getattr e f ≤ u) as Hge
    by (by rewrite Forall_forall in He).
  simpl relabel_loop. cbn [map]. f_equal.
  - f_equal. destruct (decide (getattr e f ≠ old)) as [Hne|Heq].
    + rewrite count_distinct_cons.
      rewrite (count_distinct_split _ (getattr e f)) by lia.
      rewrite (count_distinct_none (λ u, (old < u ≤ getattr e f) ∧ u ≠ getattr e f))
        by (intros u Hu; specialize (Hge u Hu); lia).
      destruct (decide (getattr e f ∈ map (λ x, getattr x f) L)).
      * rewrite decide_False by tauto. lia.
      * rewrite decide_True by (split; [lia|done]). lia.
    + rewrite count_distinct_none; [lia|]. intros u Hu. lia.
  - rewrite IH; [|done|].
    2:{ destruct (decide (getattr e f ≠ old)); [|done].
        apply Forall_forall. intros e' He'. apply Hge.
        rewrite map_fmap. apply list_elem_of_fmap. by exists e'. }
    apply map_ext_Forall, Forall_forall. intros e' He'. f_equal.
    assert (getattr e' f ∈ map (λ x, getattr x f) L) as Hv
      by (rewrite map_fmap; apply list_elem_of_fmap; by exists e').
    pose proof (Hge _ Hv) as Hxv.
    rewrite count_distinct_cons.
    destruct (decide (getattr e f ≠ old)) as [Hne|Heq].
    + rewrite (count_distinct_split (λ u, old < u ≤ getattr e' f) (getattr e f)) by lia.
      rewrite (count_distinct_ext (λ u, (old < u ≤ getattr e' f) ∧ u ≠ getattr e f)
                 (λ u, getattr e f < u ≤ getattr e' f))
        by (intros u Hu; specialize (Hge u Hu); lia).
      destruct (decide (getattr e f ∈ map (λ x, getattr x f) L)).
      * rewrite decide_False by tauto. lia.
      * rewrite decide_True by (split; [lia|done]). lia.
    + rewrite decide_False by (intros [? _]; lia). lia.
Qed.

Lemma np_unique_head x l : Forall (Z.le x) l → head (np_unique (x :: l)) = Some x.
Proof.
  intros Hx.
  pose proof (np_unique_sorted (x :: l)) as Hs.
  assert (x ∈ np_unique (x :: l)) as Hin by (apply np_unique_elem; by left).
  assert (∀ y, y ∈ np_unique (x :: l) → x ≤ y) as Hle.
  { intros y [->|Hy]%np_unique_elem%elem_of_cons; [lia|].
    rewrite Forall_forall in Hx. by apply Hx. }
  destruct (np_unique (x :: l)) as [|y r]; [by apply elem_of_nil in Hin|].
  simpl. f_equal. apply StronglySorted_inv in Hs as [_ Hy].
  assert (x ≤ y) by (apply Hle; by left).
  apply elem_of_cons in Hin as [->|Hin]; [done|].
  rewrite Forall_forall in Hy. specialize (Hy x Hin). lia.
Qed.

Lemma label_of_ext vals vals' :
  (∀ u, u ∈ vals ↔ u ∈ vals') → label_of vals = label_of vals'.
Proof.
  intros H. unfold label_of, first_label, count_distinct.
  by rewrite (np_unique_ext _ _ H).
Qed.

(** [relabel_by_field] sorts by the field and renames its values by
    [label_of]. *)
Lemma relabel_by_field_relabelled D f : relabel_by_field D f = relabelled f D.
Proof.
  unfold relabel_by_field, relabelled, py_sort.
  assert (StronglySorted Z.le
            (map (λ e, getattr e f) (stable_sort (λ x, [getattr x f]) D))) as Hs
    by (apply stable_sort_sorted_by; intros x; by eexists).
  rewrite (label_of_ext (map (λ x, getattr x f) D)
             (map (λ x, getattr x f) (stable_sort (λ x, [getattr x f]) D)))
    by (intros u; by rewrite stable_sort_perm).
  destruct (stable_sort (λ x, [getattr x f]) D) as [|e L]; [done|].
  pose proof Hs as Hs'. simpl in Hs'. apply StronglySorted_inv in Hs' as [Hs' He].
  assert (∀ u, u ∈ map (λ x, getattr x f) L → getattr e f ≤ u) as Hge
    by (by rewrite Forall_forall in He).
  assert (first_label (map (λ x, getattr x f) (e :: L))
          = if decide (getattr e f = 0) then 0 else 1) as Hfirst.
  { unfold first_label. simpl map. rewrite np_unique_head by done.
    destruct (decide (getattr e f = 0)) as [->|Hne]; [done|].
    rewrite decide_False; [done|]. by intros [= ?]. }
  destruct (decide (getattr e f = 0)) as [Hx0|Hx0].
  - rewrite relabel_loop_spec; [|done|].
    2:{ constructor; [lia|]. apply Forall_forall. intros e' He'.
        rewrite <- Hx0. apply Hge. rewrite map_fmap. apply list_elem_of_fmap.
        by exists e'. }
    apply map_ext_Forall, Forall_forall. intros e' He'. f_equal.
    unfold label_of. rewrite Hfirst. f_equal. f_equal.
    assert (getattr e' f ∈ map (λ x, getattr x f) (e :: L)) as Hv
      by (rewrite map_fmap; apply list_elem_of_fmap; by exists e').
    assert (∀ u, u ∈ map (λ x, getattr x f) (e :: L) → 0 ≤ u) as Hpos.
    { intros u [->|Hu]%elem_of_cons; [lia|]. rewrite <- Hx0. by apply Hge. }
    assert (0 ∈ map (λ x, getattr x f) (e :: L)) as H0 by (rewrite <- Hx0; by left).
    destruct (decide (getattr e' f = 0)) as [Hv0|Hv0].
    + rewrite !count_distinct_none; [done| |].
      * intros u Hu. specialize (Hpos u Hu). lia.
      * intros u Hu. lia.
    + specialize (Hpos _ Hv) as Hvpos.
      rewrite (count_distinct_split (λ u, 0 < u ≤ getattr e' f) (getattr e' f)) by lia.
      rewrite (count_distinct_split (λ u, u < getattr e' f) 0) by lia.
      rewrite !decide_True by done. f_equal.
      apply count_distinct_ext. intros u Hu. specialize (Hpos u Hu). lia.
  - simpl relabel_loop. rewrite !decide_True by done. cbn [map] in Hfirst |- *. f_equal.
    + f_equal. unfold label_of. rewrite Hfirst.
      rewrite count_distinct_none; [lia|].
      intros u [->|Hu]%elem_of_cons; [lia|]. specialize (Hge u Hu). lia.
    + rewrite relabel_loop_spec; [|done|].
      2:{ apply Forall_forall. intros e' He'. apply Hge.
          rewrite map_fmap. apply list_elem_of_fmap. by exists e'. }
      apply map_ext_Forall, Forall_forall. intros e' He'. f_equal.
      unfold label_of. rewrite Hfirst.
      assert (getattr e' f ∈ map (λ x, getattr x f) L) as Hv
        by (rewrite map_fmap; apply list_elem_of_fmap; by exists e').
      pose proof (Hge _ Hv) as Hxv.
      rewrite count_distinct_cons.
      destruct (decide (getattr e' f = getattr e f)) as [Hvx|Hvx].
      * rewrite !count_distinct_none.
        -- rewrite decide_False by (intros [? _]; lia). lia.
        -- intros u Hu. specialize (Hge u Hu). lia.
        -- intros u Hu. lia.
      * rewrite (count_distinct_split (λ u, getattr e f < u ≤ getattr e' f)
                   (getattr e' f)) by lia.
        rewrite (count_distinct_split (λ u, u < getattr e' f) (getattr e f)) by lia.
        rewrite (count_distinct_ext
                   (λ u, (getattr e f < u ≤ getattr e' f) ∧ u ≠ getattr e' f)
                   (λ u, u < getattr e' f ∧ u ≠ getattr e f))
          by (intros u Hu; specialize (Hge u Hu); lia).
        rewrite (decide_True (P := getattr e' f ∈ map (λ x, getattr x f) L)) by done.
        destruct (decide (getattr e f ∈ map (λ x, getattr x f) L)).
        -- rewrite decide_False by tauto. lia.
        -- rewrite decide_True by (split; [lia|done]). lia.
Qed.

Lemma sorted_le_NoDup_lt (l : list Z) :
  StronglySorted Z.le l → NoDup l → StronglySorted Z.lt l.
Proof.
  induction 1 as [|x l Hl IH Hx]; intros Hnd; [constructor|].
  apply NoDup_cons in Hnd as [Hxl Hnd]. constructor; [by apply IH|].
  rewrite Forall_forall in Hx |- *. intros y Hy. specialize (Hx y Hy).
  assert (x ≠ y) by (by intros ->). lia.
Qed.

Lemma np_unique_sorted_lt l : StronglySorted Z.lt (np_unique l).
Proof. apply sorted_le_NoDup_lt; [apply np_unique_sorted|apply np_unique_NoDup]. Qed.

Lemma filter_lt_sorted (l : list Z) i v :
  StronglySorted Z.lt l → l !! i = Some v → length (filter (λ u, u < v) l) = i.
Proof.
  intros Hs. revert i. induction Hs as [|y l Hl IH Hy]; intros i Hi; [done|].
  rewrite Forall_forall in Hy. rewrite filter_cons. destruct i as [|i]; simpl in Hi.
  - injection Hi as ->. rewrite decide_False by lia.
    apply filter_nil_Forall, Forall_forall. intros u Hu. specialize (Hy u Hu). lia.
  - assert (y < v) by (apply Hy; by eapply list_elem_of_lookup_2).
    rewrite decide_True by done. simpl. by rewrite (IH i).
Qed.

(** The [i]-th smallest distinct value gets the first label plus [i]. *)
Lemma label_of_rank vals i v :
  np_unique vals !! i = Some v → label_of vals v = first_label vals + Z.of_nat i.
Proof.
  intros Hi. unfold label_of, count_distinct.
  by rewrite (filter_lt_sorted _ i v (np_unique_sorted_lt vals) Hi).
Qed.

Lemma label_of_strict vals u v :
  u ∈ vals → v ∈ vals → u < v → label_of vals u < label_of vals v.
Proof.
  intros Hu Hv Huv. unfold label_of.
  rewrite (count_distinct_split (λ w, w < v) u) by done.
  rewrite decide_True by done.
  pose proof (count_distinct_mono (λ w, w < u) (λ w, w < v ∧ w ≠ u) vals) as Hle.
  specialize (Hle ltac:(intros; simpl in *; lia)). lia.
Qed.

Lemma label_of_inj vals u v :
  u ∈ vals → v ∈ vals → label_of vals u = label_of vals v → u = v.
Proof.
  intros Hu Hv Heq.
  destruct (Z.lt_trichotomy u v) as [Hlt|[->|Hgt]]; [|done|].
  - pose proof (label_of_strict vals u v Hu Hv Hlt). lia.
  - pose proof (label_of_strict vals v u Hv Hu Hgt). lia.
Qed.

(** X13. [relabel_by_field] leaves the list sorted by the field and renames the
    values of the field, keeping their order: the [i]-th smallest distinct
    value becomes [first_label + i], where the first label is 0 when the
    smallest value is 0 and 1 otherwise. The other fields are untouched. *)
Theorem relabel_by_field_labels D f :
  let vals := map (λ x, getattr x f) D in
  relabel_by_field D f
  = map (λ e, setattr e f (label_of vals (getattr e f))) (stable_sort (λ x, [getattr x f]) D) ∧
  (∀ i v, np_unique vals !! i = Some v → label_of vals v = first_label vals + Z.of_nat i) ∧
  (∀ u v, u ∈ vals → v ∈ vals → u < v → label_of vals u < label_of vals v) ∧
  first_label vals = (if decide (head (np_unique vals) = Some 0) then 0 else 1).
Proof.
  intros vals. split; [apply relabel_by_field_relabelled|].
  split; [apply label_of_rank|]. split; [apply label_of_strict|done].
Qed.

Lemma sorted_lt_map_strict (φ : Z → Z) (l : list Z) :
  StronglySorted Z.lt l →
  (∀ u v, u ∈ l → v ∈ l → u < v → φ u < φ v) →
  StronglySorted Z.lt (map φ l).
Proof.
  induction 1 as [|x l Hl IH Hx]; intros Hφ; simpl; [constructor|].
  constructor.
  - apply IH. intros u v Hu Hv. apply Hφ; by right.
  - rewrite Forall_forall in Hx. apply Forall_map, Forall_forall.
    intros y Hy. apply Hφ; [by left|by right|by apply Hx].
Qed.

Lemma np_unique_map_strict (φ : Z → Z) (l : list Z) :
  (∀ u v, u ∈ l → v ∈ l → u < v → φ u < φ v) →
  np_unique (map φ l) = map φ (np_unique l).
Proof.
  intros Hφ.
  assert (StronglySorted Z.lt (map φ (np_unique l))) as Hs.
  { apply sorted_lt_map_strict; [apply np_unique_sorted_lt|].
    intros u v Hu Hv. rewrite np_unique_elem in Hu, Hv. by apply Hφ. }
  apply (StronglySorted_unique Z.le).
  - apply np_unique_sorted.
  - by apply sorted_lt_le.
  - apply NoDup_Permutation; [apply np_unique_NoDup|by apply sorted_lt_NoDup|].
    intros x. rewrite np_unique_elem, !map_fmap, !list_elem_of_fmap.
    by setoid_rewrite np_unique_elem.
Qed.

Lemma map_by_index {A B} (φ : A → B) (g : nat → B) (l : list A) :
  (∀ i v, l !! i = Some v → φ v = g i) → map φ l = map g (seq 0 (length l)).
Proof.
  revert g. induction l as [|x l IH]; intros g Hg; simpl; [done|].
  rewrite (Hg 0%nat x) by done. f_equal.
  rewrite <- seq_shift, map_map. apply IH. intros i v Hi. by apply (Hg (S i)).
Qed.

(** The distinct labels are the integers from the first label on. *)
Lemma np_unique_labels vals :
  np_unique (map (label_of vals) vals)
  = map (λ i, first_label vals + Z.of_nat i) (seq 0 (length (np_unique vals))).
Proof.
  rewrite np_unique_map_strict by apply label_of_strict.
  apply map_by_index, label_of_rank.
Qed.

Lemma relabelled_perm f D :
  relabelled f D
  ≡ₚ map (λ e, setattr e f (label_of (map (λ x, getattr x f) D) (getattr e f))) D.
Proof. unfold relabelled. apply Permutation_map, stable_sort_perm. Qed.

Lemma IL_relabel {W} (s : AnnotatedHypergraph W) :
  IL (relabel s) = relabelled Fnid (relabelled Feid (IL s)).
Proof. unfold relabel. simpl. by rewrite !relabel_by_field_relabelled. Qed.

(** The incidence list after [relabel]: the old one, rearranged, with node
    ids and edge ids renamed by [label_of]. *)
Lemma IL_relabel_rename {W} (s : AnnotatedHypergraph W) :
  IL (relabel s)
  ≡ₚ map (rename (label_of (map nid (IL s))) (label_of (map eid (IL s)))) (IL s).
Proof.
  rewrite IL_relabel.
  pose proof (relabelled_perm Feid (IL s)) as H1. simpl in H1.
  assert (map nid (relabelled Feid (IL s)) ≡ₚ map nid (IL s)) as Hn.
  { rewrite H1, map_map. done. }
  rewrite relabelled_perm. simpl.
  rewrite (label_of_ext (map (λ x, nid x) (relabelled Feid (IL s))) (map nid (IL s)))
    by (intros u; by rewrite <- Hn).
  rewrite H1, map_map. done.
Qed.

(** After [relabel] the lists of node ids and of edge ids are runs of
    consecutive integers. *)
Lemma relabel_lists {W} (s : AnnotatedHypergraph W) :
  let nids := map nid (IL s) in
  let eids := map eid (IL s) in
  node_list (relabel s)
  = map (λ i, first_label nids + Z.of_nat i) (seq 0 (length (np_unique nids))) ∧
  edge_list (relabel s)
  = map (λ i, first_label eids + Z.of_nat i) (seq 0 (length (np_unique eids))).
Proof.
  intros nids eids.
  pose proof (IL_relabel_rename s) as Hperm. fold nids eids in Hperm.
  split.
  - change (node_list (relabel s)) with (np_unique (map nid (IL (relabel s)))).
    rewrite <- np_unique_labels. apply np_unique_ext. intros u.
    rewrite Hperm, map_map. unfold nids. by rewrite map_map.
  - change (edge_list (relabel s)) with (np_unique (map eid (IL (relabel s)))).
    rewrite <- np_unique_labels. apply np_unique_ext. intros u.
    rewrite Hperm, map_map. unfold eids. by rewrite map_map.
Qed.

(** X14. [relabel] renames: node ids and edge ids are replaced through maps that
    keep their order (so two incidences share a node, or an edge, after the
    call exactly when they did before), roles and metadata stay. The new ids
    are consecutive integers, from 0 when the smallest old id is 0 and from
    1 otherwise, and [node_list], [edge_list], [n] and [m] list them. *)
Theorem relabel_renames {W} (s : AnnotatedHypergraph W) :
  let nids := map nid (IL s) in
  let eids := map eid (IL s) in
  IL (relabel s) ≡ₚ map (rename (label_of nids) (label_of eids)) (IL s) ∧
  (∀ u v, u ∈ nids → v ∈ nids → u < v → label_of nids u < label_of nids v) ∧
  (∀ u v, u ∈ eids → v ∈ eids → u < v → label_of eids u < label_of eids v) ∧
  node_list (relabel s)
  = map (λ i, first_label nids + Z.of_nat i) (seq 0 (length (np_unique nids))) ∧
  edge_list (relabel s)
  = map (λ i, first_label eids + Z.of_nat i) (seq 0 (length (np_unique eids))) ∧
  n (relabel s) = length (np_unique nids) ∧
  m (relabel s) = length (np_unique eids) ∧
  roles (relabel s) = roles s.
Proof.
  intros nids eids.
  destruct (relabel_lists s) as [Hnl Hel]. fold nids eids in Hnl, Hel.
  split; [apply IL_relabel_rename|].
  split; [apply label_of_strict|]. split; [apply label_of_strict|].
  split; [done|]. split; [done|].
  split; [|split; [|done]].
  - change (n (relabel s)) with (length (node_list (relabel s))).
    by rewrite Hnl, length_map, length_seq.
  - change (m (relabel s)) with (length (edge_list (relabel s))).
    by rewrite Hel, length_map, length_seq.
Qed.

(** ** Maintenance: singletons and degeneracies *)

(** Removing, one [list.remove] at a time, the elements picked by [P] leaves
    the others in place. *)
Lemma list_remove_filter (P : NodeEdgeIncidence → Prop) `{!∀ x, Decision (P x)} pre l :
  Forall (λ x, ¬ P x) pre →
  foldl (λ il e, list_remove e il) (pre ++ l) (filter P l)
  = pre ++ filter (λ x, ¬ P x) l.
Proof.
  revert pre. induction l as [|x l IH]; intros pre Hpre; [done|].
  rewrite !filter_cons. destruct (decide (P x)) as [HP|HP].
  - rewrite decide_False by tauto. simpl.
    assert (list_remove x (pre ++ x :: l) = pre ++ l) as ->; [|by apply IH].
    clear IH. induction Hpre as [|y pre Hy Hpre IH]; simpl.
    + by rewrite decide_True.
    + rewrite decide_False by (by intros ->). by rewrite IH.
  - rewrite decide_True by done.
    rewrite (cons_middle x pre l), app_assoc. rewrite IH.
    + by rewrite <- app_assoc.
    + apply Forall_app. split; [done|]. by constructor.
Qed.

(** Counting through a renaming that is injective on the values at hand. *)
Lemma count_renamed {A} (g : A → Z) (φ : Z → Z) (l : list A) v :
  v ∈ map g l →
  (∀ u, u ∈ map g l → φ u = φ v → u = v) →
  length (filter (λ x, φ (g x) = φ v) l) = length (filter (λ x, g x = v) l).
Proof.
  intros _ Hinj. induction l as [|x l IH]; [done|].
  rewrite !filter_cons.
  assert (φ (g x) = φ v ↔ g x = v) as Hx.
  { split; [|by intros ->]. apply Hinj. simpl. by left. }
  assert (length (filter (λ x, φ (g x) = φ v) l) = length (filter (λ x, g x = v) l)) as IH'.
  { apply IH. intros u Hu. apply Hinj. simpl. by right. }
  destruct (decide (φ (g x) = φ v)), (decide (g x = v)); simpl; try tauto; by rewrite IH'.
Qed.

(** What [remove_singletons] leaves: the incidences of the edges whose
    dimension is not 1, rearranged and relabelled. *)
Lemma IL_remove_singletons {W} (s : AnnotatedHypergraph W) :
  let keep := filter (λ x, length (filter (λ y, eid y = eid x) (IL s)) ≠ 1%nat) (IL s) in
  IL (remove_singletons s).1
  ≡ₚ map (rename (label_of (map nid keep)) (label_of (map eid keep))) keep ∧
  (remove_singletons s).2
  = length (filter (λ x, length (filter (λ y, eid y = eid x) (IL s)) = 1%nat) (IL s)).
Proof.
  intros keep. unfold remove_singletons, edge_dimensions.
  set (s1 := sort [Frole] false s).
  assert (IL s1 ≡ₚ IL s) as Hperm by apply IL_sort_perm.
  assert (∀ x, counter_get (Counter (map eid (IL s1))) (eid x)
               = length (filter (λ y, eid y = eid x) (IL s))) as Hcount.
  { intros x. by rewrite counter_get_Counter, length_filter_map, Hperm. }
  cbn [fst snd].
  pose proof (list_remove_filter
                (λ e, counter_get (Counter (map eid (IL s1))) (eid e) = 1%nat) [] (IL s1)
                (Forall_nil_2 _)) as Hrem.
  simpl in Hrem. rewrite Hrem. clear Hrem.
  assert (filter (λ x, counter_get (Counter (map eid (IL s1))) (eid x) ≠ 1%nat) (IL s1)
          ≡ₚ keep) as Hkeep.
  { unfold keep. rewrite <- Hperm. apply Permutation_refl'.
    apply list_filter_iff. intros x. by rewrite Hcount. }
  split.
  - change (IL (set_states ?t)) with (IL t).
    rewrite IL_relabel_rename. cbn [IL with_IL].
    rewrite (label_of_ext _ (map nid keep)) by (intros u; by rewrite Hkeep).
    rewrite (label_of_ext (map eid _) (map eid keep)) by (intros u; by rewrite Hkeep).
    by rewrite Hkeep.
  - rewrite <- Hperm. f_equal. apply list_filter_iff. intros x. by rewrite Hcount.
Qed.

Lemma length_filter_partition {A} (P : A → Prop) `{!∀ x, Decision (P x)} (l : list A) :
  (length (filter P l) + length (filter (λ x, ¬ P x) l))%nat = length l.
Proof.
  induction l as [|x l IH]; [done|]. rewrite !filter_cons.
  destruct (decide (P x)).
  - rewrite decide_False by tauto. simpl. lia.
  - rewrite decide_True by done. simpl. lia.
Qed.

Lemma sum_list_indicator {A} (Q : A → Prop) `{!∀ x, Decision (Q x)} (l : list A) :
  sum_list (map (λ e, if decide (Q e) then 1%nat else 0%nat) l) = length (filter Q l).
Proof.
  induction l as [|x l IH]; [done|]. simpl. rewrite filter_cons, IH.
  by destruct (decide (Q x)).
Qed.

(** The incidences that lie in edges of dimension 1 are as many as those
    edges. *)
Lemma singleton_incidences (il : list NodeEdgeIncidence) :
  length (filter (λ x, length (filter (λ y, eid y = eid x) il) = 1%nat) il)
  = length (filter (λ e, length (filter (λ y, eid y = e) il) = 1%nat)
              (np_unique (map eid il))).
Proof.
  rewrite <- (sum_over_keys eid _ (np_unique (map eid il)) il).
  - rewrite <- sum_list_indicator. f_equal. apply map_ext. intros e.
    destruct (decide (length (filter (λ y, eid y = e) il) = 1%nat)) as [H1|H1].
    + rewrite (list_filter_iff _ (λ y, eid y = e)); [done|].
      intros x. split; [by intros [? _]|]. by intros <-.
    + apply filter_nil_Forall, Forall_forall. intros x _ [<- HQ]. by apply H1.
  - apply np_unique_NoDup.
  - intros x Hx. apply np_unique_elem. rewrite map_fmap. apply list_elem_of_fmap.
    by exists x.
Qed.

(** X15. [remove_singletons] leaves no edge of dimension 1. It removes one
    incidence for each edge of dimension 1, the count it reports, and the
    number of edges goes down by that count. *)
Theorem remove_singletons_no_singleton {W} (s : AnnotatedHypergraph W) :
  let t := (remove_singletons s).1 in
  let k := (remove_singletons s).2 in
  (∀ e, counter_get (edge_dimensions t).2 e ≠ 1%nat) ∧
  k = length (filter (λ e, length (filter (λ y, eid y = e) (IL s)) = 1%nat)
                (np_unique (map eid (IL s)))) ∧
  (m t + k)%nat = length (np_unique (map eid (IL s))) ∧
  (length (IL t) + k)%nat = length (IL s).
Proof.
  intros t k.
  destruct (IL_remove_singletons s) as [Hperm Hk]. fold t k in Hperm, Hk.
  pose proof Hk as Hk'. rewrite singleton_incidences in Hk'.
  set (Q := λ x, length (filter (λ y, eid y = eid x) (IL s)) = 1%nat) in *.
  set (keep := filter (λ x, ¬ Q x) (IL s)) in *.
  set (φn := label_of (map nid keep)) in *.
  set (φe := label_of (map eid keep)) in *.
  assert (map eid (IL t) ≡ₚ map (λ x, φe (eid x)) keep) as Heids
    by (by rewrite Hperm, map_map).
  assert (∀ e0, e0 ∈ map eid keep →
                filter (λ y, eid y = e0) keep = filter (λ y, eid y = e0) (IL s) ∧
                length (filter (λ y, eid y = e0) (IL s)) ≠ 1%nat) as Hwhole.
  { intros e0 He0. rewrite map_fmap in He0.
    apply list_elem_of_fmap in He0 as (y & -> & Hy).
    apply list_elem_of_filter in Hy as [HQ Hy]. split; [|done].
    unfold keep. rewrite list_filter_filter. apply list_filter_iff.
    intros x. split; [by intros [? _]|]. intros Hx. split; [done|].
    unfold Q. by rewrite Hx. }
  split; [|split; [|split]].
  - intros e. unfold edge_dimensions. cbn [snd]. rewrite counter_get_Counter.
    assert (map eid (IL (sort [Frole] false t)) ≡ₚ map eid (IL t)) as ->
      by (by rewrite IL_sort_perm).
    rewrite Heids, length_filter_map.
    destruct (filter (λ x, φe (eid x) = e) keep) as [|y l'] eqn:Hf; [done|].
    assert (y ∈ filter (λ x, φe (eid x) = e) keep) as Hy by (rewrite Hf; by left).
    apply list_elem_of_filter in Hy as [<- Hy]. rewrite <- Hf.
    assert (eid y ∈ map eid keep) as Hin
      by (rewrite map_fmap; apply list_elem_of_fmap; by exists y).
    rewrite (count_renamed eid φe keep (eid y) Hin).
    + destruct (Hwhole _ Hin) as [-> ?]. done.
    + intros u Hu. by apply label_of_inj.
  - exact Hk'.
  - change (m t) with (length (np_unique (map eid (IL t)))).
    rewrite (np_unique_ext (map eid (IL t)) (map φe (map eid keep)))
      by (intros u; by rewrite Heids, map_map).
    rewrite np_unique_map_strict by apply label_of_strict.
    rewrite length_map, Hk'.
    rewrite <- (length_filter_partition
                  (λ e, length (filter (λ y, eid y = e) (IL s)) = 1%nat)
                  (np_unique (map eid (IL s)))).
    rewrite Nat.add_comm. f_equal.
    apply Permutation_length, NoDup_Permutation.
    + apply np_unique_NoDup.
    + apply NoDup_filter, np_unique_NoDup.
    + intros u. rewrite np_unique_elem, list_elem_of_filter, np_unique_elem. split.
      * intros Hu. destruct (Hwhole u Hu) as [_ Hdim]. split; [done|].
        rewrite map_fmap in Hu. apply list_elem_of_fmap in Hu as (y & -> & Hy).
        apply list_elem_of_filter in Hy as [_ Hy].
        rewrite map_fmap. apply list_elem_of_fmap. by exists y.
      * intros [Hdim Hu]. rewrite map_fmap in Hu.
        apply list_elem_of_fmap in Hu as (y & -> & Hy).
        rewrite map_fmap. apply list_elem_of_fmap. exists y. split; [done|].
        apply list_elem_of_filter. by split.
  - rewrite Hperm, length_map, Hk. unfold keep.
    rewrite Nat.add_comm. apply length_filter_partition.
Qed.

Lemma sort_insert_map {A B} (key : B → list Z) (g : A → B) x l :
  sort_insert key (g x) (map g l) = map g (sort_insert (λ a, key (g a)) x l).
Proof.
  induction l as [|y l IH]; simpl; [done|].
  destruct (lex_le (key (g x)) (key (g y))); simpl; [done|]. by rewrite IH.
Qed.

Lemma stable_sort_map {A B} (key : B → list Z) (g : A → B) l :
  stable_sort key (map g l) = map g (stable_sort (λ a, key (g a)) l).
Proof.
  induction l as [|x l IH]; simpl; [done|]. by rewrite IH, sort_insert_map.
Qed.

(** The inner loop of [remove_degeneracies] keeps one incidence of each node
    id, and incidences of the edge only. *)
Lemma dedupe_edge_spec E :
  NoDup (map nid (dedupe_edge E)) ∧
  (∀ x, x ∈ dedupe_edge E → x ∈ E) ∧
  (∀ v, v ∈ map nid (dedupe_edge E) ↔ v ∈ map nid E).
Proof.
  unfold dedupe_edge.
  assert (∀ acc,
            NoDup (map nid acc) →
            let out := foldl (λ E_ e, if decide (nid e ∈ map nid E_) then E_ else E_ ++ [e])
                         acc E in
            NoDup (map nid out) ∧
            (∀ x, x ∈ out → x ∈ acc ∨ x ∈ E) ∧
            (∀ v, v ∈ map nid out ↔ v ∈ map nid acc ∨ v ∈ map nid E)) as H.
  { induction E as [|e E IH]; intros acc Hacc; simpl.
    - split; [done|]. split; [by left|].
      intros v. split; [by left|]. by intros [?|?%elem_of_nil].
    - destruct (decide (nid e ∈ map nid acc)) as [Hin|Hout].
      + destruct (IH acc Hacc) as (H1 & H2 & H3). split; [done|]. split.
        * intros x Hx. destruct (H2 x Hx); [by left|right; by right].
        * intros v. rewrite H3, elem_of_cons. split; [tauto|].
          intros [?|[->|?]]; tauto.
      + destruct (IH (acc ++ [e])) as (H1 & H2 & H3).
        { rewrite map_app. simpl. apply NoDup_app. split; [done|].
          split; [|apply NoDup_singleton].
          intros v Hv Hv'%list_elem_of_singleton. by subst. }
        split; [done|]. split.
        * intros x Hx. destruct (H2 x Hx) as [Hx'|Hx']; [|right; by right].
          apply elem_of_app in Hx' as [?|Hx'%list_elem_of_singleton]; [by left|].
          subst. right. by left.
        * intros v. rewrite H3, map_app, elem_of_app, elem_of_cons. simpl.
          rewrite list_elem_of_singleton. tauto. }
  destruct (H [] (NoDup_nil_2)) as (H1 & H2 & H3). split; [done|]. split.
  - intros x Hx. by destruct (H2 x Hx) as [?%elem_of_nil|?].
  - intros v. rewrite H3. split; [by intros [?%elem_of_nil|?]|by right].
Qed.

(** Groups with distinct edge ids, each without a repeated node id, make a
    list without a repeated [(eid, nid)] pair. *)
Lemma NoDup_pairs_concat (gs : list (Z * list NodeEdgeIncidence)) :
  NoDup gs.*1 →
  Forall (λ kg, Forall (λ x, eid x = kg.1) kg.2 ∧ NoDup (map nid kg.2)) gs →
  NoDup (map (λ x, (eid x, nid x)) (concat gs.*2)).
Proof.
  induction gs as [|[k g] gs IH]; csimpl; [constructor|].
  intros [Hk Hnd]%NoDup_cons [[Hg Hgn] Hgs]%Forall_cons. simpl in *.
  rewrite map_app. apply NoDup_app. split; [|split; [|by apply IH]].
  - rewrite map_fmap. apply (NoDup_fmap_1 snd).
    rewrite <- list_fmap_compose. by rewrite <- map_fmap.
  - intros p Hp Hp'. rewrite map_fmap in Hp, Hp'.
    apply list_elem_of_fmap in Hp as (x & -> & Hx).
    apply list_elem_of_fmap in Hp' as (y & [= He Hn] & Hy).
    apply elem_of_concat in Hy as (g' & Hg' & Hy).
    apply list_elem_of_fmap in Hg' as ([k' g''] & -> & Hkg). simpl in *.
    pose proof (proj1 (Forall_forall _ _) Hgs _ Hkg) as [Hall _]. simpl in Hall.
    rewrite Forall_forall in Hg. rewrite Forall_forall in Hall.
    apply Hk. apply list_elem_of_fmap. exists (k', g''). split; [|done]. simpl.
    rewrite <- (Hg x Hx), He. by apply Hall.
Qed.

Lemma dedupe_groups_pairs (L : list NodeEdgeIncidence) :
  StronglySorted Z.le (map eid L) →
  let IL_ := concat (map dedupe_edge (map snd (groupby eid L))) in
  NoDup (map (λ x, (eid x, nid x)) IL_) ∧
  (∀ x, x ∈ IL_ → x ∈ L) ∧
  (∀ p, p ∈ map (λ x, (eid x, nid x)) IL_ ↔ p ∈ map (λ x, (eid x, nid x)) L).
Proof.
  intros Hs IL_.
  pose proof (groupby_sorted_NoDup eid L Hs) as Hnd.
  pose proof (groupby_groups eid L) as Hgs.
  pose proof (groupby_concat eid L) as Hcat.
  set (gs := groupby eid L) in *.
  set (gs' := map (λ kg : Z * list NodeEdgeIncidence, (kg.1, dedupe_edge kg.2)) gs).
  assert (gs'.*1 = gs.*1) as Hk'.
  { unfold gs'. clear. induction gs as [|[k g] gs IH]; csimpl; [done|]. by rewrite IH. }
  assert (IL_ = concat gs'.*2) as HIL.
  { unfold IL_, gs'. f_equal. clear.
    induction gs as [|[k g] gs IH]; csimpl; [done|]. by rewrite IH. }
  assert (∀ y, y ∈ IL_ ↔ ∃ k g, (k, g) ∈ gs ∧ y ∈ dedupe_edge g) as Hmem.
  { intros y. unfold IL_. rewrite elem_of_concat. split.
    - intros (l & Hl & Hy). rewrite !map_fmap in Hl.
      apply list_elem_of_fmap in Hl as (g & -> & Hg).
      apply list_elem_of_fmap in Hg as ([k g'] & -> & Hkg). by exists k, g'.
    - intros (k & g & Hkg & Hy). exists (dedupe_edge g). split; [|done].
      rewrite !map_fmap. apply list_elem_of_fmap. exists g. split; [done|].
      apply list_elem_of_fmap. by exists (k, g). }
  assert (∀ k g x, (k, g) ∈ gs → x ∈ g → eid x = k ∧ x ∈ L) as Hgrp.
  { intros k g x Hkg Hx. split.
    - pose proof (proj1 (Forall_forall _ _) Hgs _ Hkg) as [_ Hall]. simpl in Hall.
      rewrite Forall_forall in Hall. by apply Hall.
    - rewrite <- Hcat. apply elem_of_concat. exists g. split; [|done].
      apply list_elem_of_fmap. by exists (k, g). }
  split; [|split].
  - rewrite HIL. apply NoDup_pairs_concat; [by rewrite Hk'|].
    unfold gs'. rewrite map_fmap. apply Forall_fmap, Forall_forall.
    intros [k g] Hkg. simpl. destruct (dedupe_edge_spec g) as (H1 & H2 & _).
    split; [|done]. apply Forall_forall. intros x Hx.
    by apply (Hgrp k g x Hkg), H2.
  - intros y (k & g & Hkg & Hy)%Hmem.
    destruct (dedupe_edge_spec g) as (_ & H2 & _). by apply (Hgrp k g), H2.
  - intros p. rewrite !map_fmap, !list_elem_of_fmap. split.
    + intros (y & -> & (k & g & Hkg & Hy)%Hmem). exists y. split; [done|].
      destruct (dedupe_edge_spec g) as (_ & H2 & _). by apply (Hgrp k g), H2.
    + intros (x & -> & Hx). rewrite <- Hcat in Hx.
      apply elem_of_concat in Hx as (g & Hg & Hx).
      apply list_elem_of_fmap in Hg as ([k g'] & -> & Hkg). simpl in Hx.
      destruct (dedupe_edge_spec g') as (_ & H2 & H3).
      assert (nid x ∈ map nid (dedupe_edge g')) as Hn.
      { apply H3. rewrite map_fmap. apply list_elem_of_fmap. by exists x. }
      rewrite map_fmap in Hn. apply list_elem_of_fmap in Hn as (y & Hny & Hy).
      exists y. split; [|apply Hmem; by exists k, g'].
      destruct (Hgrp k g' x Hkg Hx) as [-> _].
      destruct (Hgrp k g' y Hkg (H2 y Hy)) as [-> _]. by rewrite Hny.
Qed.

(** The run of [remove_degeneracies] when every role has a precedence. *)
Lemma remove_degeneracies_Some {W} (precedence : dict Z) (s : AnnotatedHypergraph W) :
  (∀ x, x ∈ IL s → is_Some (dict_get precedence (role x))) →
  let L := stable_sort (λ x, [eid x; nid x; default 0 (dict_get precedence (role x))])
             (IL s) in
  let IL_ := concat (map dedupe_edge (map snd (groupby eid L))) in
  remove_degeneracies precedence s
  = Some (relabel (with_IL (with_sort_key (with_IL s L) (Some "custom"%string))
                     (stable_sort (λ x, [role x]) IL_)),
          Z.of_nat (length L) - Z.of_nat (length IL_)).
Proof.
  intros Hall L IL_. unfold remove_degeneracies.
  rewrite (mapM_total _
             (λ x, ([eid x; nid x; default 0 (dict_get precedence (role x))], x))).
  2:{ intros x Hx. destruct (Hall x Hx) as [p Hp]. by rewrite Hp. }
  simpl. unfold py_sort.
  rewrite (stable_sort_map fst), map_map. simpl. rewrite map_id. done.
Qed.

(** X16. [precedence[x.role]]: [remove_degeneracies] raises [KeyError] exactly when
    some incidence holds a role that the dictionary lacks. *)
Theorem remove_degeneracies_KeyError {W} (precedence : dict Z) (s : AnnotatedHypergraph W) :
  remove_degeneracies precedence s = None
  ↔ ∃ x, x ∈ IL s ∧ dict_get precedence (role x) = None.
Proof.
  split.
  - intros Hnone.
    destruct (decide (Exists (λ x, dict_get precedence (role x) = None) (IL s)))
      as [Hex|Hall].
    + by apply Exists_exists in Hex.
    + apply not_Exists_Forall in Hall; [|apply _].
      rewrite remove_degeneracies_Some in Hnone; [done|].
      intros x Hx. rewrite Forall_forall in Hall. specialize (Hall x Hx). simpl in Hall.
      by destruct (dict_get precedence (role x)).
  - intros (x & Hx & Hnone). unfold remove_degeneracies.
    rewrite (mapM_None_2 _ (IL s)); [done|].
    apply Exists_exists. exists x. split; [done|]. by rewrite Hnone.
Qed.

Lemma ids_of_pairs (l l' : list NodeEdgeIncidence) :
  (∀ p, p ∈ map (λ x, (eid x, nid x)) l ↔ p ∈ map (λ x, (eid x, nid x)) l') →
  (∀ v, v ∈ map nid l ↔ v ∈ map nid l') ∧ (∀ e, e ∈ map eid l ↔ e ∈ map eid l').
Proof.
  intros Hp.
  assert (∀ a b : list NodeEdgeIncidence,
            (∀ p, p ∈ map (λ x, (eid x, nid x)) a → p ∈ map (λ x, (eid x, nid x)) b) →
            (∀ v, v ∈ map nid a → v ∈ map nid b) ∧ (∀ e, e ∈ map eid a → e ∈ map eid b))
    as Hone.
  { intros a b Hab. split; intros v; rewrite !map_fmap, !list_elem_of_fmap;
      intros (x & -> & Hx);
      assert ((eid x, nid x) ∈ map (λ x, (eid x, nid x)) b) as Hin
        by (apply Hab; rewrite map_fmap; apply list_elem_of_fmap; by exists x);
      rewrite map_fmap in Hin; apply list_elem_of_fmap in Hin as (y & [= He Hn] & Hy);
      by exists y. }
  destruct (Hone l l') as [H1 H2]; [intros p; apply Hp|].
  destruct (Hone l' l) as [H3 H4]; [intros p; apply Hp|].
  split; intros v; split; auto.
Qed.

(** X17. When every role has a precedence, [remove_degeneracies] leaves a store
    without degenerate edges: of the incidences that repeat an
    [(edge, node)] pair exactly one stays, so that as many incidences remain
    as there are distinct pairs. The count it reports is the number of
    incidences removed, and no node and no edge disappears. *)
Theorem remove_degeneracies_removes {W} (precedence : dict Z) (s : AnnotatedHypergraph W) :
  (∀ x, x ∈ IL s → is_Some (dict_get precedence (role x))) →
  ∃ t k,
    remove_degeneracies precedence s = Some (t, k) ∧
    (count_degeneracies t).2 = 0%nat ∧
    length (IL t) = length (remove_dups (map (λ x, (eid x, nid x)) (IL s))) ∧
    k = Z.of_nat (length (IL s)) - Z.of_nat (length (IL t)) ∧
    n t = length (np_unique (map nid (IL s))) ∧
    m t = length (np_unique (map eid (IL s))).
Proof.
  intros Hall. rewrite remove_degeneracies_Some by done.
  set (L := stable_sort _ (IL s)).
  set (IL_ := concat (map dedupe_edge (map snd (groupby eid L)))).
  set (s2 := with_IL _ (stable_sort (λ x, [role x]) IL_)).
  eexists _, _. split; [reflexivity|].
  assert (L ≡ₚ IL s) as HL by apply stable_sort_perm.
  assert (StronglySorted Z.le (map eid L)) as Hs
    by (apply stable_sort_sorted_by; intros x; by eexists).
  destruct (dedupe_groups_pairs L Hs) as (Hnd & _ & Hpairs). fold IL_ in Hnd, Hpairs.
  assert (IL s2 ≡ₚ IL_) as H2 by apply stable_sort_perm.
  pose proof (IL_relabel_rename s2) as Ht.
  assert (n (relabel s2) = length (np_unique (map nid (IL s2))) ∧
          m (relabel s2) = length (np_unique (map eid (IL s2)))) as [Hn Hm].
  { destruct (relabel_lists s2) as [Hnl Hel].
    change (n (relabel s2)) with (length (node_list (relabel s2))).
    change (m (relabel s2)) with (length (edge_list (relabel s2))).
    by rewrite Hnl, Hel, !length_map, !length_seq. }
  assert (∀ p, p ∈ map (λ x, (eid x, nid x)) (IL s2)
               ↔ p ∈ map (λ x, (eid x, nid x)) (IL s)) as Hsame.
  { intros p. by rewrite H2, Hpairs, HL. }
  destruct (ids_of_pairs _ _ Hsame) as [Hnids Heids].
  assert (length (IL (relabel s2)) = length IL_) as Hlen
    by (by rewrite Ht, length_map, H2).
  split; [|split; [|split; [|split]]].
  - rewrite count_degeneracies_spec by done. apply degenerate_count_zero.
    rewrite Ht, map_map.
    change (map (λ x, (eid (rename ?f ?g x), nid (rename ?f ?g x))) ?l)
      with (map (λ x, (g (eid x), f (nid x))) l).
    rewrite <- (map_map (λ x, (eid x, nid x)) (λ p, (label_of (map eid (IL s2)) p.1,
                                                    label_of (map nid (IL s2)) p.2))).
    rewrite (map_fmap (λ p : Z * Z, _)). apply NoDup_fmap_2_strong.
    + intros [e1 v1] [e2 v2] H1 H3 [= He Hv]. simpl in *.
      rewrite map_fmap in H1, H3.
      apply list_elem_of_fmap in H1 as (x & [= -> ->] & Hx).
      apply list_elem_of_fmap in H3 as (y & [= -> ->] & Hy).
      f_equal.
      * apply (label_of_inj (map eid (IL s2))); [| |done];
          rewrite map_fmap; apply list_elem_of_fmap; by eexists.
      * apply (label_of_inj (map nid (IL s2))); [| |done];
          rewrite map_fmap; apply list_elem_of_fmap; by eexists.
    + by rewrite H2.
  - rewrite Hlen, <- (length_map (λ x, (eid x, nid x)) IL_).
    apply Permutation_length, NoDup_Permutation; [done|apply NoDup_remove_dups|].
    intros p. by rewrite elem_of_remove_dups, Hpairs, HL.
  - rewrite Hlen. by rewrite HL.
  - rewrite Hn. f_equal. by apply np_unique_ext.
  - rewrite Hm. f_equal. by apply np_unique_ext.
Qed.

Lemma remove_degeneracies_removes_witness :
  ∃ t k, remove_degeneracies [(0, 0); (1, 1)] one_degenerate_edge = Some (t, k) ∧
         (count_degeneracies t).2 = 0%nat.
Proof.
  destruct (remove_degeneracies_removes [(0, 0); (1, 1)] one_degenerate_edge)
    as (t & k & H1 & H2 & _).
  - intros x Hx. apply (bool_decide_unpack _).
    change (IL one_degenerate_edge) with [mkInc 1 0 0 None; mkInc 1 1 0 None] in Hx.
    apply elem_of_cons in Hx as [->|Hx]; [reflexivity|].
    apply elem_of_cons in Hx as [->|Hx]; [reflexivity|]. by apply elem_of_nil in Hx.
  - by exists t, k.
Defined.

(** ** The weighted projection: errors, support and symmetry *)

Lemma foldlM_fails {A B} (f : B → A → option B) (l : list A) x :
  x ∈ l → (∀ b, f b x = None) → ∀ b, foldlM f b l = None.
Proof.
  intros Hx Hf. induction l as [|y l IH]; intros b; [by apply elem_of_nil in Hx|].
  simpl. apply elem_of_cons in Hx as [<-|Hx]; [by rewrite Hf|].
  destruct (f b y); simpl; [by apply IH|done].
Qed.

Lemma foldlM_None {A B} (f : B → A → option B) (l : list A) b :
  foldlM f b l = None → ∃ x b', x ∈ l ∧ f b' x = None.
Proof.
  revert b. induction l as [|y l IH]; intros b; simpl; [done|].
  destruct (f b y) as [b'|] eqn:Hy; simpl.
  - intros (x & b'' & Hx & Hf)%IH. exists x, b''. split; [by right|done].
  - intros _. exists y, b. split; [by left|done].
Qed.

(** The pairs of [permutations(edge, 2)]: the elements at two different
    positions. *)
Lemma permutations2_lookup {A} (l : list A) a b :
  (a, b) ∈ permutations2 l ↔ ∃ i j, i ≠ j ∧ l !! i = Some a ∧ l !! j = Some b.
Proof.
  unfold permutations2. split.
  - intros (l1 & Hab & Hl1)%list_elem_of_join.
    apply elem_of_lookup_imap in Hl1 as (i & x & -> & Hx).
    apply list_elem_of_join in Hab as (l2 & Hab & Hl2).
    apply elem_of_lookup_imap in Hl2 as (j & y & -> & Hy).
    case_decide; [by apply elem_of_nil in Hab|].
    apply list_elem_of_singleton in Hab as [= -> ->]. by exists i, j.
  - intros (i & j & Hij & Hi & Hj).
    apply list_elem_of_join. eexists. split; [|apply elem_of_lookup_imap; by exists i, a].
    apply list_elem_of_join. eexists. split; [|apply elem_of_lookup_imap; by exists j, b].
    rewrite decide_False by done. by apply list_elem_of_singleton.
Qed.

(** The pairs the projection visits: two different positions of one edge. *)
Lemma projection_pairs_in {W} (s : AnnotatedHypergraph W) a b :
  (a, b) ∈ projection_pairs s
  ↔ ∃ e, (a, b) ∈ permutations2 (filter (λ x, eid x = e) (IL s)).
Proof.
  unfold projection_pairs.
  destruct (get_IL_groups s) as (keys & Hkeys & ->).
  rewrite map_map. simpl. rewrite elem_of_concat. split.
  - intros (l & Hl & Hab). rewrite map_fmap in Hl.
    apply list_elem_of_fmap in Hl as (e & -> & _). by exists e.
  - intros (e & Hab). exists (permutations2 (filter (λ x, eid x = e) (IL s))).
    split; [|done]. rewrite map_fmap. apply list_elem_of_fmap. exists e. split; [done|].
    rewrite Hkeys. apply np_unique_elem.
    apply permutations2_elem in Hab as [Ha _].
    apply list_elem_of_filter in Ha as [<- Ha].
    rewrite map_fmap. apply list_elem_of_fmap. by exists a.
Qed.

Section ProjectionErrors.
Context {W : Type} (wzero wone : W) (wadd : W → W → W).

Lemma project_pair_None Rm rs we (ab : NodeEdgeIncidence * NodeEdgeIncidence) :
  project_pair wzero wadd Rm (role_map_of rs) we ab = None
  ↔ role ab.1 ∉ rs ∨ role ab.2 ∉ rs.
Proof.
  assert (∀ r, dict_get (role_map_of rs) r = None ↔ r ∉ rs) as Hget.
  { intros r. rewrite dict_get_None. by rewrite role_map_keys. }
  unfold project_pair.
  destruct (dict_get (role_map_of rs) (role ab.1)) as [ia|] eqn:Ha; simpl.
  - destruct (dict_get (role_map_of rs) (role ab.2)) as [ib|] eqn:Hb; simpl.
    + split; [done|]. intros [Hr|Hr]; apply Hget in Hr; congruence.
    + split; [|done]. intros _. right. by apply Hget.
  - split; [|done]. intros _. left. by apply Hget.
Qed.

(** X18. [to_weighted_projection] raises exactly when more than one output format
    is requested, or ([KeyError] at [role_map[...]]) when an incidence of an
    edge with two or more incidences holds an undeclared role. An undeclared
    role in an edge of one incidence goes unnoticed. *)
Theorem projection_raises (use_networkx use_graphtool as_matrix : bool)
    (s : AnnotatedHypergraph W) :
  (to_weighted_projection wzero wone wadd use_networkx use_graphtool as_matrix s).2 = None
  ↔ (1 < length (filter (λ b, b = true) [use_networkx; use_graphtool; as_matrix]))%nat
    ∨ ∃ x, x ∈ IL s ∧ (role x ∉ roles s) ∧
           (2 ≤ length (filter (λ y, eid y = eid x) (IL s)))%nat.
Proof.
  unfold to_weighted_projection.
  destruct (decide (1 < length (filter (λ b, b = true)
                                  [use_networkx; use_graphtool; as_matrix]))%nat)
    as [Hmany|Hone]; [by split; [left|]|].
  cbn [snd].
  assert (IL (ensure_R wone s) = IL s) as HIL by (unfold ensure_R; by destruct (R s)).
  assert (projection_pairs (ensure_R wone s) = projection_pairs s) as ->
    by (unfold projection_pairs, get_IL; by rewrite HIL).
  set (f := project_pair wzero wadd (matrix_of wone (ensure_R wone s))
              (role_map_of (roles s))).
  assert (foldlM f [] (projection_pairs s) = None
          ↔ ∃ x, x ∈ IL s ∧ (role x ∉ roles s) ∧
                 (2 ≤ length (filter (λ y, eid y = eid x) (IL s)))%nat) as Hiff.
  { split.
    - intros ([a b] & we & Hab & Hnone)%foldlM_None.
      apply project_pair_None in Hnone. simpl in Hnone.
      apply projection_pairs_in in Hab as (e & Hab).
      apply permutations2_lookup in Hab as (i & j & Hij & Hi & Hj).
      assert (∀ k z, filter (λ x, eid x = e) (IL s) !! k = Some z →
                     z ∈ IL s ∧ eid z = e) as Hin.
      { intros k z Hz. apply list_elem_of_lookup_2 in Hz.
        by apply list_elem_of_filter in Hz as [? ?]. }
      assert (2 ≤ length (filter (λ x, eid x = e) (IL s)))%nat as Hlen.
      { apply lookup_lt_Some in Hi, Hj. lia. }
      destruct (Hin _ _ Hi) as [Ha Hea], (Hin _ _ Hj) as [Hb Heb].
      destruct Hnone as [Hr|Hr]; [exists a|exists b]; subst e;
        split; try done; split; try done. by rewrite Heb.
    - intros (x & Hx & Hr & Hlen).
      set (g := filter (λ y, eid y = eid x) (IL s)) in *.
      assert (x ∈ g) as Hxg by (by apply list_elem_of_filter).
      apply list_elem_of_lookup_1 in Hxg as [i Hi].
      assert (∃ j y, j ≠ i ∧ g !! j = Some y) as (j & y & Hji & Hj).
      { destruct i as [|i].
        - destruct (lookup_lt_is_Some_2 g 1%nat) as [y Hy]; [lia|]. by exists 1%nat, y.
        - destruct (lookup_lt_is_Some_2 g 0%nat) as [y Hy]; [lia|]. by exists 0%nat, y. }
      apply (foldlM_fails f _ (x, y)).
      + apply projection_pairs_in. exists (eid x). apply permutations2_lookup.
        exists i, j. split; [done|]. by split.
      + intros we. apply project_pair_None. by left. }
  destruct (foldlM f [] (projection_pairs s)) as [we|] eqn:Hf; simpl.
  - split; [by destruct as_matrix, (use_networkx || use_graphtool)|].
    intros [?|Hx]; [done|]. by apply Hiff in Hx.
  - split; [|done]. intros _. right. by apply Hiff.
Qed.
End ProjectionErrors.

(** *** The ordered pairs of a list, read backwards *)






Lemma filter_none {A} (P : A → Prop) `{!∀ x, Decision (P x)} (l : list A) :
  (∀ x, x ∈ l → ¬ P x) → filter P l = [].
Proof.
  intros HP. destruct (filter P l) as [|y l'] eqn:Hf; [done|].
  assert (y ∈ filter P l) as Hy by (rewrite Hf; by left).
  apply list_elem_of_filter in Hy as [Hy Hin]. by destruct (HP y Hin).
Qed.

Section ProjectionSupport.
Context {W : Type} (wzero wone : W) (wadd : W → W → W).

Hypothesis wadd_comm : ∀ x y, wadd x y = wadd y x.
Hypothesis wadd_assoc : ∀ x y z, wadd x (wadd y z) = wadd (wadd x y) z.
Hypothesis wadd_zero : ∀ x, wadd wzero x = x.

(** The nested mapping returned on a store whose incidences all hold
    declared roles, with its entries. *)
Lemma projection_dict (s : AnnotatedHypergraph W) :
  (∀ x, x ∈ IL s → role x ∈ roles s) →
  ∃ we,
    to_weighted_projection wzero wone wadd false false false s
    = (ensure_R wone s, Some (AsDict we)) ∧
    ∀ u v, weight_of wzero we u v
           = projection_weight wzero wadd (matrix_of wone (ensure_R wone s))
               (roles s) (IL s) u v.
Proof.
  intros Hroles.
  assert (IL (ensure_R wone s) = IL s) as HIL by (unfold ensure_R; by destruct (R s)).
  assert (projection_pairs (ensure_R wone s) = projection_pairs s) as Hpairs
    by (unfold projection_pairs, get_IL; by rewrite HIL).
  eexists. split.
  - unfold to_weighted_projection. rewrite decide_False by (simpl; lia).
    rewrite Hpairs, foldlM_project; [done|].
    apply Forall_forall. intros [a b] [Ha Hb]%projection_pairs_elem.
    split; by apply Hroles.
  - intros u v. rewrite weight_of_foldl, (foldl_wadd wzero wadd) by done.
    unfold weight_of at 1. simpl. rewrite wadd_zero.
    by apply projection_pairs_weight.
Qed.

Lemma wsum_zeros {A} (l : list A) : wsum wzero wadd (map (λ _, wzero) l) = wzero.
Proof. induction l as [|x l IH]; simpl; [done|]. by rewrite IH, wadd_zero. Qed.

(** A weight is zero when no edge offers a pair of positions for it. *)
Lemma projection_weight_zero Rm rs il u v :
  (∀ e a b, (a, b) ∈ permutations2 (filter (λ x, eid x = e) il) →
            nid a = u → nid b = v → False) →
  projection_weight wzero wadd Rm rs il u v = wzero.
Proof.
  intros Hno. unfold projection_weight.
  etrans; [|apply (wsum_zeros (np_unique (map eid il)))]. f_equal.
  apply map_ext. intros e. rewrite filter_none; [done|].
  intros [a b] Hab [Hu Hv]. by apply (Hno e a b).
Qed.

(** X19. The projection links only nodes that share an edge: the weight from [u]
    to [v] is zero when no edge holds both (at two different positions). In
    particular a store without degenerate edges has no self-loops. *)
Theorem projection_support (s : AnnotatedHypergraph W) :
  (∀ x, x ∈ IL s → role x ∈ roles s) →
  ∃ we,
    to_weighted_projection wzero wone wadd false false false s
    = (ensure_R wone s, Some (AsDict we)) ∧
    (∀ u v, (∀ a b, a ∈ IL s → b ∈ IL s → eid a = eid b → nid a = u → nid b = v → False) →
            weight_of wzero we u v = wzero) ∧
    (NoDup (map (λ x, (eid x, nid x)) (IL s)) → ∀ u, weight_of wzero we u u = wzero).
Proof.
  intros Hroles. destruct (projection_dict s Hroles) as (we & Hrun & Hweight).
  exists we. split; [done|]. split.
  - intros u v Hno. rewrite Hweight. apply projection_weight_zero.
    intros e a b [Ha Hb]%permutations2_elem Hu Hv.
    apply list_elem_of_filter in Ha as [Hea Ha].
    apply list_elem_of_filter in Hb as [Heb Hb].
    apply (Hno a b); try done. by rewrite Hea, Heb.
  - intros Hnd u. rewrite Hweight. apply projection_weight_zero.
    intros e a b (i & j & Hij & Hi & Hj)%permutations2_lookup Hu Hv.
    apply Hij.
    apply (NoDup_lookup (map nid (filter (λ x, eid x = e) (IL s))) i j u).
    + by apply NoDup_pairs_by_key.
    + by rewrite map_fmap, list_lookup_fmap, Hi, <- Hu.
    + by rewrite map_fmap, list_lookup_fmap, Hj, <- Hv.
Qed.

End ProjectionSupport.

Lemma projection_support_witness :
  ∃ we, to_weighted_projection 0 1 Z.add false false false two_edges
        = (ensure_R 1 two_edges, Some (AsDict we)) ∧
        weight_of 0 we 0 1 = 0.
Proof.
  destruct (projection_support 0 1 Z.add Z.add_comm Z.add_assoc Z.add_0_l two_edges)
    as (we & Hrun & Hsupp & _).
  - intros x Hx. apply (bool_decide_unpack _).
    change (IL two_edges)
      with [mkInc 0 0 0 None; mkInc 1 0 1 None; mkInc 2 1 1 None] in Hx.
    repeat (apply elem_of_cons in Hx as [->|Hx]; [reflexivity|]).
    by apply elem_of_nil in Hx.
  - exists we. split; [done|]. apply Hsupp. intros a b Ha Hb He Hna Hnb.
    change (IL two_edges)
      with [mkInc 0 0 0 None; mkInc 1 0 1 None; mkInc 2 1 1 None] in Ha, Hb.
    repeat (apply elem_of_cons in Ha as [->|Ha]; [|]); try by apply elem_of_nil in Ha.
    all: repeat (apply elem_of_cons in Hb as [->|Hb]; [|]); try by apply elem_of_nil in Hb.
    all: simpl in *; lia.
Defined.


(** ** The aggregates by role *)

Lemma dims_dict_row rs es c e :
  NoDup es → e ∈ es →
  dict_get (dims_dict rs es c) e = Some (dict_of_items (map (λ r, (r, c e r)) rs)).
Proof.
  intros Hes He. unfold dims_dict.
  rewrite dict_of_items_nodup by (by rewrite graph_keys).
  apply dict_get_nodup; [by rewrite graph_keys|].
  rewrite map_fmap. apply list_elem_of_fmap. by exists e.
Qed.

Lemma row_get rs (g : Z → nat) r :
  NoDup rs → r ∈ rs → dict_get (dict_of_items (map (λ r, (r, g r)) rs)) r = Some (g r).
Proof.
  intros Hrs Hr. rewrite dict_of_items_nodup by (by rewrite graph_keys).
  apply dict_get_nodup; [by rewrite graph_keys|].
  rewrite map_fmap. apply list_elem_of_fmap. by exists r.
Qed.

Lemma row_values rs (g : Z → nat) :
  NoDup rs → dict_values (dict_of_items (map (λ r, (r, g r)) rs)) = map g rs.
Proof.
  intros Hrs. rewrite dict_of_items_nodup by (by rewrite graph_keys).
  unfold dict_values. clear. induction rs as [|r rs IH]; csimpl; [done|]. by rewrite IH.
Qed.

(** The [as_matrix] loops on the nested dictionary of counts: row [i] is the
    [i]-th key and column [j] the [j]-th role. *)
Lemma by_role_matrix_spec rs es c :
  NoDup rs → NoDup es →
  ∃ M,
    by_role_matrix (dims_dict rs es c) (length es) es rs = Some M ∧
    shape0 M = length es ∧ shape1 M = length rs ∧
    ∀ i j e r, es !! i = Some e → rs !! j = Some r → entry M i j = c e r.
Proof.
  intros Hrs Hes. unfold by_role_matrix.
  rewrite (mapM_total _ (λ i, map (c (default 0 (es !! i))) rs)).
  2:{ intros i Hi. apply elem_of_seq in Hi as [_ Hi]. simpl in Hi.
      destruct (lookup_lt_is_Some_2 es i Hi) as [e He]. rewrite He. simpl.
      rewrite dims_dict_row by (by eapply list_elem_of_lookup_2 || done). simpl.
      apply mapM_total. intros r Hr. by apply row_get. }
  eexists. split; [reflexivity|]. split; [done|]. split; [done|].
  intros i j e r Hi Hj. simpl.
  rewrite map_fmap, list_lookup_fmap, lookup_seq_lt by (by eapply lookup_lt_Some).
  simpl. rewrite Hi. simpl. by rewrite map_fmap, list_lookup_fmap, Hj.
Qed.

(** What [node_degrees(by_role=True)] returns when every declared role is
    held by some incidence. *)
Lemma node_degrees_by_role_spec {W} (s : AnnotatedHypergraph W) :
  sort_key s ≠ Some (sort_key_of [Frole]) →
  NoDup (roles s) →
  (∀ r, r ∈ roles s → ∃ x, x ∈ IL s ∧ role x = r) →
  node_degrees_by_role s
  = (sort [Frole] false s, Some (dims_dict (roles s) (node_list s) (role_degree (IL s)))).
Proof.
  intros Hkey Hnd Hused. unfold node_degrees_by_role.
  set (s1 := sort [Frole] false s).
  assert (roles s1 = roles s ∧ node_list s1 = node_list s) as [Hrs Hes].
  { unfold s1, sort. by destruct (sort_skips _ _). }
  assert (IL s1 ≡ₚ IL s) as Hperm by apply IL_sort_perm.
  assert (StronglySorted Z.le (map role (IL s1))) as Hsorted.
  { unfold s1, sort, sort_skips. rewrite bool_decide_eq_false_2 by done. simpl.
    apply stable_sort_sorted_by. intros x. by eexists. }
  f_equal. rewrite Hrs, Hes.
  set (cnt := λ r, Counter (map nid (filter (λ x, role x = r) (IL s1)))).
  rewrite (mapM_total _ (λ r, (r, cnt r))).
  2:{ intros r Hr. rewrite sorted_groups_get; [done|done|].
      destruct (Hused r Hr) as (x & Hx & <-).
      rewrite map_fmap. apply list_elem_of_fmap. exists x. by rewrite Hperm. }
  csimpl. f_equal. unfold dims_dict. f_equal.
  apply map_ext. intros k. f_equal. f_equal.
  apply map_ext_in. intros r Hr%list_elem_of_In.
  f_equal. rewrite dict_of_items_nodup by (by rewrite graph_keys).
  rewrite (dict_get_nodup _ r (cnt r)).
  - simpl. unfold cnt. rewrite counter_get_Counter.
    rewrite length_filter_map, filter_filter_and. unfold role_degree. by rewrite Hperm.
  - by rewrite graph_keys.
  - rewrite map_fmap. apply list_elem_of_fmap. by exists r.
Qed.

(** X21. The matrix forms of the aggregates by role: on a store whose derived
    state is current and whose declared roles are distinct and all in use,
    the matrices have one row per edge (per node) of [edge_list]
    ([node_list]) and one column per declared role, and the entry at [(i, j)]
    counts the incidences of the [i]-th edge (node) that hold the [j]-th
    role. *)
Theorem by_role_matrices {W} (s : AnnotatedHypergraph W) :
  sort_key s ≠ Some (sort_key_of [Frole]) →
  NoDup (roles s) →
  (∀ r, r ∈ roles s → ∃ x, x ∈ IL s ∧ role x = r) →
  states_current s →
  ∃ Me Mn,
    (edge_dimensions_matrix s).2 = Some Me ∧
    (node_degrees_matrix s).2 = Some Mn ∧
    shape0 Me = m s ∧ shape1 Me = length (roles s) ∧
    shape0 Mn = n s ∧ shape1 Mn = length (roles s) ∧
    (∀ i j e r, edge_list s !! i = Some e → roles s !! j = Some r →
                entry Me i j = dim (IL s) e r) ∧
    (∀ i j v r, node_list s !! i = Some v → roles s !! j = Some r →
                entry Mn i j = role_degree (IL s) v r).
Proof.
  intros Hkey Hrs Hused (Hnl & Hel & Hn & Hm).
  assert (NoDup (edge_list s)) as Hes by (rewrite Hel; apply np_unique_NoDup).
  assert (NoDup (node_list s)) as Hns by (rewrite Hnl; apply np_unique_NoDup).
  set (s1 := sort [Frole] false s).
  assert (roles s1 = roles s ∧ edge_list s1 = edge_list s ∧ node_list s1 = node_list s
          ∧ m s1 = m s ∧ n s1 = n s) as (E1 & E2 & E3 & E4 & E5).
  { unfold s1, sort. by destruct (sort_skips _ _). }
  destruct (by_role_matrix_spec (roles s) (edge_list s) (dim (IL s)) Hrs Hes)
    as (Me & HMe & He0 & He1 & Hentry_e).
  destruct (by_role_matrix_spec (roles s) (node_list s) (role_degree (IL s)) Hrs Hns)
    as (Mn & HMn & Hn0 & Hn1 & Hentry_n).
  exists Me, Mn.
  split; [|split].
  - unfold edge_dimensions_matrix. rewrite edge_dimensions_by_role_spec by done.
    fold s1. cbn [snd]. simpl. by rewrite E1, E2, E4, Hm.
  - unfold node_degrees_matrix. rewrite node_degrees_by_role_spec by done.
    fold s1. cbn [snd]. simpl. by rewrite E1, E3, E5, Hn.
  - split; [by rewrite He0|]. split; [done|]. split; [by rewrite Hn0|]. by split.
Qed.

Lemma by_role_matrices_witness :
  ∃ Me Mn, (edge_dimensions_matrix two_edges).2 = Some Me ∧
           (node_degrees_matrix two_edges).2 = Some Mn ∧
           shape0 Me = m two_edges.
Proof.
  destruct (by_role_matrices two_edges) as (Me & Mn & H1 & H2 & H3 & _).
  - done.
  - apply (bool_decide_unpack _). reflexivity.
  - intros r Hr. change (roles two_edges) with [0; 1] in Hr.
    apply elem_of_cons in Hr as [->|Hr]; [exists (mkInc 0 0 0 None)|].
    { split; [|done]. apply (bool_decide_unpack _). reflexivity. }
    apply elem_of_cons in Hr as [->|Hr]; [exists (mkInc 2 1 1 None)|].
    { split; [|done]. apply (bool_decide_unpack _). reflexivity. }
    by apply elem_of_nil in Hr.
  - done.
  - by exists Me, Mn.
Defined.

(** X22. The two forms of each aggregate agree: on a store whose derived state
    is current, whose declared roles are distinct and all in use and whose
    incidences all hold declared roles, the entries of an edge (a node) in
    the by-role dictionary run over the declared roles and add up to its
    dimension (its degree). *)
Theorem by_role_totals {W} (s : AnnotatedHypergraph W) :
  sort_key s ≠ Some (sort_key_of [Frole]) →
  NoDup (roles s) →
  (∀ r, r ∈ roles s → ∃ x, x ∈ IL s ∧ role x = r) →
  (∀ x, x ∈ IL s → role x ∈ roles s) →
  states_current s →
  ∃ De Dn,
    (edge_dimensions_by_role s).2 = Some De ∧
    (node_degrees_by_role s).2 = Some Dn ∧
    (∀ e, e ∈ edge_list s →
          ∃ row, dict_get De e = Some row ∧ dict_keys row = roles s ∧
                 sum_list (dict_values row) = counter_get (edge_dimensions s).2 e) ∧
    (∀ v, v ∈ node_list s →
          ∃ row, dict_get Dn v = Some row ∧ dict_keys row = roles s ∧
                 sum_list (dict_values row) = counter_get (node_degrees s).2 v).
Proof.
  intros Hkey Hrs Hused Hdecl (Hnl & Hel & Hn & Hm).
  assert (NoDup (edge_list s)) as Hes by (rewrite Hel; apply np_unique_NoDup).
  assert (NoDup (node_list s)) as Hns by (rewrite Hnl; apply np_unique_NoDup).
  assert (∀ (f : NodeEdgeIncidence → Z) k,
            sum_list (map (λ r, length (filter (λ x, f x = k ∧ role x = r) (IL s)))
                        (roles s))
            = length (filter (λ z, z = k) (map f (IL (sort [Frole] false s))))) as Hsum.
  { intros f k. rewrite length_filter_map, (IL_sort_perm [Frole] false s).
    rewrite <- (sum_over_keys role (λ x, f x = k) (roles s) (IL s)) by done.
    f_equal. apply map_ext. intros r. f_equal. apply list_filter_iff. intros x. tauto. }
  eexists _, _.
  split; [by rewrite edge_dimensions_by_role_spec|].
  split; [by rewrite node_degrees_by_role_spec|].
  split.
  - intros e He. eexists. split; [by apply dims_dict_row|].
    split.
    + unfold dict_keys. rewrite dict_of_items_nodup by (by rewrite graph_keys).
      apply graph_keys.
    + rewrite row_values by done. unfold edge_dimensions. cbn [snd].
      rewrite counter_get_Counter. apply (Hsum eid).
  - intros v Hv. eexists. split; [by apply dims_dict_row|].
    split.
    + unfold dict_keys. rewrite dict_of_items_nodup by (by rewrite graph_keys).
      apply graph_keys.
    + rewrite row_values by done. unfold node_degrees. cbn [snd].
      rewrite counter_get_Counter. apply (Hsum nid).
Qed.

Lemma by_role_totals_witness :
  ∃ De, (edge_dimensions_by_role two_edges).2 = Some De ∧
        ∃ row, dict_get De 1 = Some row ∧ sum_list (dict_values row) = 2%nat.
Proof.
  destruct (by_role_totals two_edges) as (De & Dn & H1 & _ & H3 & _).
  - done.
  - apply (bool_decide_unpack _). reflexivity.
  - intros r Hr. change (roles two_edges) with [0; 1] in Hr.
    apply elem_of_cons in Hr as [->|Hr]; [exists (mkInc 0 0 0 None)|].
    { split; [|done]. apply (bool_decide_unpack _). reflexivity. }
    apply elem_of_cons in Hr as [->|Hr]; [exists (mkInc 2 1 1 None)|].
    { split; [|done]. apply (bool_decide_unpack _). reflexivity. }
    by apply elem_of_nil in Hr.
  - intros x Hx. apply (bool_decide_unpack _).
    change (IL two_edges)
      with [mkInc 0 0 0 None; mkInc 1 0 1 None; mkInc 2 1 1 None] in Hx.
    repeat (apply elem_of_cons in Hx as [->|Hx]; [reflexivity|]).
    by apply elem_of_nil in Hx.
  - done.
  - exists De. split; [done|].
    destruct (H3 1) as (row & Hrow & _ & Hsum).
    { apply (bool_decide_unpack _). reflexivity. }
    exists row. split; [done|]. rewrite Hsum. reflexivity.
Defined.

(** ** Stub matching keeps the stubs *)

Lemma pool_set st r x l :
  dict_get st r = Some (x :: l) → pool st ≡ₚ x :: pool (dict_set st r l).
Proof.
  unfold pool, dict_values. induction st as [|[k v] st IH]; simpl; [done|].
  destruct (decide (k = r)) as [->|Hne]; csimpl.
  - by intros [= ->].
  - intros Hget. rewrite (IH Hget). by rewrite Permutation_middle.
Qed.

Lemma foldlM_perm {A B} (f : B → A → option B) (μ : B → list (Z * Z)) l b b' :
  (∀ b x b', f b x = Some b' → μ b' ≡ₚ μ b) →
  foldlM f b l = Some b' → μ b' ≡ₚ μ b.
Proof.
  intros Hstep. revert b. induction l as [|x l IH]; intros b; simpl.
  - by intros [= ->].
  - destruct (f b x) as [b1|] eqn:Hf; simpl; [|done].
    intros Hrest. by rewrite (IH _ Hrest), (Hstep _ _ _ Hf).
Qed.

(** Every stub popped goes into the new incidence list: the stubs placed
    and the stubs waiting are, together, always the same. *)
Lemma pop_stubs_pool e r k acc acc' :
  pop_stubs e r k acc = Some acc' →
  map stub_of acc'.1 ++ pool acc'.2 ≡ₚ map stub_of acc.1 ++ pool acc.2.
Proof.
  revert acc. induction k as [|k IH]; intros [il st]; simpl.
  - by intros [= <-].
  - destruct (dict_get st r) as [[|to_add l']|] eqn:Hget; simpl; [done| |done].
    intros Hpop. rewrite (IH _ Hpop). simpl.
    rewrite map_app, <- app_assoc. apply Permutation_app_head. simpl.
    rewrite (pool_set st r to_add l' Hget). by destruct to_add.
Qed.

Lemma fill_edges_pool dims rs es acc acc' :
  foldlM (fill_edge dims rs) acc es = Some acc' →
  map stub_of acc'.1 ++ pool acc'.2 ≡ₚ map stub_of acc.1 ++ pool acc.2.
Proof.
  apply (foldlM_perm _ (λ acc, map stub_of acc.1 ++ pool acc.2)).
  intros b e b'. unfold fill_edge.
  apply (foldlM_perm _ (λ acc, map stub_of acc.1 ++ pool acc.2)).
  intros b1 r b2.
  destruct (dict_get dims e) as [de|]; simpl; [|done].
  destruct (dict_get de r) as [k|]; simpl; [|done].
  apply pop_stubs_pool.
Qed.

Lemma length_concat_sum {A} (ls : list (list A)) :
  length (concat ls) = sum_list (map (@length A) ls).
Proof. induction ls as [|l ls IH]; simpl; [done|]. by rewrite length_app, IH. Qed.

(** The plan has one slot for each incidence. *)
Lemma length_plan il rs es :
  NoDup rs → NoDup es →
  (∀ x, x ∈ il → role x ∈ rs) → (∀ x, x ∈ il → eid x ∈ es) →
  length (plan (dim il) rs es) = length il.
Proof.
  intros Hrs Hes Hroles Heids. unfold plan.
  rewrite length_concat_sum, map_map.
  transitivity (length (filter (λ _ : NodeEdgeIncidence, True) il)).
  2:{ f_equal. clear. induction il as [|x il IH]; [done|].
      by rewrite filter_cons, decide_True, IH. }
  rewrite <- (sum_over_keys eid (λ _, True) es il Hes Heids).
  f_equal. apply map_ext. intros e. unfold edge_plan.
  rewrite length_concat_sum, map_map.
  rewrite (list_filter_iff (λ x, eid x = e ∧ True) (λ x, eid x = e)) by (intros; tauto).
  rewrite <- (sum_over_keys role (λ x, eid x = e) rs il Hrs Hroles).
  f_equal. apply map_ext. intros r. rewrite length_replicate. unfold dim.
  f_equal. apply list_filter_iff. intros x. tauto.
Qed.

Lemma foldlM_invariant {A B} (f : B → A → option B) (P : B → Prop) l b b' :
  (∀ b x b', P b → f b x = Some b' → P b') →
  P b → foldlM f b l = Some b' → P b'.
Proof.
  intros Hstep. revert b. induction l as [|x l IH]; intros b Hb; simpl.
  - by intros [= <-].
  - destruct (f b x) as [b1|] eqn:Hf; simpl; [|done]. apply IH. by eapply Hstep.
Qed.

(** The incidences stub matching makes carry no metadata. *)
Lemma fill_edges_meta dims rs es acc acc' :
  Forall (λ x, meta x = None) acc.1 →
  foldlM (fill_edge dims rs) acc es = Some acc' →
  Forall (λ x, meta x = None) acc'.1.
Proof.
  apply (foldlM_invariant _ (λ acc, Forall (λ x, meta x = None) acc.1)).
  intros b e b'. unfold fill_edge.
  apply (foldlM_invariant _ (λ acc, Forall (λ x, meta x = None) acc.1)).
  intros b1 r b2 Hb1.
  destruct (dict_get dims e) as [de|]; simpl; [|done].
  destruct (dict_get de r) as [k|]; simpl; [|done].
  revert b1 Hb1. induction k as [|k IH]; intros [il st] Hil; simpl.
  - by intros [= <-].
  - destruct (dict_get st r) as [[|to_add l']|]; simpl; [done| |done].
    apply IH. simpl. apply Forall_app. split; [done|]. by constructor.
Qed.

(** A slot of the plan belongs to an edge and a role that have incidences. *)
Lemma plan_elem c rs es e r :
  (e, r) ∈ plan c rs es → e ∈ es ∧ r ∈ rs ∧ (0 < c e r)%nat.
Proof.
  unfold plan, edge_plan. intros (l & Hl & Her)%elem_of_concat.
  rewrite map_fmap in Hl. apply list_elem_of_fmap in Hl as (e' & -> & He').
  apply elem_of_concat in Her as (l & Hl & Her).
  rewrite map_fmap in Hl. apply list_elem_of_fmap in Hl as (r' & -> & Hr').
  apply elem_of_replicate in Her as [[= -> ->] Hc]. split; [done|]. split; [done|]. lia.
Qed.

Section StubMatchingStubs.
Context {W : Type} (shuffle : list (Z * Z) → list (Z * Z)).
(** [random.shuffle] rearranges: its result has the elements of its argument. *)
Hypothesis shuffle_rearranges : ∀ l, shuffle l ≡ₚ l.

(** The run of [stub_matching]: the slots it fills, and where the stubs are
    when it ends. *)
Lemma stub_matching_run (s : AnnotatedHypergraph W) :
  sort_key s ≠ Some (sort_key_of [Frole]) →
  edge_list s = np_unique (map eid (IL s)) →
  NoDup (roles s) →
  (∀ x, x ∈ IL s → role x ∈ roles s) →
  (∀ r, r ∈ roles s → ∃ x, x ∈ IL s ∧ role x = r) →
  ∃ out st',
    stub_matching shuffle s
    = (sort [Frole] false s, Some (set_states (with_IL (sort [Frole] false s) out))) ∧
    slots out = plan (dim (IL s)) (roles s) (edge_list s) ∧
    map stub_of out ++ pool st' ≡ₚ map stub_of (IL s) ∧
    Forall (λ x, meta x = None) out.
Proof.
  intros Hkey Hel Hnd Hdecl Hused.
  pose proof (edge_dimensions_by_role_spec s Hkey Hnd Hused) as Hdims.
  set (s1 := sort [Frole] false s) in *.
  set (D := dims_dict (roles s) (edge_list s) (dim (IL s))) in *.
  assert (roles s1 = roles s) as Hrs1 by (unfold s1, sort; by destruct (sort_skips _ _)).
  assert (IL s1 ≡ₚ IL s) as Hperm by apply IL_sort_perm.
  assert (NoDup (edge_list s)) as Hes by (rewrite Hel; apply np_unique_NoDup).
  assert (∀ x, x ∈ IL s → eid x ∈ edge_list s) as Heids.
  { intros x Hx. rewrite Hel, np_unique_elem, map_fmap.
    apply list_elem_of_fmap. by exists x. }
  set (sorted := py_sort (λ e : Z * Z, [e.2]) false (shuffle (map stub_of (IL s1)))).
  assert (sorted ≡ₚ map stub_of (IL s)) as Hsorted_perm.
  { unfold sorted. by rewrite py_sort_perm, shuffle_rearranges, Hperm. }
  assert (StronglySorted Z.le (map snd sorted)) as Hsorted.
  { unfold sorted. simpl. apply stable_sort_sorted_by. intros x. by eexists. }
  set (st0 := dict_of_items (groupby snd sorted)).
  assert (pool st0 ≡ₚ map stub_of (IL s)) as Hpool.
  { unfold st0, pool, dict_values.
    rewrite dict_of_items_nodup by (by apply groupby_sorted_NoDup).
    by rewrite groupby_concat. }
  destruct (fill_edges_spec D (dim (IL s)) (roles s) (edge_list s) ([], st0))
    as (out & st' & Hfill & Hslots).
  { intros e r He Hr. by apply dims_dict_get. }
  { intros r. simpl. unfold st0. rewrite avail_groups by done.
    rewrite Hsorted_perm. unfold demand.
    rewrite (map_ext _ (λ e, if decide (r ∈ roles s) then dim (IL s) e r else 0%nat))
      by (intros e; by apply edge_demand_declared).
    destruct (decide (r ∈ roles s)); [|rewrite sum_list_zero; lia].
    unfold dim. rewrite (sum_over_keys eid (λ x, role x = r)) by done.
    apply Nat.eq_le_incl. clear.
    induction (IL s) as [|x il IH]; simpl; [done|].
    rewrite !filter_cons. simpl. destruct (decide (role x = r)); simpl; by rewrite IH. }
  { intros r x. simpl. unfold st0. rewrite avail_groups by done.
    by intros [? _]%list_elem_of_filter. }
  simpl in Hfill. exists out, st'. split; [|split; [done|split]].
  - unfold stub_matching. rewrite Hdims. simpl.
    rewrite Hrs1. unfold D at 2. rewrite dims_dict_keys by done.
    fold D.
    change (stable_sort (λ e : Z * Z, [e.2]) (shuffle (map stub_of (IL s1)))) with sorted.
    fold st0. rewrite Hfill. done.
  - apply fill_edges_pool in Hfill. simpl in Hfill. by rewrite Hfill.
  - apply (fill_edges_meta D (roles s) (edge_list s) ([], st0) (out, st')); [|done].
    constructor.
Qed.

(** X23. [stub_matching] keeps the stubs: on a store with ids of the [int64]
    range whose roles are declared without repetition and all in use, whose
    incidences hold declared roles and whose [edge_list] is current, the new
    store has the [(node, role)] pairs of the old one, rearranged over the
    edges. Every node keeps its degree, in total and in each role, and no
    incidence is lost. *)
Theorem stub_matching_keeps_stubs (s : AnnotatedHypergraph W) :
  int64_ids (IL s) →
  sort_key s ≠ Some (sort_key_of [Frole]) →
  edge_list s = np_unique (map eid (IL s)) →
  NoDup (roles s) →
  (∀ x, x ∈ IL s → role x ∈ roles s) →
  (∀ r, r ∈ roles s → ∃ x, x ∈ IL s ∧ role x = r) →
  ∃ a,
    (stub_matching shuffle s).2 = Some a ∧
    map stub_of (IL a) ≡ₚ map stub_of (IL s) ∧
    length (IL a) = length (IL s) ∧
    (∀ v r, role_degree (IL a) v r = role_degree (IL s) v r) ∧
    (∀ v, counter_get (node_degrees a).2 v = counter_get (node_degrees s).2 v) ∧
    node_list a = np_unique (map nid (IL s)) ∧
    Forall (λ x, meta x = None) (IL a) ∧
    int64_ids (IL a).
Proof.
  intros Hids Hkey Hel Hnd Hdecl Hused.
  destruct (stub_matching_run s Hkey Hel Hnd Hdecl Hused)
    as (out & st' & Hrun & Hslots & Hpool & Hmeta).
  assert (length out = length (IL s)) as Hlen.
  { rewrite <- (length_map (λ x, (eid x, role x)) out).
    change (map (λ x, (eid x, role x)) out) with (slots out).
    rewrite Hslots. apply length_plan; [done| |done|].
    - rewrite Hel. apply np_unique_NoDup.
    - intros x Hx. rewrite Hel, np_unique_elem, map_fmap.
      apply list_elem_of_fmap. by exists x. }
  assert (pool st' = []) as Hempty.
  { apply Permutation_length in Hpool.
    rewrite length_app, !length_map, Hlen in Hpool.
    destruct (pool st'); [done|simpl in Hpool; lia]. }
  rewrite Hempty, app_nil_r in Hpool.
  exists (set_states (with_IL (sort [Frole] false s) out)).
  split; [by rewrite Hrun|]. split; [done|]. split; [done|].
  assert (map nid out ≡ₚ map nid (IL s)) as Hnids.
  { assert (∀ il, map nid il = map fst (map stub_of il)) as E
      by (intros il; by rewrite map_map).
    by rewrite !E, Hpool. }
  split; [|split; [|split]].
  - intros v r. unfold role_degree. simpl.
    assert (∀ il, length (filter (λ x, nid x = v ∧ role x = r) il)
                  = length (filter (λ p, p = (v, r)) (map stub_of il))) as E.
    { intros il. induction il as [|x il IH]; [done|]. simpl. rewrite !filter_cons.
      destruct (decide (nid x = v ∧ role x = r)) as [[<- <-]|Hne].
      - rewrite decide_True by done. simpl. by rewrite IH.
      - rewrite decide_False; [done|]. intros [= ? ?]. by apply Hne. }
    by rewrite !E, Hpool.
  - intros v. unfold node_degrees. cbn [snd]. rewrite !counter_get_Counter.
    apply count_nid_perm. rewrite !IL_sort_perm. exact Hnids.
  - simpl. apply np_unique_ext. intros v. by rewrite Hnids.
  - split; [done|]. simpl. unfold int64_ids in *.
    rewrite Forall_forall in Hids. apply Forall_forall. intros x Hx. split.
    + assert (nid x ∈ map nid (IL s)) as Hin.
      { rewrite <- Hnids, map_fmap. apply list_elem_of_fmap. by exists x. }
      rewrite map_fmap in Hin. apply list_elem_of_fmap in Hin as (y & -> & Hy).
      by apply Hids.
    + assert ((eid x, role x) ∈ plan (dim (IL s)) (roles s) (edge_list s)) as Hin.
      { rewrite <- Hslots. unfold slots. rewrite map_fmap.
        apply list_elem_of_fmap. by exists x. }
      apply plan_elem in Hin as (_ & _ & (y & Hy & <- & _)%dim_pos).
      by apply Hids.
Qed.
End StubMatchingStubs.

Lemma stub_matching_keeps_stubs_witness :
  ∃ a, (stub_matching id two_edges).2 = Some a ∧
       map stub_of (IL a) ≡ₚ map stub_of (IL two_edges).
Proof.
  destruct (stub_matching_keeps_stubs id (λ l, Permutation_refl l) two_edges)
    as (a & H1 & H2 & _).
  - apply (bool_decide_unpack _). reflexivity.
  - done.
  - reflexivity.
  - apply (bool_decide_unpack _). reflexivity.
  - intros x Hx. apply (bool_decide_unpack _).
    change (IL two_edges)
      with [mkInc 0 0 0 None; mkInc 1 0 1 None; mkInc 2 1 1 None] in Hx.
    repeat (apply elem_of_cons in Hx as [->|Hx]; [reflexivity|]).
    by apply elem_of_nil in Hx.
  - intros r Hr. change (roles two_edges) with [0; 1] in Hr.
    apply elem_of_cons in Hr as [->|Hr]; [exists (mkInc 0 0 0 None)|].
    { split; [|done]. apply (bool_decide_unpack _). reflexivity. }
    apply elem_of_cons in Hr as [->|Hr]; [exists (mkInc 2 1 1 None)|].
    { split; [|done]. apply (bool_decide_unpack _). reflexivity. }
    by apply elem_of_nil in Hr.
  - by exists a.
Defined.

(** ** Sorting, the sorted copy, the dispatcher and the bipartite export *)

Lemma lex_le_refl k : lex_le k k = true.
Proof.
  induction k as [|x k IH]; simpl; [done|].
  rewrite Z.eqb_refl, IH. by rewrite orb_true_r.
Qed.

(** X24. When [sort] does sort (the tracked key differs, which by [sort] itself
    is always so), the incidence list is rearranged into the lexicographic
    order of the key, descending with [reverse]; incidences with equal keys
    keep their order in both directions, and nothing else changes. *)
Theorem sort_sorts {W} by_ reverse (s : AnnotatedHypergraph W) :
  sort_key s ≠ Some (sort_key_of by_) →
  let key := λ x, map (getattr x) by_ in
  let t := sort by_ reverse s in
  IL t ≡ₚ IL s ∧
  StronglySorted (if reverse then flip (key_le key) else key_le key) (IL t) ∧
  (∀ k, filter (λ x, key x = k) (IL t) = filter (λ x, key x = k) (IL s)) ∧
  t = with_IL s (IL t).
Proof.
  intros Hkey key t.
  assert (IL t = py_sort key reverse (IL s)) as HIL.
  { unfold t, sort, sort_skips. by rewrite bool_decide_eq_false_2. }
  split; [apply IL_sort_perm|]. split; [|split].
  - rewrite HIL. unfold py_sort. destruct reverse.
    + apply StronglySorted_rev, stable_sort_sorted.
    + apply stable_sort_sorted.
  - intros k. rewrite HIL. apply py_sort_filter.
    intros a b -> ->. apply lex_le_refl.
  - unfold t, sort. by destruct (sort_skips _ _), s.
Qed.

Lemma sort_sorts_witness :
  sort_key unsorted_roles ≠ Some (sort_key_of [Frole]) ∧
  IL (sort [Frole] false unsorted_roles) ≡ₚ IL unsorted_roles.
Proof.
  assert (sort_key unsorted_roles ≠ Some (sort_key_of [Frole])) as H by done.
  split; [exact H|]. exact (proj1 (sort_sorts [Frole] false unsorted_roles H)).
Defined.

(** X25. [get_IL] returns a rearranged copy in descending order of the edge ids,
    in which the incidences of each edge keep the order they have in the
    store. *)
Theorem get_IL_sorted_copy {W} (s : AnnotatedHypergraph W) :
  get_IL s ≡ₚ IL s ∧
  StronglySorted (flip Z.le) (map eid (get_IL s)) ∧
  (∀ e, filter (λ x, eid x = e) (get_IL s) = filter (λ x, eid x = e) (IL s)).
Proof.
  unfold get_IL. split; [apply py_sort_perm|]. split.
  - unfold py_sort. rewrite map_rev. apply StronglySorted_rev.
    apply stable_sort_sorted_by. intros x. by eexists.
  - intros e. apply py_sort_filter. intros a b Ha Hb. simpl.
    rewrite Ha, Hb, Z.eqb_refl. by rewrite orb_true_r.
Qed.

(** X26. [_MCMC_no_role] passes the keywords [verbose] and [role_labels] on to
    the sampler [MCMC] picks. [_stub_labeled_MCMC] takes neither, so with
    [avoid_degeneracy=False] the call always ends in a [TypeError]; with
    [avoid_degeneracy=True] it is the degeneracy-avoiding sampler without
    role labels. [MCMC] itself reaches the stub-labeled sampler only when no
    keyword is given. *)
Theorem MCMC_no_role_outcomes {W} n_steps verbose draws swap_draws
    (s : AnnotatedHypergraph W) :
  _MCMC_no_role false n_steps verbose draws swap_draws s = BadKeyword ∧
  _MCMC_no_role true n_steps verbose draws swap_draws s
  = match degeneracy_avoiding_run n_steps false draws s with
    | Finished _ _ _ => Completed (_degeneracy_avoiding_MCMC n_steps false draws s)
    | _ => NotCompleted
    end ∧
  (∀ kwargs t, MCMC n_steps false kwargs draws swap_draws s = Completed t →
               kwargs = [] ∧ StubLabeled._stub_labeled_MCMC n_steps swap_draws s = Some t) ∧
  (∀ kwargs, MCMC n_steps true kwargs draws swap_draws s = BadKeyword
             ↔ ∃ kv, kv ∈ kwargs ∧ kv.1 ≠ "verbose"%string ∧ kv.1 ≠ "role_labels"%string).
Proof.
  split; [done|]. split; [|split].
  - unfold _MCMC_no_role, MCMC. simpl.
    by destruct (degeneracy_avoiding_run n_steps false draws s).
  - intros kwargs t. unfold MCMC. destruct kwargs; [|done].
    destruct (StubLabeled._stub_labeled_MCMC n_steps swap_draws s); [|done].
    by intros [= ->].
  - intros kwargs. unfold MCMC.
    destruct (forallb _ kwargs) eqn:Hall.
    + split.
      * by destruct (degeneracy_avoiding_run _ _ _ _).
      * intros (kv & Hkv & H1 & H2). rewrite forallb_forall in Hall.
        apply list_elem_of_In, Hall, bool_decide_eq_true in Hkv. tauto.
    + split; [|done]. intros _.
      assert (¬ Forall (λ kv : string * bool,
                          kv.1 = "verbose"%string ∨ kv.1 = "role_labels"%string) kwargs)
        as Hnot.
      { intros HF. rewrite Forall_forall in HF.
        assert (forallb (λ kv : string * bool,
                  bool_decide (kv.1 = "verbose"%string ∨ kv.1 = "role_labels"%string))
                  kwargs = true) as Htrue.
        { apply forallb_forall. intros kv Hkv%list_elem_of_In.
          apply bool_decide_eq_true. by apply HF. }
        congruence. }
      apply not_Forall_Exists in Hnot; [|apply _].
      apply Exists_exists in Hnot as (kv & Hkv & Hbad). exists kv. split; [done|].
      simpl in Hbad. tauto.
Qed.

(** X27. The bipartite export hands over one triple per incidence, node vertex
    [nid] and edge vertex [-eid - 1]; without the graph library it raises
    [NotImplementedError]. A node vertex and an edge vertex coincide exactly
    when some node id and some edge id add up to -1, which ids that are not
    negative exclude. *)
Theorem bipartite_export {W} (s : AnnotatedHypergraph W) :
  to_bipartite_graph false s = None ∧
  to_bipartite_graph true s = Some (ebunch s) ∧
  ebunch s ≡ₚ map (λ e, (nid e, - eid e - 1, role e)) (IL s) ∧
  ((∃ t t', t ∈ ebunch s ∧ t' ∈ ebunch s ∧ t.1.1 = t'.1.2)
   ↔ ∃ x y, x ∈ IL s ∧ y ∈ IL s ∧ nid x + eid y = -1) ∧
  ((∀ x, x ∈ IL s → 0 ≤ nid x ∧ 0 ≤ eid x) →
   ∀ t t', t ∈ ebunch s → t' ∈ ebunch s → t.1.1 ≠ t'.1.2).
Proof.
  assert (ebunch s ≡ₚ map (λ e, (nid e, - eid e - 1, role e)) (IL s)) as Hperm.
  { unfold ebunch, get_IL. by rewrite py_sort_perm. }
  assert (∀ t, t ∈ ebunch s ↔ ∃ x, x ∈ IL s ∧ t = (nid x, - eid x - 1, role x)) as Hin.
  { intros t. rewrite Hperm, map_fmap, list_elem_of_fmap. split.
    - intros (x & -> & Hx). by exists x.
    - intros (x & Hx & ->). by exists x. }
  split; [done|]. split; [done|]. split; [done|]. split; [split|].
  - intros (t & t' & (x & Hx & ->)%Hin & (y & Hy & ->)%Hin & Heq). simpl in Heq.
    exists x, y. split; [done|]. split; [done|]. lia.
  - intros (x & y & Hx & Hy & Heq).
    exists (nid x, - eid x - 1, role x), (nid y, - eid y - 1, role y).
    split; [apply Hin; by exists x|]. split; [apply Hin; by exists y|]. simpl. lia.
  - intros Hpos t t' (x & Hx & ->)%Hin (y & Hy & ->)%Hin. simpl.
    destruct (Hpos x Hx), (Hpos y Hy). lia.
Qed.

(** X28. The constructor, called without further keyword attributes on
    incidences with ids of the [int64] range, leaves a store whose incidence
    list is the given one in ascending order of the edge ids (incidences of
    one edge in the given order), whose derived state is current, and which
    has no role-interaction matrix and no tracked sort key; it has no edge
    exactly when the list is empty. *)
Theorem init_state {W} (il : list NodeEdgeIncidence) (rs : list Z) :
  int64_ids il →
  let s : AnnotatedHypergraph W := init il rs in
  IL s = stable_sort (λ x, [eid x]) il ∧
  StronglySorted Z.le (map eid (IL s)) ∧
  (∀ e, filter (λ x, eid x = e) (IL s) = filter (λ x, eid x = e) il) ∧
  states_current s ∧
  n s = length (np_unique (map nid il)) ∧
  m s = length (np_unique (map eid il)) ∧
  (m s = 0%nat ↔ il = []) ∧
  roles s = rs ∧ R s = None ∧ sort_key s = None ∧
  int64_ids (IL s).
Proof.
  intros Hids s.
  assert (IL s = stable_sort (λ x, [eid x]) il) as HIL by done.
  assert (IL s ≡ₚ il) as Hperm by (rewrite HIL; apply stable_sort_perm).
  split; [done|]. split; [|split; [|split; [|split; [|split; [|split]]]]].
  - rewrite HIL. apply stable_sort_sorted_by. intros x. by eexists.
  - intros e. rewrite HIL. apply stable_sort_filter. intros a b Ha Hb. simpl.
    rewrite Ha, Hb, Z.eqb_refl. by rewrite orb_true_r.
  - unfold states_current. simpl.
    split; [apply np_unique_ext; intros v; by rewrite stable_sort_perm|].
    split; [apply np_unique_ext; intros v; by rewrite stable_sort_perm|]. done.
  - done.
  - done.
  - change (m s) with (length (np_unique (map eid il))). split.
    + intros Hm. destruct il as [|x il']; [done|].
      assert (eid x ∈ np_unique (map eid (x :: il'))) as Hin
        by (apply np_unique_elem; by left).
      destruct (np_unique (map eid (x :: il'))); [by apply elem_of_nil in Hin|done].
    + by intros ->.
  - split; [done|]. split; [done|]. split; [done|].
    unfold int64_ids. by rewrite Hperm.
Qed.

Lemma init_state_witness :
  int64_ids [mkInc 0 0 1 None; mkInc 1 0 0 None; mkInc 2 1 1 None] ∧
  IL (init [mkInc 0 0 1 None; mkInc 1 0 0 None; mkInc 2 1 1 None] [0; 1]
      : AnnotatedHypergraph Z)
  = [mkInc 1 0 0 None; mkInc 0 0 1 None; mkInc 2 1 1 None] ∧
  m (init [mkInc 0 0 1 None; mkInc 1 0 0 None; mkInc 2 1 1 None] [0; 1]
     : AnnotatedHypergraph Z) = 2%nat.
Proof.
  assert (int64_ids [mkInc 0 0 1 None; mkInc 1 0 0 None; mkInc 2 1 1 None]) as H
    by (apply (bool_decide_unpack _); reflexivity).
  split; [exact H|].
  destruct (init_state (W := Z) [mkInc 0 0 1 None; mkInc 1 0 0 None; mkInc 2 1 1 None]
              [0; 1] H) as (H1 & _ & _ & _ & _ & H6 & _).
  split; [exact H1|exact H6].
Defined.
